(** * plox: the command-line driver and the Lisp-style printer

    A shallow embedding of [plox/main.py] and [plox/pprinter.py].  The
    modules the two files import ([plox.tokens], [plox.ast], [plox.errors],
    [plox.scanner], [plox.parser], [plox.resolver], [plox.interpret]) are
    modelled from the language specification where a definition needs
    them. *)

From Stdlib Require Import String Ascii List ZArith Bool Arith Lia.
From Stdlib Require Import Floats.SpecFloat Numbers.DecimalString.
From Equations.Prop Require Import Equations Logic.
Import ListNotations.

Scheme All for list.
Scheme All for option.

Local Open Scope string_scope.
Local Open Scope Z_scope.

(** ** Python strings *)

(** The newline character, Python's ["\n"]. *)
Definition nl : string := String (ascii_of_nat 10) EmptyString.

(** The double quote character, as a string. *)
Definition dquote : string := String (ascii_of_nat 34) EmptyString.

(** [sep.join(parts)]. *)
Fixpoint join (sep : string) (parts : list string) : string :=
  match parts with
  | [] => EmptyString
  | [p] => p
  | p :: rest => p ++ sep ++ join sep rest
  end.

(** [s * n] for a string [s] and an integer [n]; empty when [n <= 0]. *)
Fixpoint repeat_string (s : string) (n : nat) : string :=
  match n with
  | O => EmptyString
  | S n' => s ++ repeat_string s n'
  end.

Definition str_mul (s : string) (n : Z) : string := repeat_string s (Z.to_nat n).

(** ** Tokens and syntax trees ([plox.tokens], [plox.ast]) *)

(** Modelled from the spec: the double-precision numbers of the language,
    binary64 with the IEEE operations of [SpecFloat]. *)
Definition double : Type := spec_float.

(** Modelled from the spec: the closed set of token kinds of [plox.tokens]. *)
Inductive TokenType : Type :=
| LEFT_PAREN | RIGHT_PAREN | LEFT_BRACE | RIGHT_BRACE
| COMMA | DOT | MINUS | PLUS | SEMICOLON | SLASH | STAR
| BANG | BANG_EQUAL | EQUAL | EQUAL_EQUAL
| GREATER | GREATER_EQUAL | LESS | LESS_EQUAL
| IDENTIFIER | STRING | NUMBER
| AND | CLASS | ELSE | FALSE | FUN | FOR | IF | NIL | OR
| PRINT | RETURN | SUPER | THIS | TRUE | VAR | WHILE
| EOF.

(** Modelled from the spec: a literal value, [number | string | bool | nil]. *)
Inductive LitValue : Type :=
| LitNil
| LitBool (b : bool)
| LitNum (d : double)
| LitStr (s : string).

(** Modelled from the spec: [Token = {kind, lexeme, literal, line}]; an
    absent literal is [None]. *)
Record Token : Type := mkToken {
  kind : TokenType;
  lexeme : string;
  literal : option LitValue;
  line : nat
}.

(** Modelled from the spec: the expression variants of [plox.ast].  Python
    keys the resolver's depth map by object identity; the nodes the
    resolver records ([Variable], [Assign], [This], [Super]) carry the
    number [node] the parser gave them, which stands for that identity.
    [Variable] and [Set] are reserved words here, hence the underscore. *)
Inductive Expr : Type :=
| Literal (value : LitValue)
| Grouping (expression : Expr)
| Unary (operator : Token) (right : Expr)
| Binary (operator : Token) (left right : Expr)
| Logical (operator : Token) (left right : Expr)
| Variable_ (name : Token) (node : nat)
| Assign (name : Token) (value : Expr) (node : nat)
| Call (callee : Expr) (paren : Token) (arguments : list Expr)
| Get (object : Expr) (name : Token)
| Set_ (object : Expr) (name : Token) (value : Expr)
| This (keyword : Token) (node : nat)
| Super (keyword method : Token) (node : nat).

(** Modelled from the spec: the statement variants of [plox.ast].  The
    superclass of a [Class] is a [Variable] node, kept as its name token
    and node number; its methods are [Function] nodes. *)
Inductive Stmt : Type :=
| Expression (expression : Expr)
| Print (expression : Expr)
| Var (name : Token) (initializer : option Expr)
| Block (statements : list Stmt)
| If (condition : Expr) (then_branch : Stmt) (else_branch : option Stmt)
| While (condition : Expr) (body : Stmt)
| Function (name : Token) (params : list Token) (body : list Stmt)
| Return (keyword : Token) (value : option Expr)
| Class (name : Token) (superclass : option (Token * nat)) (methods : list Stmt).

Definition Program : Type := list Stmt.

(** ** [plox/pprinter.py]: class [LispPrinter] *)

(** A visit reads and writes the one field of the printer, [self.indent].
    [Printer A] is a computation over that field. *)
Definition Printer (A : Type) : Type := Z -> A * Z.

Definition pret {A} (a : A) : Printer A := fun indent => (a, indent).

Definition pbind {A B} (m : Printer A) (k : A -> Printer B) : Printer B :=
  fun indent => let (a, indent') := m indent in k a indent'.

Declare Scope printer_scope.
Notation "x <- m ;; k" := (pbind m (fun x => k))
  (at level 61, m at next level, right associativity) : printer_scope.
Notation "m ;; k" := (pbind m (fun _ => k))
  (at level 61, right associativity) : printer_scope.
Local Open Scope printer_scope.

(** [self.indent += d]. *)
Definition indent_add (d : Z) : Printer unit := fun indent => (tt, indent + d).

(** [print_indent(self, s)]: [" " * self.indent + s]. *)
Definition print_indent (s : string) : Printer string :=
  fun indent => (str_mul " " indent ++ s, indent).

Section Comprehension.
Context {A : Type} (accept : A -> Printer string).

(** [[self.print_indent(x.accept(self)) for x in xs]]: each element is
    visited, then its text is indented with the indent of that moment. *)
Fixpoint indented_lines (xs : list A) : Printer (list string) :=
  match xs with
  | [] => pret []
  | x :: rest =>
      s <- accept x ;;
      l <- print_indent s ;;
      ls <- indented_lines rest ;;
      pret (l :: ls)
  end.
End Comprehension.

Section LispPrinter.
(** [str(token)], the [__str__] of [plox.tokens.Token], which the
    sources at hand do not include. *)
Variable Token_str : Token -> string.

(** [str(x)] of a Python float, the host's rendering of a double. *)
Variable float_str : double -> string.

Section Expressions.
(** [expr.accept(self)]. *)
Variable accept : Expr -> Printer string.

Definition visit_assign (name : Token) (value : Expr) : Printer string :=
  v <- accept value ;;
  pret ("(assign " ++ lexeme name ++ " " ++ v ++ ")").

Definition visit_binary (operator : Token) (left right : Expr) : Printer string :=
  l <- accept left ;;
  r <- accept right ;;
  pret ("(" ++ lexeme operator ++ " " ++ l ++ " " ++ r ++ ")").

Definition visit_grouping (expression : Expr) : Printer string :=
  e <- accept expression ;;
  pret ("(grouping " ++ e ++ ")").

Definition visit_literal (value : LitValue) : Printer string :=
  match value with
  | LitNil => pret "nil"
  | LitBool true => pret "true"
  | LitBool false => pret "false"
  | LitStr s => pret (dquote ++ s ++ dquote)
  | LitNum d => pret (float_str d)
  end.

Definition visit_unary (operator : Token) (right : Expr) : Printer string :=
  r <- accept right ;;
  pret ("(" ++ Token_str operator ++ " " ++ r ++ ")").

Definition visit_variable (name : Token) : Printer string :=
  pret (lexeme name).

Definition visit_call (callee : Expr) (arguments : list Expr) : Printer string :=
  c <- accept callee ;;
  let s := "(call " ++ c in
  match arguments with
  | [] => pret (s ++ ")")
  | _ :: _ =>
      indent_add 4 ;;
      ls <- indented_lines accept arguments ;;
      let s := s ++ nl ++ join nl ls in
      indent_add (-4) ;;
      pret (s ++ ")")
  end.

Definition visit_logical (operator : Token) (left right : Expr) : Printer string :=
  l <- accept left ;;
  r <- accept right ;;
  pret ("(" ++ lexeme operator ++ " " ++ l ++ " " ++ r ++ ")").

Definition visit_get (object : Expr) (name : Token) : Printer string :=
  o <- accept object ;;
  pret ("(get " ++ o ++ " " ++ lexeme name ++ ")").

Definition visit_set (object : Expr) (name : Token) (value : Expr) : Printer string :=
  o <- accept object ;;
  v <- accept value ;;
  pret ("(set " ++ o ++ " " ++ lexeme name ++ " " ++ v ++ ")").

Definition visit_this : Printer string := pret "this".

Definition visit_super (keyword method : Token) : Printer string :=
  pret ("(" ++ lexeme keyword ++ " " ++ lexeme method ++ ")").
End Expressions.

(** Dispatch of [accept] over the expression variants. *)
Fixpoint accept_expr (e : Expr) : Printer string :=
  match e with
  | Literal v => visit_literal v
  | Grouping e1 => visit_grouping accept_expr e1
  | Unary op r => visit_unary accept_expr op r
  | Binary op l r => visit_binary accept_expr op l r
  | Logical op l r => visit_logical accept_expr op l r
  | Variable_ n _ => visit_variable n
  | Assign n v _ => visit_assign accept_expr n v
  | Call c _ args => visit_call accept_expr c args
  | Get o n => visit_get accept_expr o n
  | Set_ o n v => visit_set accept_expr o n v
  | This _ _ => visit_this
  | Super k m _ => visit_super k m
  end.

Section Statements.
(** [stmt.accept(self)]. *)
Variable accept : Stmt -> Printer string.

Definition visit_block (statements : list Stmt) : Printer string :=
  let s := "(block" in
  match statements with
  | [] => pret (s ++ ")")
  | _ :: _ =>
      indent_add 4 ;;
      ls <- indented_lines accept statements ;;
      let s := s ++ nl ++ join nl ls in
      indent_add (-4) ;;
      pret (s ++ ")")
  end.

Definition visit_print (expression : Expr) : Printer string :=
  e <- accept_expr expression ;;
  pret ("(print " ++ e ++ ")").

Definition visit_expression (expression : Expr) : Printer string :=
  accept_expr expression.

Definition visit_function (name : Token) (params : list Token) (body : list Stmt)
  : Printer string :=
  let s := "(func " ++ lexeme name ++ " (" ++ join " " (map lexeme params) ++ ")" in
  indent_add 4 ;;
  ls <- indented_lines accept body ;;
  let s := s ++ nl ++ join nl ls in
  indent_add (-4) ;;
  pret (s ++ ")").

Definition visit_if (condition : Expr) (then_branch : Stmt) (else_branch : option Stmt)
  : Printer string :=
  c <- accept_expr condition ;;
  let s := "(if " ++ c in
  indent_add 4 ;;
  t <- accept then_branch ;;
  t <- print_indent t ;;
  let s := s ++ nl ++ t in
  indent_add (-4) ;;
  match else_branch with
  | Some else_branch =>
      e <- accept else_branch ;;
      e <- print_indent e ;;
      pret (s ++ nl ++ e ++ ")")
  | None => pret (s ++ ")")
  end.

Definition visit_while (condition : Expr) (body : Stmt) : Printer string :=
  c <- accept_expr condition ;;
  let s := "(while " ++ c in
  indent_add 4 ;;
  b <- accept body ;;
  b <- print_indent b ;;
  let s := s ++ nl ++ b in
  indent_add (-4) ;;
  pret (s ++ ")").

Definition visit_return (value : option Expr) : Printer string :=
  match value with
  | Some value =>
      v <- accept_expr value ;;
      pret ("(return " ++ v ++ ")")
  | None => pret "(return)"
  end.

Definition visit_var (name : Token) (initializer : option Expr) : Printer string :=
  match initializer with
  | Some initializer =>
      i <- accept_expr initializer ;;
      pret ("(var " ++ lexeme name ++ " " ++ i ++ ")")
  | None => pret ("(var " ++ lexeme name ++ ")")
  end.

Definition visit_class (name : Token) (superclass : option (Token * nat))
    (methods : list Stmt) : Printer string :=
  let s := "(class " ++ lexeme name in
  let s := match superclass with
           | Some (super_name, _) => s ++ " (< " ++ lexeme super_name ++ ")"
           | None => s
           end in
  match methods with
  | [] => pret (s ++ ")")
  | _ :: _ =>
      indent_add 4 ;;
      ls <- indented_lines accept methods ;;
      let s := s ++ nl ++ join nl ls in
      indent_add (-4) ;;
      pret (s ++ ")")
  end.
End Statements.

(** Dispatch of [accept] over the statement variants. *)
Fixpoint accept_stmt (s : Stmt) : Printer string :=
  match s with
  | Expression e => visit_expression e
  | Print e => visit_print e
  | Var n i => visit_var n i
  | Block ss => visit_block accept_stmt ss
  | If c t e => visit_if accept_stmt c t e
  | While c b => visit_while accept_stmt c b
  | Function n ps b => visit_function accept_stmt n ps b
  | Return _ v => visit_return v
  | Class n sc ms => visit_class accept_stmt n sc ms
  end.

(** [[stmt.accept(self) for stmt in program]]. *)
Fixpoint accept_all (program : Program) : Printer (list string) :=
  match program with
  | [] => pret []
  | stmt :: rest =>
      s <- accept_stmt stmt ;;
      ss <- accept_all rest ;;
      pret (s :: ss)
  end.

(** [print_program(self, program)]. *)
Definition print_program (program : Program) : Printer string :=
  ss <- accept_all program ;;
  pret (join nl ss).

(** [LispPrinter().print_program(program)]: a new printer starts at
    indent 0. *)
Definition LispPrinter_print_program (program : Program) : string :=
  fst (print_program program 0).
End LispPrinter.

(** A visit that leaves [self.indent] as it found it. *)
Definition restores {A} (accept : A -> Printer string) (x : A) : Prop :=
  forall indent, snd (accept x indent) = indent.

(** ** The error sink ([plox.errors]) *)

(** Modelled from the spec: [Globals], the process-wide flags of the error
    sink. *)
Record Globals : Type := mkGlobals {
  had_error : bool;
  had_runtime_error : bool
}.

(** Modelled from the spec: a static (scan, parse or resolve) error as it
    reaches the sink: a line, the context [<at 'lex'>] and a message. *)
Record Diagnostic : Type := mkDiagnostic {
  diag_line : nat;
  diag_where : string;
  diag_message : string
}.

(** Modelled from the spec: a runtime error carries the offending token,
    for its line, and a message. *)
Record LoxRuntimeError : Type := mkRuntimeError {
  err_token : Token;
  err_message : string
}.

(** Decimal digits of a natural number, as [str(n)] gives them. *)
Definition nat_str (n : nat) : string := NilEmpty.string_of_uint (Nat.to_uint n).

(** ** The process *)

(** The calls the driver makes into the rest of the package. *)
Inductive DriverCall : Type :=
| scan_tokens_call (source : string)
| parse_call
| print_program_call
| resolve_list_call
| visit_statements_call.

(** What a run does that an observer can tell apart, in order: the calls
    of the driver and the reports that reach the error sink.  The trace is
    a ghost of the model; the program keeps only the two flags. *)
Inductive Event : Type :=
| Called (c : DriverCall)
| Reported (d : Diagnostic)
| RuntimeReported (e : LoxRuntimeError).

(** The state a process works on: the flags of [Globals], the two output
    streams, the files [Path.read_text] can read, and the ghost trace. *)
Record World : Type := mkWorld {
  globals : Globals;
  stdout : string;
  stderr : string;
  files : list (string * string);
  trace : list Event
}.

(** How a piece of the driver ends: it returns, or [exit(code)] raises
    [SystemExit], or an exception that nobody catches escapes, or the
    interpreter it called runs for ever. *)
Inductive Outcome (A : Type) : Type :=
| Returned (a : A)
| SystemExit (code : Z)
| Uncaught (exc : string)
| Hangs.

Arguments Returned {A} a.
Arguments SystemExit {A} code.
Arguments Uncaught {A} exc.
Arguments Hangs {A}.

Definition IO (A : Type) : Type := World -> Outcome A * World.

Definition ret {A} (a : A) : IO A := fun w => (Returned a, w).

Definition bind {A B} (m : IO A) (k : A -> IO B) : IO B :=
  fun w =>
    match m w with
    | (Returned a, w') => k a w'
    | (SystemExit code, w') => (SystemExit code, w')
    | (Uncaught exc, w') => (Uncaught exc, w')
    | (Hangs, w') => (Hangs, w')
    end.

Declare Scope io_scope.
Delimit Scope io_scope with io.
Bind Scope io_scope with IO.
Notation "x <- m ;; k" := (bind m (fun x => k))
  (at level 61, m at next level, right associativity) : io_scope.
Notation "m ;; k" := (bind m (fun _ => k))
  (at level 61, right associativity) : io_scope.
Local Open Scope io_scope.

(** The exit status the operating system sees; a process that hangs has
    none. *)
Definition exit_status {A} (o : Outcome A) : option Z :=
  match o with
  | Returned _ => Some 0
  | SystemExit code => Some code
  | Uncaught _ => Some 1
  | Hangs => None
  end.

(** *** What the steps of a process do to the world *)

Definition logged (e : Event) (w : World) : World :=
  mkWorld (globals w) (stdout w) (stderr w) (files w) (trace w ++ [e]).

Definition printed (s e : string) (w : World) : World :=
  mkWorld (globals w) (stdout w ++ s ++ e) (stderr w) (files w) (trace w).

Definition eprinted (s : string) (w : World) : World :=
  mkWorld (globals w) (stdout w) (stderr w ++ s ++ nl) (files w) (trace w).

Definition with_had_error (b : bool) (w : World) : World :=
  mkWorld (mkGlobals b (had_runtime_error (globals w)))
          (stdout w) (stderr w) (files w) (trace w).

Definition with_had_runtime_error (b : bool) (w : World) : World :=
  mkWorld (mkGlobals (had_error (globals w)) b)
          (stdout w) (stderr w) (files w) (trace w).

Definition log (e : Event) : IO unit := fun w => (Returned tt, logged e w).

(** [print(s, end=e)]. *)
Definition print_end (s e : string) : IO unit := fun w => (Returned tt, printed s e w).

(** [print(s)]. *)
Definition print (s : string) : IO unit := print_end s nl.

(** [print(s, file=sys.stderr)]. *)
Definition eprint (s : string) : IO unit := fun w => (Returned tt, eprinted s w).

(** [exit(code)]. *)
Definition exit (code : Z) : IO unit := fun w => (SystemExit code, w).

(** Reads [Globals]. *)
Definition get_globals : IO Globals := fun w => (Returned (globals w), w).

(** [Globals.had_error = b]. *)
Definition set_had_error (b : bool) : IO unit :=
  fun w => (Returned tt, with_had_error b w).

(** [Globals.had_runtime_error = b]. *)
Definition set_had_runtime_error (b : bool) : IO unit :=
  fun w => (Returned tt, with_had_runtime_error b w).

(** The line a static error leaves on standard error. *)
Definition diagnostic_text (d : Diagnostic) : string :=
  "[line " ++ nat_str (diag_line d) ++ "] Error" ++ diag_where d ++ ": " ++ diag_message d.

(** Modelled from the spec: the sink's report of a static error, which
    writes [[line N] Error<at 'lex'>: message] to standard error and sets
    [had_error]. *)
Definition report (d : Diagnostic) : IO unit :=
  log (Reported d) ;;
  eprint (diagnostic_text d) ;;
  set_had_error true.

Fixpoint report_all (ds : list Diagnostic) : IO unit :=
  match ds with
  | [] => ret tt
  | d :: rest => report d ;; report_all rest
  end.

(** The lines the errors [ds] leave on standard error. *)
Fixpoint diagnostics_text (ds : list Diagnostic) : string :=
  match ds with
  | [] => EmptyString
  | d :: rest => diagnostic_text d ++ nl ++ diagnostics_text rest
  end.

(** The world after the reports of [ds]. *)
Definition reported (ds : list Diagnostic) (w : World) : World := snd (report_all ds w).

(** Whether [ds] holds an error. *)
Definition any_error (ds : list Diagnostic) : bool :=
  match ds with
  | [] => false
  | _ :: _ => true
  end.

(** Modelled from the spec: the sink's report of a runtime error, which
    writes the message and [[line N]] to standard error and sets
    [had_runtime_error]. *)
Definition runtime_error (e : LoxRuntimeError) : IO unit :=
  log (RuntimeReported e) ;;
  eprint (err_message e ++ nl ++ "[line " ++ nat_str (line (err_token e)) ++ "]") ;;
  set_had_runtime_error true.

(** [Path(f).read_text(encoding="utf8")]: the text of the file, or an
    [OSError] when the path cannot be read. *)
Fixpoint lookup_file (f : string) (fs : list (string * string)) : option string :=
  match fs with
  | [] => None
  | (name, text) :: rest => if String.eqb name f then Some text else lookup_file f rest
  end.

Definition read_text (f : string) : IO string :=
  fun w =>
    match lookup_file f (files w) with
    | Some text => (Returned text, w)
    | None => (Uncaught "OSError", w)
    end.

(** ** The rest of the package, as the driver sees it *)

(** How [Interpreter.visit_statements] ends: the program ran to its end,
    or a runtime error unwound it and was handed to the sink, or the Lox
    program does not terminate. *)
Inductive Ending : Type :=
| Completed
| Failed (e : LoxRuntimeError)
| Diverges.

(** The classes [main.py] imports and the two string forms the printer
    asks for, the [__str__] of a [Token] and the host's [str] of a float.
    The scanner, the parser and the resolver reach the outside only
    through the error sink, so each returns what it reports; the
    interpreter writes to standard output and may end in a runtime error.
    An interpreter holds its state (global environment, current
    environment, depth map) in the instance, so [Interpreter()] is the
    same value at every call. *)
Class Package : Type := mkPackage {
  Token_str : Token -> string;
  float_str : double -> string;
  Scanner_scan_tokens : string -> list Token * list Diagnostic;
  Parser_parse : list Token -> option Program * list Diagnostic;
  Interpreter : Type;
  Interpreter_new : Interpreter;
  Resolver_resolve_list : Program -> Interpreter -> Interpreter * list Diagnostic;
  Interpreter_visit_statements : Program -> Interpreter -> string * Ending
}.

(** ** [plox/main.py] *)

Section Driver.
Context {pkg : Package}.

(** [Scanner(source).scan_tokens()]. *)
Definition scan_tokens (source : string) : IO (list Token) :=
  log (Called (scan_tokens_call source)) ;;
  let (tokens, errors) := Scanner_scan_tokens source in
  report_all errors ;;
  ret tokens.

(** [Parser(tokens).parse()]. *)
Definition parse (tokens : list Token) : IO (option Program) :=
  log (Called parse_call) ;;
  let (result, errors) := Parser_parse tokens in
  report_all errors ;;
  ret result.

(** [LispPrinter().print_program(result)]. *)
Definition LispPrinter_new_print_program (result : Program) : IO string :=
  log (Called print_program_call) ;;
  ret (LispPrinter_print_program Token_str float_str result).

(** [Resolver(interpreter).resolve_list(result)]; the resolver leaves its
    depth map in the interpreter. *)
Definition resolve_list (result : Program) (interpreter : Interpreter) : IO Interpreter :=
  log (Called resolve_list_call) ;;
  let (interpreter', errors) := Resolver_resolve_list result interpreter in
  report_all errors ;;
  ret interpreter'.

(** [interpreter.visit_statements(result)]. *)
Definition visit_statements (result : Program) (interpreter : Interpreter) : IO unit :=
  log (Called visit_statements_call) ;;
  let (output, ending) := Interpreter_visit_statements result interpreter in
  print_end output EmptyString ;;
  match ending with
  | Completed => ret tt
  | Failed e => runtime_error e
  | Diverges => fun w => (Hangs, w)
  end.

Definition run (source : string) : IO unit :=
  tokens <- scan_tokens source ;;
  result <- parse tokens ;;
  g <- get_globals ;;
  match result with
  | None => ret tt
  | Some result =>
      if had_error g then ret tt
      else
        text <- LispPrinter_new_print_program result ;;
        print text ;;
        let interpreter := Interpreter_new in
        interpreter <- resolve_list result interpreter ;;
        g <- get_globals ;;
        if had_error g then ret tt
        else visit_statements result interpreter
  end.

Definition run_file (f : string) : IO unit :=
  source <- read_text f ;;
  run source ;;
  g <- get_globals ;;
  (if had_error g then exit 65 else ret tt) ;;
  g <- get_globals ;;
  (if had_runtime_error g then exit 70 else ret tt).

(** [sys.stdin.readline()] on the unread input: the line up to and with
    its newline and what is left; at the end of the input the line is
    empty. *)
Fixpoint readline (input : string) : string * string :=
  match input with
  | EmptyString => (EmptyString, EmptyString)
  | String c rest =>
      if Ascii.eqb c (ascii_of_nat 10) then (String c EmptyString, rest)
      else let (l, rest') := readline rest in (String c l, rest')
  end.

Lemma readline_shorter (input : string) (c : ascii) (l rest : string) :
  readline input = (String c l, rest) ->
  (String.length rest < String.length input)%nat.
Proof.
  revert c l rest.
  induction input as [|a input IH]; intros c l rest H; simpl in H.
  - discriminate.
  - destruct (Ascii.eqb a (ascii_of_nat 10)).
    + injection H as _ _ <-. simpl. lia.
    + destruct (readline input) as [l' rest'] eqn:E.
      injection H as _ <- <-.
      destruct l' as [|c' l'].
      * destruct input; simpl in E.
        -- injection E as <-. simpl. lia.
        -- destruct (Ascii.eqb a0 (ascii_of_nat 10)); [discriminate|].
           destruct (readline input); discriminate.
      * specialize (IH _ _ _ eq_refl). simpl. lia.
Qed.

(** One turn of the loop of [run_prompt] on the line [inp]: the prompt,
    the run, and the reset of [had_error]. *)
Definition repl_entry (inp : string) : IO unit :=
  print_end "> " EmptyString ;;
  run inp ;;
  set_had_error false.

(** [run_prompt()], on the unread standard input [input].  The loop ends
    when [readline] returns the empty string. *)
Equations run_prompt (input : string) : IO unit by wf (String.length input) lt :=
  run_prompt input with inspect (readline input) := {
    | exist _ (EmptyString, _) _ => print_end "> " EmptyString
    | exist _ (String c l, rest) e =>
        print_end "> " EmptyString ;;
        run (String c l) ;;
        set_had_error false ;;
        run_prompt rest }.
Next Obligation.
  eapply readline_shorter; eassumption.
Qed.

(** The lines that successive calls of [readline] return on [input]. *)
Fixpoint lines_of (input : string) : list string :=
  match input with
  | EmptyString => []
  | String c rest =>
      if Ascii.eqb c (ascii_of_nat 10) then String c EmptyString :: lines_of rest
      else
        match lines_of rest with
        | [] => [String c EmptyString]
        | l :: ls => String c l :: ls
        end
  end.

(** The turns of the loop on the lines [lines], one after the other. *)
Fixpoint repl_entries (lines : list string) : IO unit :=
  match lines with
  | [] => ret tt
  | inp :: rest => repl_entry inp ;; repl_entries rest
  end.

(** The errors of the scanner and of the parser on [source], those
    reported before resolution could start. *)
Definition errors_before_resolution (source : string) : list Diagnostic :=
  let (tokens, scan_errors) := Scanner_scan_tokens source in
  scan_errors ++ snd (Parser_parse tokens).

(** What the interpreter writes for [program], when the resolver lets it
    run. *)
Definition execution_output (program : Program) : string :=
  let (interpreter, resolve_errors) := Resolver_resolve_list program Interpreter_new in
  if any_error resolve_errors then EmptyString
  else fst (Interpreter_visit_statements program interpreter).

(** The [__main__] block, on [sys.argv] and the standard input. *)
Definition main (argv : list string) (input : string) : IO unit :=
  if (2 <? length argv)%nat then
    print "Usage: plox [script]" ;;
    exit 64
  else if (length argv =? 2)%nat then
    run_file (nth 1 argv EmptyString)
  else
    run_prompt input.

End Driver.

(** The events that [m] adds to the trace of [w]. *)
Definition events_during {A} (m : IO A) (w : World) : list Event :=
  skipn (length (trace w)) (trace (snd (m w))).

(** The reports of static errors and of runtime errors among events. *)
Definition is_static_report (e : Event) : bool :=
  match e with
  | Reported _ => true
  | _ => false
  end.

Definition is_runtime_report (e : Event) : bool :=
  match e with
  | RuntimeReported _ => true
  | _ => false
  end.

(** The world a process starts in: both flags false, nothing written. *)
Definition start (fs : list (string * string)) : World :=
  mkWorld (mkGlobals false false) EmptyString EmptyString fs [].

(** ** Doubles of the host *)

(** binary64: 53 bits of precision, exponent of the infinities 1024. *)
Definition prec : Z := 53.
Definition emax : Z := 1024.

Definition double_add : double -> double -> double := SFadd prec emax.
Definition double_sub : double -> double -> double := SFsub prec emax.
Definition double_mul : double -> double -> double := SFmul prec emax.
Definition double_div : double -> double -> double := SFdiv prec emax.

(** The double nearest to [n / d], ties to even, for [0 <= n] and
    [0 < d]; this is what [float(text)] computes for a decimal literal. *)
Definition double_of_ratio (n d : Z) : double :=
  match n with
  | Zpos _ =>
      let '(m, e, l) := SFdiv_core_binary prec emax n 0 d 0 in
      binary_round_aux prec emax false m e l
  | _ => S754_zero false
  end.

(** The number a run of decimal digits denotes. *)
Definition digit_value (c : ascii) : Z := Z.of_nat (nat_of_ascii c) - 48.

Fixpoint digits_value (acc : Z) (s : string) : Z :=
  match s with
  | EmptyString => acc
  | String c rest => digits_value (10 * acc + digit_value c) rest
  end.

(** [float(whole + "." + fraction)]. *)
Definition double_of_decimal (whole fraction : string) : double :=
  double_of_ratio (digits_value 0 (whole ++ fraction))
                  (10 ^ Z.of_nat (String.length fraction)).

(** *** [str] of a float

    Python prints the shortest run of digits that reads back as the same
    double, the run nearest to the double among the shortest; it uses
    the positional form while the decimal point stays within the first
    sixteen digits and no more than three zeros follow it, the
    exponent form otherwise. *)

(** A positive rational [num / den], [0 < den]. *)
Definition ratio : Type := (Z * Z)%type.

Definition ratio_le (a b : ratio) : bool := fst a * snd b <=? fst b * snd a.
Definition ratio_lt (a b : ratio) : bool := fst a * snd b <? fst b * snd a.

(** [m * 2 ^ e] as a ratio. *)
Definition ratio_of_binary (m e : Z) : ratio :=
  if 0 <=? e then (m * 2 ^ e, 1) else (m, 2 ^ (- e)).

(** [c * 10 ^ p] as a ratio. *)
Definition ratio_of_decimal (c p : Z) : ratio :=
  if 0 <=? p then (c * 10 ^ p, 1) else (c, 10 ^ (- p)).

(** The reals that round to the double [m * 2 ^ e]: its lower and upper
    bound, which belong to the interval when [m] is even. *)
Definition rounding_interval (m e : Z) : ratio * ratio :=
  let lower :=
    if (m =? 2 ^ (prec - 1)) && (3 - emax - prec <? e)
    then ratio_of_binary (4 * m - 1) (e - 2)
    else ratio_of_binary (2 * m - 1) (e - 1) in
  (lower, ratio_of_binary (2 * m + 1) (e - 1)).

Definition reads_back (m e : Z) (v : ratio) : bool :=
  let (lower, upper) := rounding_interval m e in
  if Z.even m then ratio_le lower v && ratio_le v upper
  else ratio_lt lower v && ratio_lt v upper.

(** The position [k] of the decimal point: [10 ^ (k - 1) <= x < 10 ^ k]. *)
Fixpoint point_up (fuel : nat) (x : ratio) (k : Z) : Z :=
  match fuel with
  | O => k
  | S fuel' =>
      if ratio_lt x (ratio_of_decimal 1 k) then k else point_up fuel' x (k + 1)
  end.

Fixpoint point_down (fuel : nat) (x : ratio) (k : Z) : Z :=
  match fuel with
  | O => k
  | S fuel' =>
      if ratio_le (ratio_of_decimal 1 (k - 1)) x then k else point_down fuel' x (k - 1)
  end.

Definition decimal_point (x : ratio) : Z :=
  if ratio_le (1, 1) x then point_up 400 x 1 else point_down 400 x 0.

(** |a - b| compared with |c - b|, for ratios. *)
Definition ratio_dist (a b : ratio) : ratio :=
  (Z.abs (fst a * snd b - fst b * snd a), snd a * snd b).

(** The digits of the nearest decimal with [n] digits that reads back,
    if one does: the integer [c] and the power [p], for [c * 10 ^ p]. *)
Definition candidate (m e : Z) (x : ratio) (k : Z) (n : Z) : option (Z * Z) :=
  let p := k - n in
  let c0 := if 0 <=? p then fst x / (snd x * 10 ^ p)
            else (fst x * 10 ^ (- p)) / snd x in
  let c1 := c0 + 1 in
  let v0 := ratio_of_decimal c0 p in
  let v1 := ratio_of_decimal c1 p in
  let ok0 := (0 <? c0) && reads_back m e v0 in
  let ok1 := reads_back m e v1 in
  match ok0, ok1 with
  | true, false => Some (c0, p)
  | false, true => Some (c1, p)
  | false, false => None
  | true, true =>
      let d0 := ratio_dist v0 x in
      let d1 := ratio_dist v1 x in
      if ratio_lt d0 d1 then Some (c0, p)
      else if ratio_lt d1 d0 then Some (c1, p)
      else if Z.even c0 then Some (c0, p) else Some (c1, p)
  end.

Fixpoint shortest (fuel : nat) (m e : Z) (x : ratio) (k : Z) (n : Z) : Z * Z :=
  match fuel with
  | O => (0, 0)
  | S fuel' =>
      match candidate m e x k n with
      | Some r => r
      | None => shortest fuel' m e x k (n + 1)
      end
  end.

(** Drops the zeros at the end of [c], raising the power with each. *)
Fixpoint strip_zeros (fuel : nat) (c p : Z) : Z * Z :=
  match fuel with
  | O => (c, p)
  | S fuel' => if (c mod 10 =? 0) && (0 <? c) then strip_zeros fuel' (c / 10) (p + 1)
               else (c, p)
  end.

Definition Z_str (n : Z) : string := NilZero.string_of_uint (N.to_uint (Z.to_N n)).

Fixpoint take_str (n : nat) (s : string) : string :=
  match n, s with
  | S n', String c rest => String c (take_str n' rest)
  | _, _ => EmptyString
  end.

Fixpoint drop_str (n : nat) (s : string) : string :=
  match n, s with
  | S n', String _ rest => drop_str n' rest
  | _, _ => s
  end.

(** The text of the digits [ds] with the decimal point after the first
    [k] of them. *)
Definition layout (ds : string) (k : Z) : string :=
  let n := Z.of_nat (String.length ds) in
  if (-4 <? k) && (k <=? 16) then
    if k <=? 0 then "0." ++ str_mul "0" (- k) ++ ds
    else if n <=? k then ds ++ str_mul "0" (k - n) ++ ".0"
    else take_str (Z.to_nat k) ds ++ "." ++ drop_str (Z.to_nat k) ds
  else
    let exponent := k - 1 in
    let digits := Z_str (Z.abs exponent) in
    let digits := if Z.abs exponent <? 10 then "0" ++ digits else digits in
    take_str 1 ds
      ++ (if 1 <? n then "." ++ drop_str 1 ds else EmptyString)
      ++ "e" ++ (if exponent <? 0 then "-" else "+") ++ digits.

(** Modelled from the spec: the host's representation of a double, here
    Python's [str(x)] for a float [x]. *)
Definition python_float_str (x : double) : string :=
  match x with
  | S754_nan => "nan"
  | S754_infinity false => "inf"
  | S754_infinity true => "-inf"
  | S754_zero false => "0.0"
  | S754_zero true => "-0.0"
  | S754_finite s m e =>
      let v := ratio_of_binary (Zpos m) e in
      let k := decimal_point v in
      let (c, p) := shortest 17 (Zpos m) e v k 1 in
      let (c, p) := strip_zeros 17 c p in
      let ds := Z_str c in
      (if s then "-" else EmptyString) ++ layout ds (p + Z.of_nat (String.length ds))
  end.

(** ** The scanner ([plox.scanner]) *)

Definition char_between (lo hi c : ascii) : bool :=
  (nat_of_ascii lo <=? nat_of_ascii c)%nat && (nat_of_ascii c <=? nat_of_ascii hi)%nat.

Definition is_digit (c : ascii) : bool := char_between "0" "9" c.

Definition is_alpha (c : ascii) : bool :=
  char_between "a" "z" c || char_between "A" "Z" c || Ascii.eqb c "_".

Definition is_alpha_numeric (c : ascii) : bool := is_alpha c || is_digit c.

Definition is_newline (c : ascii) : bool := Ascii.eqb c (ascii_of_nat 10).

Definition is_quote (c : ascii) : bool := Ascii.eqb c (ascii_of_nat 34).

(** The longest prefix of [s] whose characters satisfy [p], and the rest. *)
Fixpoint span (p : ascii -> bool) (s : string) : string * string :=
  match s with
  | EmptyString => (EmptyString, EmptyString)
  | String c rest =>
      if p c then let (taken, left) := span p rest in (String c taken, left)
      else (EmptyString, s)
  end.

Fixpoint count_newlines (s : string) : nat :=
  match s with
  | EmptyString => O
  | String c rest => ((if is_newline c then 1 else 0) + count_newlines rest)%nat
  end.

(** Modelled from the spec: the keywords, recognised by table lookup. *)
Definition keywords : list (string * TokenType) :=
  [("and", AND); ("class", CLASS); ("else", ELSE); ("false", FALSE);
   ("fun", FUN); ("for", FOR); ("if", IF); ("nil", NIL); ("or", OR);
   ("print", PRINT); ("return", RETURN); ("super", SUPER); ("this", THIS);
   ("true", TRUE); ("var", VAR); ("while", WHILE)].

Fixpoint lookup_keyword (text : string) (table : list (string * TokenType)) : TokenType :=
  match table with
  | [] => IDENTIFIER
  | (word, k) :: rest => if String.eqb word text then k else lookup_keyword text rest
  end.

Definition Scanned : Type := (list Token * list Diagnostic)%type.

Definition emit (t : Token) (r : Scanned) : Scanned := (t :: fst r, snd r).

Definition complain (d : Diagnostic) (r : Scanned) : Scanned := (fst r, d :: snd r).

Definition char_str (c : ascii) : string := String c EmptyString.

(** Modelled from the spec: the scanner.  Whitespace and [//] comments
    are dropped, strings have no escapes and may span lines, numbers are
    [DIGIT+ ( '.' DIGIT+ )?], identifiers [[A-Za-z_][A-Za-z0-9_]*]; an
    unterminated string and an unexpected character are reported and the
    scan goes on.  The messages are those of the reference Lox scanner.
    Every turn consumes a character, so [fuel] above the length of the
    source is never used up. *)
Fixpoint scan (fuel : nat) (source : string) (ln : nat) : Scanned :=
  match fuel with
  | O => ([], [])
  | S fuel' =>
      match source with
      | EmptyString => ([mkToken EOF EmptyString None ln], [])
      | String c rest =>
          let simple k := emit (mkToken k (char_str c) None ln) (scan fuel' rest ln) in
          let with_equal k1 k2 :=
            match rest with
            | String "=" rest' =>
                emit (mkToken k2 (String c "=") None ln) (scan fuel' rest' ln)
            | _ => simple k1
            end in
          match c with
          | "("%char => simple LEFT_PAREN
          | ")"%char => simple RIGHT_PAREN
          | "{"%char => simple LEFT_BRACE
          | "}"%char => simple RIGHT_BRACE
          | ","%char => simple COMMA
          | "."%char => simple DOT
          | "-"%char => simple MINUS
          | "+"%char => simple PLUS
          | ";"%char => simple SEMICOLON
          | "*"%char => simple STAR
          | "!"%char => with_equal BANG BANG_EQUAL
          | "="%char => with_equal EQUAL EQUAL_EQUAL
          | "<"%char => with_equal LESS LESS_EQUAL
          | ">"%char => with_equal GREATER GREATER_EQUAL
          | "/"%char =>
              match rest with
              | String "/" rest' =>
                  scan fuel' (snd (span (fun x => negb (is_newline x)) rest')) ln
              | _ => simple SLASH
              end
          | " "%char => scan fuel' rest ln
          | "009"%char => scan fuel' rest ln
          | "013"%char => scan fuel' rest ln
          | "010"%char => scan fuel' rest (S ln)
          | "034"%char =>
              let (text, after) := span (fun x => negb (is_quote x)) rest in
              let ln' := (ln + count_newlines text)%nat in
              match after with
              | EmptyString =>
                  complain (mkDiagnostic ln' EmptyString "Unterminated string.")
                           (scan fuel' after ln')
              | String _ after' =>
                  emit (mkToken STRING (dquote ++ text ++ dquote) (Some (LitStr text)) ln')
                       (scan fuel' after' ln')
              end
          | _ =>
              if is_digit c then
                let (whole, after) := span is_digit source in
                match after with
                | String "." (String d _ as after') =>
                    if is_digit d then
                      let (fraction, after'') := span is_digit after' in
                      emit (mkToken NUMBER (whole ++ "." ++ fraction)
                                    (Some (LitNum (double_of_decimal whole fraction))) ln)
                           (scan fuel' after'' ln)
                    else
                      emit (mkToken NUMBER whole
                                    (Some (LitNum (double_of_decimal whole EmptyString))) ln)
                           (scan fuel' after ln)
                | _ =>
                    emit (mkToken NUMBER whole
                                  (Some (LitNum (double_of_decimal whole EmptyString))) ln)
                         (scan fuel' after ln)
                end
              else if is_alpha c then
                let (text, after) := span is_alpha_numeric source in
                emit (mkToken (lookup_keyword text keywords) text None ln)
                     (scan fuel' after ln)
              else
                complain (mkDiagnostic ln EmptyString "Unexpected character.")
                         (scan fuel' rest ln)
          end
      end
  end.

(** Modelled from the spec: [Scanner(source).scan_tokens()] of
    [plox.scanner], the tokens, ended by [EOF], and the errors reported
    on the way. *)
Definition Lox_scan_tokens (source : string) : list Token * list Diagnostic :=
  scan (S (String.length source)) source 1.

(** ** The parser ([plox.parser]) *)

Scheme Equality for TokenType.

(** [token.kind in kinds]. *)
Definition kind_in (kinds : list TokenType) (t : Token) : bool :=
  existsb (TokenType_beq (kind t)) kinds.

(** The parser's fields: the tokens from [current] on, the token before
    them, the errors reported so far, and the number of the next node. *)
Record ParserState : Type := mkParserState {
  tokens_left : list Token;
  previous : Token;
  errors : list Diagnostic;
  fresh_node : nat
}.

(** How a parsing method ends: with a value, with a raised [ParseError],
    or, in the model only, with its fuel used up. *)
Inductive Parsed (A : Type) : Type :=
| Ok (a : A)
| Raised
| Exhausted.

Arguments Ok {A} a.
Arguments Raised {A}.
Arguments Exhausted {A}.

Definition Parser (A : Type) : Type := ParserState -> Parsed A * ParserState.

Definition parser_ret {A} (a : A) : Parser A := fun st => (Ok a, st).

Definition parser_bind {A B} (m : Parser A) (k : A -> Parser B) : Parser B :=
  fun st =>
    match m st with
    | (Ok a, st') => k a st'
    | (Raised, st') => (Raised, st')
    | (Exhausted, st') => (Exhausted, st')
    end.

Declare Scope parser_scope.
Notation "x <- m ;; k" := (parser_bind m (fun x => k))
  (at level 61, m at next level, right associativity) : parser_scope.
Notation "m ;; k" := (parser_bind m (fun _ => k))
  (at level 61, right associativity) : parser_scope.
Local Open Scope parser_scope.

Definition exhausted {A} : Parser A := fun st => (Exhausted, st).

Definition raise_parse_error {A} : Parser A := fun st => (Raised, st).

Definition end_token : Token := mkToken EOF EmptyString None 0.

Definition peek : Parser Token :=
  fun st => (Ok (hd end_token (tokens_left st)), st).

Definition get_previous : Parser Token := fun st => (Ok (previous st), st).

Definition is_at_end : Parser bool :=
  t <- peek ;; parser_ret (TokenType_beq (kind t) EOF).

Definition advance : Parser Token :=
  fun st =>
    match tokens_left st with
    | t :: rest =>
        if TokenType_beq (kind t) EOF then (Ok (previous st), st)
        else (Ok t, mkParserState rest t (errors st) (fresh_node st))
    | [] => (Ok (previous st), st)
    end.

Definition check (k : TokenType) : Parser bool :=
  t <- peek ;; parser_ret (negb (TokenType_beq (kind t) EOF) && TokenType_beq (kind t) k).

(** [match] on several kinds: consumes the next token when it has one of the kinds. *)
Definition match_any (kinds : list TokenType) : Parser bool :=
  t <- peek ;;
  if negb (TokenType_beq (kind t) EOF) && kind_in kinds t
  then advance ;; parser_ret true
  else parser_ret false.

(** [error(token, message)]: reports at the token, [ at end] for [EOF]. *)
Definition parse_error (t : Token) (message : string) : Parser unit :=
  fun st =>
    let where_ := if TokenType_beq (kind t) EOF then " at end"
                  else " at '" ++ lexeme t ++ "'" in
    (Ok tt, mkParserState (tokens_left st) (previous st)
                          (errors st ++ [mkDiagnostic (line t) where_ message])
                          (fresh_node st)).

Definition consume (k : TokenType) (message : string) : Parser Token :=
  b <- check k ;;
  if b then advance
  else t <- peek ;; parse_error t message ;; raise_parse_error.

(** The number that stands for the identity of a new node. *)
Definition new_node : Parser nat :=
  fun st => (Ok (fresh_node st),
             mkParserState (tokens_left st) (previous st) (errors st) (S (fresh_node st))).

(** [synchronize()]: drops tokens up to a statement boundary. *)
Fixpoint skip_to_boundary (prev : Token) (toks : list Token) : Token * list Token :=
  match toks with
  | [] => (prev, [])
  | t :: rest =>
      if TokenType_beq (kind t) EOF then (prev, toks)
      else if TokenType_beq (kind prev) SEMICOLON then (prev, toks)
      else if kind_in [CLASS; FUN; VAR; FOR; IF; WHILE; PRINT; RETURN] t then (prev, toks)
      else skip_to_boundary t rest
  end.

Definition synchronize : Parser unit :=
  advance ;;
  fun st =>
    let (prev, toks) := skip_to_boundary (previous st) (tokens_left st) in
    (Ok tt, mkParserState toks prev (errors st) (fresh_node st)).

(** [try: ...  except ParseError: synchronize(); return None]. *)
Definition recovering {A} (m : Parser A) : Parser (option A) :=
  fun st =>
    match m st with
    | (Ok a, st') => (Ok (Some a), st')
    | (Raised, st') => (synchronize ;; parser_ret None) st'
    | (Exhausted, st') => (Exhausted, st')
    end.

(** The precedence levels of the grammar, low to high. *)
Inductive Level : Type :=
| assignment | logic_or | logic_and | equality | comparison
| term | factor | unary | call | primary.

Section ExpressionLoops.
Variable operand : Parser Expr.

(** [while match(kinds): operator = previous(); right = operand();
    expr = make(operator, expr, right)]. *)
Fixpoint left_assoc (kinds : list TokenType) (make : Token -> Expr -> Expr -> Expr)
    (n : nat) (expr : Expr) : Parser Expr :=
  match n with
  | O => exhausted
  | S n' =>
      b <- match_any kinds ;;
      if b then
        operator <- get_previous ;;
        right <- operand ;;
        left_assoc kinds make n' (make operator expr right)
      else parser_ret expr
  end.

(** The arguments of a call, [operand] being [expression]; at most 255,
    one more is reported and parsing goes on. *)
Fixpoint arguments_loop (n : nat) (arguments : list Expr) : Parser (list Expr) :=
  match n with
  | O => exhausted
  | S n' =>
      (if (255 <=? length arguments)%nat
       then t <- peek ;; parse_error t "Can't have more than 255 arguments."
       else parser_ret tt) ;;
      e <- operand ;;
      b <- match_any [COMMA] ;;
      if b then arguments_loop n' (arguments ++ [e])
      else parser_ret (arguments ++ [e])%list
  end.

Definition finish_call (n : nat) (callee : Expr) : Parser Expr :=
  b <- check RIGHT_PAREN ;;
  arguments <- (if b then parser_ret [] else arguments_loop n []) ;;
  paren <- consume RIGHT_PAREN "Expect ')' after arguments." ;;
  parser_ret (Call callee paren arguments).

(** The postfix loop of [call]: [( args )] and [. name]. *)
Fixpoint call_loop (n : nat) (expr : Expr) : Parser Expr :=
  match n with
  | O => exhausted
  | S n' =>
      b <- match_any [LEFT_PAREN] ;;
      if b then
        expr' <- finish_call n' expr ;;
        call_loop n' expr'
      else
        b <- match_any [DOT] ;;
        if b then
          name <- consume IDENTIFIER "Expect property name after '.'." ;;
          call_loop n' (Get expr name)
        else parser_ret expr
  end.
End ExpressionLoops.

(** Modelled from the spec: the expression grammar, one case for each
    precedence level.  Messages are those of the reference Lox parser. *)
Fixpoint parse_expr (n : nat) (level : Level) {struct n} : Parser Expr :=
  match n with
  | O => exhausted
  | S n' =>
      match level with
      | assignment =>
          expr <- parse_expr n' logic_or ;;
          b <- match_any [EQUAL] ;;
          if b then
            equals <- get_previous ;;
            value <- parse_expr n' assignment ;;
            match expr with
            | Variable_ name _ =>
                node <- new_node ;; parser_ret (Assign name value node)
            | Get object name => parser_ret (Set_ object name value)
            | _ => parse_error equals "Invalid assignment target." ;; parser_ret expr
            end
          else parser_ret expr
      | logic_or =>
          expr <- parse_expr n' logic_and ;;
          left_assoc (parse_expr n' logic_and) [OR] Logical n' expr
      | logic_and =>
          expr <- parse_expr n' equality ;;
          left_assoc (parse_expr n' equality) [AND] Logical n' expr
      | equality =>
          expr <- parse_expr n' comparison ;;
          left_assoc (parse_expr n' comparison) [BANG_EQUAL; EQUAL_EQUAL] Binary n' expr
      | comparison =>
          expr <- parse_expr n' term ;;
          left_assoc (parse_expr n' term)
                     [GREATER; GREATER_EQUAL; LESS; LESS_EQUAL] Binary n' expr
      | term =>
          expr <- parse_expr n' factor ;;
          left_assoc (parse_expr n' factor) [MINUS; PLUS] Binary n' expr
      | factor =>
          expr <- parse_expr n' unary ;;
          left_assoc (parse_expr n' unary) [SLASH; STAR] Binary n' expr
      | unary =>
          b <- match_any [BANG; MINUS] ;;
          if b then
            operator <- get_previous ;;
            right <- parse_expr n' unary ;;
            parser_ret (Unary operator right)
          else parse_expr n' call
      | call =>
          expr <- parse_expr n' primary ;;
          call_loop (parse_expr n' assignment) n' expr
      | primary =>
          t <- peek ;;
          match kind t with
          | FALSE => advance ;; parser_ret (Literal (LitBool false))
          | TRUE => advance ;; parser_ret (Literal (LitBool true))
          | NIL => advance ;; parser_ret (Literal LitNil)
          | NUMBER | STRING =>
              advance ;;
              parser_ret (Literal (match literal t with Some v => v | None => LitNil end))
          | SUPER =>
              keyword <- advance ;;
              consume DOT "Expect '.' after 'super'." ;;
              method <- consume IDENTIFIER "Expect superclass method name." ;;
              node <- new_node ;;
              parser_ret (Super keyword method node)
          | THIS => advance ;; node <- new_node ;; parser_ret (This t node)
          | IDENTIFIER => advance ;; node <- new_node ;; parser_ret (Variable_ t node)
          | LEFT_PAREN =>
              advance ;;
              expr <- parse_expr n' assignment ;;
              consume RIGHT_PAREN "Expect ')' after expression." ;;
              parser_ret (Grouping expr)
          | _ => parse_error t "Expect expression." ;; raise_parse_error
          end
      end
  end.

(** [x] added to [xs] when the declaration gave a statement. *)
Definition cons_some {A} (x : option A) (xs : list A) : list A :=
  match x with
  | Some a => a :: xs
  | None => xs
  end.

Section Declarations.
(** [expression()], with the fuel of its caller. *)
Variable expression : Parser Expr.

Definition var_declaration : Parser Stmt :=
  name <- consume IDENTIFIER "Expect variable name." ;;
  b <- match_any [EQUAL] ;;
  initializer <- (if b then e <- expression ;; parser_ret (Some e) else parser_ret None) ;;
  consume SEMICOLON "Expect ';' after variable declaration." ;;
  parser_ret (Var name initializer).

Definition expression_statement : Parser Stmt :=
  expr <- expression ;;
  consume SEMICOLON "Expect ';' after expression." ;;
  parser_ret (Expression expr).

Definition print_statement : Parser Stmt :=
  value <- expression ;;
  consume SEMICOLON "Expect ';' after value." ;;
  parser_ret (Print value).

Definition return_statement : Parser Stmt :=
  keyword <- get_previous ;;
  b <- check SEMICOLON ;;
  value <- (if b then parser_ret None else e <- expression ;; parser_ret (Some e)) ;;
  consume SEMICOLON "Expect ';' after return value." ;;
  parser_ret (Return keyword value).

(** The parameters of a function; at most 255. *)
Fixpoint parameters_loop (n : nat) (params : list Token) : Parser (list Token) :=
  match n with
  | O => exhausted
  | S n' =>
      (if (255 <=? length params)%nat
       then t <- peek ;; parse_error t "Can't have more than 255 parameters."
       else parser_ret tt) ;;
      p <- consume IDENTIFIER "Expect parameter name." ;;
      b <- match_any [COMMA] ;;
      if b then parameters_loop n' (params ++ [p])
      else parser_ret (params ++ [p])%list
  end.
End Declarations.

(** Modelled from the spec: the statement grammar.  [for] becomes a block
    with the initializer, when there is one, and a [while] over the
    condition ([true] when absent) whose body is a block with the body
    and, when there is one, the increment. *)
Fixpoint declaration (n : nat) : Parser (option Stmt) :=
  match n with
  | O => exhausted
  | S n' =>
      recovering (
        b <- match_any [CLASS] ;;
        if b then class_declaration n'
        else
          b <- match_any [FUN] ;;
          if b then function n' "function"
          else
            b <- match_any [VAR] ;;
            if b then var_declaration (parse_expr n' assignment)
            else statement n')
  end

with statement (n : nat) : Parser Stmt :=
  match n with
  | O => exhausted
  | S n' =>
      let expression := parse_expr n' assignment in
      t <- peek ;;
      match kind t with
      | FOR =>
          advance ;;
          consume LEFT_PAREN "Expect '(' after 'for'." ;;
          b <- match_any [SEMICOLON] ;;
          initializer <-
            (if b then parser_ret None
             else
               b <- match_any [VAR] ;;
               if b then s <- var_declaration expression ;; parser_ret (Some s)
               else s <- expression_statement expression ;; parser_ret (Some s)) ;;
          b <- check SEMICOLON ;;
          condition <-
            (if b then parser_ret None else e <- expression ;; parser_ret (Some e)) ;;
          consume SEMICOLON "Expect ';' after loop condition." ;;
          b <- check RIGHT_PAREN ;;
          increment <-
            (if b then parser_ret None else e <- expression ;; parser_ret (Some e)) ;;
          consume RIGHT_PAREN "Expect ')' after for clauses." ;;
          body <- statement n' ;;
          let body :=
            Block (body :: match increment with
                           | Some e => [Expression e]
                           | None => []
                           end) in
          let condition :=
            match condition with
            | Some e => e
            | None => Literal (LitBool true)
            end in
          parser_ret (Block (cons_some initializer [While condition body]))
      | IF =>
          advance ;;
          consume LEFT_PAREN "Expect '(' after 'if'." ;;
          condition <- expression ;;
          consume RIGHT_PAREN "Expect ')' after if condition." ;;
          then_branch <- statement n' ;;
          b <- match_any [ELSE] ;;
          else_branch <-
            (if b then s <- statement n' ;; parser_ret (Some s) else parser_ret None) ;;
          parser_ret (If condition then_branch else_branch)
      | PRINT => advance ;; print_statement expression
      | RETURN => advance ;; return_statement expression
      | WHILE =>
          advance ;;
          consume LEFT_PAREN "Expect '(' after 'while'." ;;
          condition <- expression ;;
          consume RIGHT_PAREN "Expect ')' after condition." ;;
          body <- statement n' ;;
          parser_ret (While condition body)
      | LEFT_BRACE =>
          advance ;;
          statements <- block n' ;;
          parser_ret (Block statements)
      | _ => expression_statement expression
      end
  end

(** [block()]: declarations up to the closing brace. *)
with block (n : nat) : Parser (list Stmt) :=
  match n with
  | O => exhausted
  | S n' =>
      t <- peek ;;
      if TokenType_beq (kind t) RIGHT_BRACE || TokenType_beq (kind t) EOF then
        consume RIGHT_BRACE "Expect '}' after block." ;;
        parser_ret []
      else
        d <- declaration n' ;;
        rest <- block n' ;;
        parser_ret (cons_some d rest)
  end

(** [function(kind)]. *)
with function (n : nat) (what : string) : Parser Stmt :=
  match n with
  | O => exhausted
  | S n' =>
      name <- consume IDENTIFIER ("Expect " ++ what ++ " name.") ;;
      consume LEFT_PAREN ("Expect '(' after " ++ what ++ " name.") ;;
      b <- check RIGHT_PAREN ;;
      params <- (if b then parser_ret [] else parameters_loop n' []) ;;
      consume RIGHT_PAREN "Expect ')' after parameters." ;;
      consume LEFT_BRACE ("Expect '{' before " ++ what ++ " body.") ;;
      body <- block n' ;;
      parser_ret (Function name params body)
  end

(** The methods of a class body, up to the closing brace. *)
with methods_loop (n : nat) : Parser (list Stmt) :=
  match n with
  | O => exhausted
  | S n' =>
      t <- peek ;;
      if TokenType_beq (kind t) RIGHT_BRACE || TokenType_beq (kind t) EOF then
        parser_ret []
      else
        m <- function n' "method" ;;
        rest <- methods_loop n' ;;
        parser_ret (m :: rest)
  end

with class_declaration (n : nat) : Parser Stmt :=
  match n with
  | O => exhausted
  | S n' =>
      name <- consume IDENTIFIER "Expect class name." ;;
      b <- match_any [LESS] ;;
      superclass <-
        (if b then
           super_name <- consume IDENTIFIER "Expect superclass name." ;;
           node <- new_node ;;
           parser_ret (Some (super_name, node))
         else parser_ret None) ;;
      consume LEFT_BRACE "Expect '{' before class body." ;;
      methods <- methods_loop n' ;;
      consume RIGHT_BRACE "Expect '}' after class body." ;;
      parser_ret (Class name superclass methods)
  end.

(** [while not is_at_end(): statements.append(declaration())]. *)
Fixpoint program_loop (n : nat) : Parser (list Stmt) :=
  match n with
  | O => exhausted
  | S n' =>
      b <- is_at_end ;;
      if b then parser_ret []
      else
        d <- declaration n' ;;
        rest <- program_loop n' ;;
        parser_ret (cons_some d rest)
  end.

(** Fuel that covers every chain of calls the parser makes on [tokens]. *)
Definition parser_fuel (tokens : list Token) : nat := (64 + 16 * length tokens)%nat.

(** Modelled from the spec: [Parser(tokens).parse()] of [plox.parser],
    the accumulated statements and the errors reported.  Used-up fuel, which the choice of [parser_fuel] rules out,
    would show as no result. *)
Definition Lox_parse (tokens : list Token) : option Program * list Diagnostic :=
  match program_loop (parser_fuel tokens) (mkParserState tokens end_token [] 0) with
  | (Ok statements, st) => (Some statements, errors st)
  | (_, st) => (None, errors st)
  end.

(** A parsing method that only adds to the errors reported so far. *)
Definition error_growing {A} (m : Parser A) : Prop :=
  forall st, exists extra, errors (snd (m st)) = (errors st ++ extra)%list.

(** The six methods of the statement grammar, at one fuel, only add to
    the errors. *)
Definition statements_grow (n : nat) : Prop :=
  error_growing (declaration n)
  /\ error_growing (statement n)
  /\ error_growing (block n)
  /\ (forall what, error_growing (function n what))
  /\ error_growing (methods_loop n)
  /\ error_growing (class_declaration n).

(** The error the parser reports at a token that starts no expression. *)
Definition expect_expression (t : Token) : Diagnostic :=
  mkDiagnostic (line t) (" at '" ++ lexeme t ++ "'") "Expect expression.".


(** ** The resolver ([plox.resolver]) *)

Inductive FunctionType : Type :=
| FT_NONE | FT_FUNCTION | FT_INITIALIZER | FT_METHOD.

Inductive ClassType : Type :=
| CT_NONE | CT_CLASS | CT_SUBCLASS.

(** A scope maps a name to its [is_defined] flag. *)
Definition Scope : Type := list (string * bool).

(** The resolver's fields: the stack of scopes, innermost first, the kind
    of the enclosing function and class, the depths recorded in the
    interpreter so far, keyed by node, and the errors reported. *)
Record ResolverState : Type := mkResolverState {
  scopes : list Scope;
  current_function : FunctionType;
  current_class : ClassType;
  depths : list (nat * nat);
  resolver_errors : list Diagnostic
}.

Definition Resolving (A : Type) : Type := ResolverState -> A * ResolverState.

Definition resolving_ret {A} (a : A) : Resolving A := fun st => (a, st).

Definition resolving_bind {A B} (m : Resolving A) (k : A -> Resolving B) : Resolving B :=
  fun st => let (a, st') := m st in k a st'.

Declare Scope resolver_scope.
Notation "x <- m ;; k" := (resolving_bind m (fun x => k))
  (at level 61, m at next level, right associativity) : resolver_scope.
Notation "m ;; k" := (resolving_bind m (fun _ => k))
  (at level 61, right associativity) : resolver_scope.
Local Open Scope resolver_scope.

Definition get_resolver_state : Resolving ResolverState := fun st => (st, st).

Definition set_scopes (ss : list Scope) : Resolving unit :=
  fun st => (tt, mkResolverState ss (current_function st) (current_class st)
                                 (depths st) (resolver_errors st)).

Definition set_current_function (k : FunctionType) : Resolving unit :=
  fun st => (tt, mkResolverState (scopes st) k (current_class st)
                                 (depths st) (resolver_errors st)).

Definition set_current_class (k : ClassType) : Resolving unit :=
  fun st => (tt, mkResolverState (scopes st) (current_function st) k
                                 (depths st) (resolver_errors st)).

(** [error(token, message)] of the sink, at a token. *)
Definition resolve_error (t : Token) (message : string) : Resolving unit :=
  fun st => (tt, mkResolverState (scopes st) (current_function st) (current_class st)
                                 (depths st)
                                 (resolver_errors st
                                    ++ [mkDiagnostic (line t) (" at '" ++ lexeme t ++ "'")
                                                     message])).

(** [interpreter.resolve(expr, depth)]. *)
Definition record_depth (node depth : nat) : Resolving unit :=
  fun st => (tt, mkResolverState (scopes st) (current_function st) (current_class st)
                                 ((node, depth) :: depths st) (resolver_errors st)).

Fixpoint scope_get (name : string) (s : Scope) : option bool :=
  match s with
  | [] => None
  | (n, b) :: rest => if String.eqb n name then Some b else scope_get name rest
  end.

Fixpoint scope_put (name : string) (b : bool) (s : Scope) : Scope :=
  match s with
  | [] => [(name, b)]
  | (n, b') :: rest =>
      if String.eqb n name then (n, b) :: rest else (n, b') :: scope_put name b rest
  end.

Definition begin_scope : Resolving unit :=
  st <- get_resolver_state ;; set_scopes ([] :: scopes st).

Definition end_scope : Resolving unit :=
  st <- get_resolver_state ;; set_scopes (tl (scopes st)).

(** Puts [name] in the innermost scope, when there is one. *)
Definition put_innermost (name : string) (b : bool) : Resolving unit :=
  st <- get_resolver_state ;;
  match scopes st with
  | [] => resolving_ret tt
  | s :: rest => set_scopes (scope_put name b s :: rest)
  end.

Definition declare (name : Token) : Resolving unit :=
  st <- get_resolver_state ;;
  match scopes st with
  | [] => resolving_ret tt
  | s :: _ =>
      (match scope_get (lexeme name) s with
       | Some _ => resolve_error name "Already a variable with this name in this scope."
       | None => resolving_ret tt
       end) ;;
      put_innermost (lexeme name) false
  end.

Definition define (name : Token) : Resolving unit :=
  put_innermost (lexeme name) true.

(** The distance from the innermost scope to the first one with [name]. *)
Fixpoint find_depth (name : string) (ss : list Scope) (depth : nat) : option nat :=
  match ss with
  | [] => None
  | s :: rest =>
      match scope_get name s with
      | Some _ => Some depth
      | None => find_depth name rest (S depth)
      end
  end.

Definition resolve_local (node : nat) (name : Token) : Resolving unit :=
  st <- get_resolver_state ;;
  match find_depth (lexeme name) (scopes st) 0 with
  | Some depth => record_depth node depth
  | None => resolving_ret tt
  end.

Section Traversal.
Context {A : Type} (visit : A -> Resolving unit).

Fixpoint resolve_each (xs : list A) : Resolving unit :=
  match xs with
  | [] => resolving_ret tt
  | x :: rest => visit x ;; resolve_each rest
  end.
End Traversal.

(** [visit_variable]: a variable read, also the superclass of a class. *)
Definition resolve_variable (name : Token) (node : nat) : Resolving unit :=
  st <- get_resolver_state ;;
  (match scopes st with
   | s :: _ =>
       match scope_get (lexeme name) s with
       | Some false =>
           resolve_error name "Can't read local variable in its own initializer."
       | _ => resolving_ret tt
       end
   | [] => resolving_ret tt
   end) ;;
  resolve_local node name.

(** Modelled from the spec: resolution of an expression. *)
Fixpoint resolve_expr (e : Expr) : Resolving unit :=
  match e with
  | Literal _ => resolving_ret tt
  | Grouping e1 => resolve_expr e1
  | Unary _ r => resolve_expr r
  | Binary _ l r => resolve_expr l ;; resolve_expr r
  | Logical _ l r => resolve_expr l ;; resolve_expr r
  | Variable_ name node => resolve_variable name node
  | Assign name value node => resolve_expr value ;; resolve_local node name
  | Call callee _ arguments => resolve_expr callee ;; resolve_each resolve_expr arguments
  | Get object _ => resolve_expr object
  | Set_ object _ value => resolve_expr value ;; resolve_expr object
  | This keyword node =>
      st <- get_resolver_state ;;
      match current_class st with
      | CT_NONE => resolve_error keyword "Can't use 'this' outside of a class."
      | _ => resolve_local node keyword
      end
  | Super keyword _ node =>
      st <- get_resolver_state ;;
      (match current_class st with
       | CT_NONE => resolve_error keyword "Can't use 'super' outside of a class."
       | CT_CLASS =>
           resolve_error keyword "Can't use 'super' in a class with no superclass."
       | CT_SUBCLASS => resolving_ret tt
       end) ;;
      resolve_local node keyword
  end.

Definition resolve_option (e : option Expr) : Resolving unit :=
  match e with
  | Some e => resolve_expr e
  | None => resolving_ret tt
  end.

Section Functions.
Variable resolve_stmt : Stmt -> Resolving unit.

(** [resolve_function(function, kind)]. *)
Definition resolve_function (params : list Token) (body : list Stmt)
    (k : FunctionType) : Resolving unit :=
  st <- get_resolver_state ;;
  let enclosing_function := current_function st in
  set_current_function k ;;
  begin_scope ;;
  resolve_each (fun param => declare param ;; define param) params ;;
  resolve_each resolve_stmt body ;;
  end_scope ;;
  set_current_function enclosing_function.
End Functions.

(** Modelled from the spec: resolution of a statement.  The methods of a
    class are [Function] nodes; another node in their place is left
    alone. *)
Fixpoint resolve_stmt (s : Stmt) : Resolving unit :=
  match s with
  | Expression e => resolve_expr e
  | Print e => resolve_expr e
  | Var name initializer =>
      declare name ;;
      resolve_option initializer ;;
      define name
  | Block statements =>
      begin_scope ;;
      resolve_each resolve_stmt statements ;;
      end_scope
  | If condition then_branch else_branch =>
      resolve_expr condition ;;
      resolve_stmt then_branch ;;
      match else_branch with
      | Some else_branch => resolve_stmt else_branch
      | None => resolving_ret tt
      end
  | While condition body => resolve_expr condition ;; resolve_stmt body
  | Function name params body =>
      declare name ;;
      define name ;;
      resolve_function resolve_stmt params body FT_FUNCTION
  | Return keyword value =>
      st <- get_resolver_state ;;
      (match current_function st with
       | FT_NONE => resolve_error keyword "Can't return from top-level code."
       | _ => resolving_ret tt
       end) ;;
      match value with
      | Some value =>
          (match current_function st with
           | FT_INITIALIZER =>
               resolve_error keyword "Can't return a value from an initializer."
           | _ => resolving_ret tt
           end) ;;
          resolve_expr value
      | None => resolving_ret tt
      end
  | Class name superclass methods =>
      st <- get_resolver_state ;;
      let enclosing_class := current_class st in
      set_current_class CT_CLASS ;;
      declare name ;;
      define name ;;
      (match superclass with
       | Some (super_name, node) =>
           (if String.eqb (lexeme name) (lexeme super_name)
            then resolve_error super_name "A class can't inherit from itself."
            else resolving_ret tt) ;;
           set_current_class CT_SUBCLASS ;;
           resolve_variable super_name node ;;
           begin_scope ;;
           put_innermost "super" true
       | None => resolving_ret tt
       end) ;;
      begin_scope ;;
      put_innermost "this" true ;;
      resolve_each
        (fun method =>
           match method with
           | Function method_name params body =>
               resolve_function resolve_stmt params body
                 (if String.eqb (lexeme method_name) "init"
                  then FT_INITIALIZER else FT_METHOD)
           | _ => resolving_ret tt
           end) methods ;;
      end_scope ;;
      (match superclass with
       | Some _ => end_scope
       | None => resolving_ret tt
       end) ;;
      set_current_class enclosing_class
  end.

(** Modelled from the spec: [Resolver(interpreter).resolve_list(statements)]
    of [plox.resolver], from no scope at all: the depths it records and
    the errors it reports. *)
Definition resolve_program (statements : Program) : list (nat * nat) * list Diagnostic :=
  let st := snd (resolve_each resolve_stmt statements
                   (mkResolverState [] FT_NONE CT_NONE [] [])) in
  (depths st, resolver_errors st).

(** ** The interpreter ([plox.interpret], [plox.environment]) *)

(** Modelled from the spec: the runtime values.  Functions, classes and
    instances are objects with an identity: a value holds the index of
    the object in the interpreter's store. *)
Inductive Value : Type :=
| VNil
| VBool (b : bool)
| VNum (d : double)
| VStr (s : string)
| VNative
| VFunction (f : nat)
| VClass (c : nat)
| VInstance (i : nat).

(** Modelled from the spec: an environment frame, its bindings in the
    order of declaration and the frame that encloses it. *)
Record Environment : Type := mkEnvironment {
  values : list (string * Value);
  enclosing : option nat
}.

(** Modelled from the spec: a user function. *)
Record LoxFunction : Type := mkLoxFunction {
  fn_name : Token;
  fn_params : list Token;
  fn_body : list Stmt;
  closure : nat;
  is_initializer : bool
}.

(** Modelled from the spec: a class, its methods keyed by name. *)
Record LoxClass : Type := mkLoxClass {
  class_name : string;
  class_superclass : option nat;
  class_methods : list (string * nat)
}.

(** Modelled from the spec: an instance, its class and its property map. *)
Record LoxInstance : Type := mkLoxInstance {
  instance_class : nat;
  fields : list (string * Value)
}.

(** Modelled from the spec: what an interpreter holds.  Frame 0 of
    [environments] is the global environment; [locals] is the depth map
    of the resolver; [output] is what the program printed; [clock_calls]
    counts the calls of the native [clock]. *)
Record LoxInterpreter : Type := mkLoxInterpreter {
  environments : list Environment;
  functions : list LoxFunction;
  classes : list LoxClass;
  instances : list LoxInstance;
  locals : list (nat * nat);
  output : string;
  clock_calls : nat
}.

(** How an evaluation ends: with a value, with a runtime error that
    unwinds it, with a [return] that unwinds to the call, or, in the
    model only, with its fuel used up. *)
Inductive Completion (A : Type) : Type :=
| Normal (a : A)
| Throw (e : LoxRuntimeError)
| Returning (v : Value)
| Unfinished.

Arguments Normal {A} a.
Arguments Throw {A} e.
Arguments Returning {A} v.
Arguments Unfinished {A}.

Definition Exec (A : Type) : Type := LoxInterpreter -> Completion A * LoxInterpreter.

Definition exec_ret {A} (a : A) : Exec A := fun st => (Normal a, st).

Definition exec_bind {A B} (m : Exec A) (k : A -> Exec B) : Exec B :=
  fun st =>
    match m st with
    | (Normal a, st') => k a st'
    | (Throw e, st') => (Throw e, st')
    | (Returning v, st') => (Returning v, st')
    | (Unfinished, st') => (Unfinished, st')
    end.

Declare Scope exec_scope.
Notation "x <- m ;; k" := (exec_bind m (fun x => k))
  (at level 61, m at next level, right associativity) : exec_scope.
Notation "m ;; k" := (exec_bind m (fun _ => k))
  (at level 61, right associativity) : exec_scope.
Local Open Scope exec_scope.

Definition throw {A} (t : Token) (message : string) : Exec A :=
  fun st => (Throw (mkRuntimeError t message), st).

Definition returning {A} (v : Value) : Exec A := fun st => (Returning v, st).

Definition unfinished {A} : Exec A := fun st => (Unfinished, st).

Definition get_interpreter : Exec LoxInterpreter := fun st => (Normal st, st).

(** *** The store *)

Fixpoint replace_nth {A} (i : nat) (x : A) (xs : list A) : list A :=
  match i, xs with
  | _, [] => []
  | O, _ :: rest => x :: rest
  | S i', y :: rest => y :: replace_nth i' x rest
  end.

Fixpoint assoc_get {A} (name : string) (m : list (string * A)) : option A :=
  match m with
  | [] => None
  | (n, v) :: rest => if String.eqb n name then Some v else assoc_get name rest
  end.

Fixpoint assoc_put {A} (name : string) (v : A) (m : list (string * A)) : list (string * A) :=
  match m with
  | [] => [(name, v)]
  | (n, v') :: rest =>
      if String.eqb n name then (n, v) :: rest else (n, v') :: assoc_put name v rest
  end.

Definition set_environments (envs : list Environment) : Exec unit :=
  fun st => (Normal tt, mkLoxInterpreter envs (functions st) (classes st) (instances st)
                                         (locals st) (output st) (clock_calls st)).

(** [Environment(enclosing)]. *)
Definition new_environment (parent : nat) : Exec nat :=
  st <- get_interpreter ;;
  set_environments (environments st ++ [mkEnvironment [] (Some parent)]) ;;
  exec_ret (length (environments st)).

Definition new_function (f : LoxFunction) : Exec nat :=
  fun st => (Normal (length (functions st)),
             mkLoxInterpreter (environments st) (functions st ++ [f]) (classes st)
                              (instances st) (locals st) (output st) (clock_calls st)).

Definition new_class (c : LoxClass) : Exec nat :=
  fun st => (Normal (length (classes st)),
             mkLoxInterpreter (environments st) (functions st) (classes st ++ [c])
                              (instances st) (locals st) (output st) (clock_calls st)).

Definition new_instance (c : nat) : Exec nat :=
  fun st => (Normal (length (instances st)),
             mkLoxInterpreter (environments st) (functions st) (classes st)
                              (instances st ++ [mkLoxInstance c []])
                              (locals st) (output st) (clock_calls st)).

Definition set_field (i : nat) (name : string) (v : Value) : Exec unit :=
  fun st =>
    match nth_error (instances st) i with
    | Some inst =>
        (Normal tt,
         mkLoxInterpreter (environments st) (functions st) (classes st)
           (replace_nth i (mkLoxInstance (instance_class inst)
                                         (assoc_put name v (fields inst)))
                        (instances st))
           (locals st) (output st) (clock_calls st))
    | None => (Normal tt, st)
    end.

Definition write (text : string) : Exec unit :=
  fun st => (Normal tt,
             mkLoxInterpreter (environments st) (functions st) (classes st) (instances st)
                              (locals st) (output st ++ text) (clock_calls st)).

(** *** Environments *)

(** [define(name, value)]: inserts or overwrites in the frame [env]. *)
Definition env_define (env : nat) (name : string) (v : Value) : Exec unit :=
  st <- get_interpreter ;;
  match nth_error (environments st) env with
  | Some frame =>
      set_environments
        (replace_nth env (mkEnvironment (assoc_put name v (values frame)) (enclosing frame))
                     (environments st))
  | None => exec_ret tt
  end.

(** The frame that holds [name], searching the chain from [env]; the
    chain is no longer than the store. *)
Fixpoint env_find (fuel : nat) (envs : list Environment) (env : nat) (name : string)
  : option nat :=
  match fuel with
  | O => None
  | S fuel' =>
      match nth_error envs env with
      | Some frame =>
          match assoc_get name (values frame) with
          | Some _ => Some env
          | None =>
              match enclosing frame with
              | Some parent => env_find fuel' envs parent name
              | None => None
              end
          end
      | None => None
      end
  end.

Definition frame_get (envs : list Environment) (env : nat) (name : string) : option Value :=
  match nth_error envs env with
  | Some frame => assoc_get name (values frame)
  | None => None
  end.

(** [get(name)]. *)
Definition env_get (env : nat) (name : Token) : Exec Value :=
  st <- get_interpreter ;;
  let envs := environments st in
  match env_find (S (length envs)) envs env (lexeme name) with
  | Some holder =>
      match frame_get envs holder (lexeme name) with
      | Some v => exec_ret v
      | None => throw name ("Undefined variable '" ++ lexeme name ++ "'.")
      end
  | None => throw name ("Undefined variable '" ++ lexeme name ++ "'.")
  end.

(** [assign(name, value)]: no implicit creation. *)
Definition env_assign (env : nat) (name : Token) (v : Value) : Exec unit :=
  st <- get_interpreter ;;
  let envs := environments st in
  match env_find (S (length envs)) envs env (lexeme name) with
  | Some holder => env_define holder (lexeme name) v
  | None => throw name ("Undefined variable '" ++ lexeme name ++ "'.")
  end.

(** [ancestor(depth)]: skips exactly [depth] enclosing frames. *)
Fixpoint ancestor (envs : list Environment) (env depth : nat) : nat :=
  match depth with
  | O => env
  | S depth' =>
      match nth_error envs env with
      | Some frame =>
          match enclosing frame with
          | Some parent => ancestor envs parent depth'
          | None => env
          end
      | None => env
      end
  end.

(** [get_at(depth, name)]: the binding of that frame, without further
    search; resolution makes sure it is there. *)
Definition env_get_at (env depth : nat) (name : string) : Exec Value :=
  st <- get_interpreter ;;
  match frame_get (environments st) (ancestor (environments st) env depth) name with
  | Some v => exec_ret v
  | None => exec_ret VNil
  end.

(** [assign_at(depth, name, value)]. *)
Definition env_assign_at (env depth : nat) (name : string) (v : Value) : Exec unit :=
  st <- get_interpreter ;;
  env_define (ancestor (environments st) env depth) name v.

(** The node's depth in the map of the resolver. *)
Fixpoint depth_of (node : nat) (m : list (nat * nat)) : option nat :=
  match m with
  | [] => None
  | (n, d) :: rest => if Nat.eqb n node then Some d else depth_of node rest
  end.

(** [lookup_variable(name, expr)]: by depth when the node was resolved,
    in the globals otherwise. *)
Definition lookup_variable (env : nat) (name : Token) (node : nat) : Exec Value :=
  st <- get_interpreter ;;
  match depth_of node (locals st) with
  | Some depth => env_get_at env depth (lexeme name)
  | None => env_get 0 name
  end.

(** *** Values *)

(** [false] and [nil] are falsy, everything else is truthy. *)
Definition is_truthy (v : Value) : bool :=
  match v with
  | VNil => false
  | VBool b => b
  | _ => true
  end.

Definition is_equal (a b : Value) : bool :=
  match a, b with
  | VNil, VNil => true
  | VBool x, VBool y => Bool.eqb x y
  | VNum x, VNum y => SFeqb x y
  | VStr x, VStr y => String.eqb x y
  | VNative, VNative => true
  | VFunction x, VFunction y => Nat.eqb x y
  | VClass x, VClass y => Nat.eqb x y
  | VInstance x, VInstance y => Nat.eqb x y
  | _, _ => false
  end.

(** [s] without the suffix [".0"], when it has it. *)
Fixpoint strip_point_zero (s : string) : string :=
  match s with
  | String "." (String "0" EmptyString) => EmptyString
  | String c rest => String c (strip_point_zero rest)
  | EmptyString => EmptyString
  end.

Section Stringify.
Variable host_float_str : double -> string.

(** The canonical text of a value, as [print] writes it. *)
Definition stringify (st : LoxInterpreter) (v : Value) : string :=
  match v with
  | VNil => "nil"
  | VBool true => "true"
  | VBool false => "false"
  | VNum d => strip_point_zero (host_float_str d)
  | VStr s => s
  | VNative => "<native fn>"
  | VFunction f =>
      match nth_error (functions st) f with
      | Some fn => "<fn " ++ lexeme (fn_name fn) ++ ">"
      | None => "<fn>"
      end
  | VClass c =>
      match nth_error (classes st) c with
      | Some cl => class_name cl
      | None => EmptyString
      end
  | VInstance i =>
      match nth_error (instances st) i with
      | Some inst =>
          match nth_error (classes st) (instance_class inst) with
          | Some cl => class_name cl ++ " instance"
          | None => " instance"
          end
      | None => " instance"
      end
  end.
End Stringify.

(** *** Classes *)

(** [find_method(name)]: the class itself, then its superclasses. *)
Fixpoint find_method (fuel : nat) (cls : list LoxClass) (c : nat) (name : string)
  : option nat :=
  match fuel with
  | O => None
  | S fuel' =>
      match nth_error cls c with
      | Some cl =>
          match assoc_get name (class_methods cl) with
          | Some f => Some f
          | None =>
              match class_superclass cl with
              | Some parent => find_method fuel' cls parent name
              | None => None
              end
          end
      | None => None
      end
  end.

Definition class_find_method (c : nat) (name : string) : Exec (option nat) :=
  st <- get_interpreter ;;
  exec_ret (find_method (S (length (classes st))) (classes st) c name).

(** [bind(instance)]: the method with a new frame that binds [this]. *)
Definition bind_method (f : nat) (instance : Value) : Exec Value :=
  st <- get_interpreter ;;
  match nth_error (functions st) f with
  | Some fn =>
      env <- new_environment (closure fn) ;;
      env_define env "this" instance ;;
      f' <- new_function (mkLoxFunction (fn_name fn) (fn_params fn) (fn_body fn) env
                                        (is_initializer fn)) ;;
      exec_ret (VFunction f')
  | None => exec_ret VNil
  end.

(** *** Evaluation *)

Definition value_of_literal (v : LitValue) : Value :=
  match v with
  | LitNil => VNil
  | LitBool b => VBool b
  | LitNum d => VNum d
  | LitStr s => VStr s
  end.

Definition is_callable (v : Value) : bool :=
  match v with
  | VNative | VFunction _ | VClass _ => true
  | _ => false
  end.

Section Sequences.
Context {A B : Type} (visit : A -> Exec B).

(** The visits of [xs] from left to right, with their results. *)
Fixpoint visit_each (xs : list A) : Exec (list B) :=
  match xs with
  | [] => exec_ret []
  | x :: rest =>
      b <- visit x ;;
      bs <- visit_each rest ;;
      exec_ret (b :: bs)
  end.
End Sequences.

(** The operators on two values. *)
Definition binary_operation (operator : Token) (a b : Value) : Exec Value :=
  let numbers (f : double -> double -> Value) : Exec Value :=
    match a, b with
    | VNum x, VNum y => exec_ret (f x y)
    | _, _ => throw operator "Operands must be numbers."
    end in
  match kind operator with
  | MINUS => numbers (fun x y => VNum (double_sub x y))
  | SLASH => numbers (fun x y => VNum (double_div x y))
  | STAR => numbers (fun x y => VNum (double_mul x y))
  | PLUS =>
      match a, b with
      | VNum x, VNum y => exec_ret (VNum (double_add x y))
      | VStr x, VStr y => exec_ret (VStr (x ++ y))
      | _, _ => throw operator "Operands must be two numbers or two strings."
      end
  | GREATER => numbers (fun x y => VBool (SFltb y x))
  | GREATER_EQUAL => numbers (fun x y => VBool (SFleb y x))
  | LESS => numbers (fun x y => VBool (SFltb x y))
  | LESS_EQUAL => numbers (fun x y => VBool (SFleb x y))
  | BANG_EQUAL => exec_ret (VBool (negb (is_equal a b)))
  | EQUAL_EQUAL => exec_ret (VBool (is_equal a b))
  | _ => exec_ret VNil
  end.

(** A property read on an instance: the property map, then the methods
    of the class chain, bound to the instance. *)
Definition instance_get (i : nat) (name : Token) : Exec Value :=
  st <- get_interpreter ;;
  match nth_error (instances st) i with
  | Some inst =>
      match assoc_get (lexeme name) (fields inst) with
      | Some v => exec_ret v
      | None =>
          m <- class_find_method (instance_class inst) (lexeme name) ;;
          match m with
          | Some f => bind_method f (VInstance i)
          | None => throw name ("Undefined property '" ++ lexeme name ++ "'.")
          end
      end
  | None => throw name ("Undefined property '" ++ lexeme name ++ "'.")
  end.

Section Calls.
(** The seconds since the epoch that the [k]-th call of [clock] reads. *)
Variable clock : nat -> double.

(** The body of a function run in a frame, [execute_block(body, env)]. *)
Variable execute_block : list Stmt -> nat -> Exec unit.

Fixpoint bind_parameters (env : nat) (params : list Token) (arguments : list Value)
  : Exec unit :=
  match params, arguments with
  | p :: params', a :: arguments' =>
      env_define env (lexeme p) a ;;
      bind_parameters env params' arguments'
  | _, _ => exec_ret tt
  end.

(** The call of a user function: a new frame enclosed by the closure,
    the parameters bound by position, the body run; an initializer
    yields the bound [this] whatever it returns. *)
Definition call_function (f : nat) (arguments : list Value) : Exec Value :=
  st <- get_interpreter ;;
  match nth_error (functions st) f with
  | None => exec_ret VNil
  | Some fn =>
      env <- new_environment (closure fn) ;;
      bind_parameters env (fn_params fn) arguments ;;
      fun st' =>
        match execute_block (fn_body fn) env st' with
        | (Normal _, st'') =>
            (if is_initializer fn then env_get_at (closure fn) 0 "this"
             else exec_ret VNil) st''
        | (Returning v, st'') =>
            (if is_initializer fn then env_get_at (closure fn) 0 "this"
             else exec_ret v) st''
        | (Throw e, st'') => (Throw e, st'')
        | (Unfinished, st'') => (Unfinished, st'')
        end
  end.

Definition read_clock : Exec Value :=
  fun st =>
    (Normal (VNum (clock (clock_calls st))),
     mkLoxInterpreter (environments st) (functions st) (classes st) (instances st)
                      (locals st) (output st) (S (clock_calls st))).

(** The number of arguments a callable takes. *)
Definition arity (st : LoxInterpreter) (callee : Value) : nat :=
  match callee with
  | VFunction f =>
      match nth_error (functions st) f with
      | Some fn => length (fn_params fn)
      | None => 0
      end
  | VClass c =>
      match find_method (S (length (classes st))) (classes st) c "init" with
      | Some f =>
          match nth_error (functions st) f with
          | Some fn => length (fn_params fn)
          | None => 0
          end
      | None => 0
      end
  | _ => O
  end.

(** The call of a callable on evaluated arguments. *)
Definition call_value (paren : Token) (callee : Value) (arguments : list Value)
  : Exec Value :=
  st <- get_interpreter ;;
  if negb (Nat.eqb (length arguments) (arity st callee)) then
    throw paren ("Expected " ++ nat_str (arity st callee) ++ " arguments but got "
                   ++ nat_str (length arguments) ++ ".")
  else
    match callee with
    | VFunction f => call_function f arguments
    | VNative => read_clock
    | VClass c =>
        i <- new_instance c ;;
        m <- class_find_method c "init" ;;
        (match m with
         | Some f =>
             bound <- bind_method f (VInstance i) ;;
             match bound with
             | VFunction f' => call_function f' arguments ;; exec_ret tt
             | _ => exec_ret tt
             end
         | None => exec_ret tt
         end) ;;
        exec_ret (VInstance i)
    | _ => throw paren "Can only call functions and classes."
    end.
End Calls.

Section Evaluation.
Variable host_float_str : double -> string.
Variable clock : nat -> double.

(** Modelled from the spec: evaluation of an expression and execution of
    a statement in the frame [env].  A Lox program may run for ever; the
    model runs it for [n] nested steps. *)
Fixpoint evaluate (n : nat) (e : Expr) (env : nat) {struct n} : Exec Value :=
  match n with
  | O => unfinished
  | S n' =>
      match e with
      | Literal v => exec_ret (value_of_literal v)
      | Grouping e1 => evaluate n' e1 env
      | Unary operator operand =>
          v <- evaluate n' operand env ;;
          match kind operator with
          | MINUS =>
              match v with
              | VNum d => exec_ret (VNum (SFopp d))
              | _ => throw operator "Operand must be a number."
              end
          | BANG => exec_ret (VBool (negb (is_truthy v)))
          | _ => exec_ret VNil
          end
      | Binary operator lhs rhs =>
          a <- evaluate n' lhs env ;;
          b <- evaluate n' rhs env ;;
          binary_operation operator a b
      | Logical operator lhs rhs =>
          a <- evaluate n' lhs env ;;
          match kind operator with
          | OR => if is_truthy a then exec_ret a else evaluate n' rhs env
          | _ => if is_truthy a then evaluate n' rhs env else exec_ret a
          end
      | Variable_ name node => lookup_variable env name node
      | Assign name value node =>
          v <- evaluate n' value env ;;
          st <- get_interpreter ;;
          (match depth_of node (locals st) with
           | Some depth => env_assign_at env depth (lexeme name) v
           | None => env_assign 0 name v
           end) ;;
          exec_ret v
      | Call callee paren arguments =>
          f <- evaluate n' callee env ;;
          if is_callable f then
            args <- visit_each (fun a => evaluate n' a env) arguments ;;
            call_value clock
              (fun body frame => visit_each (fun s => execute n' s frame) body ;; exec_ret tt)
              paren f args
          else throw paren "Can only call functions and classes."
      | Get object name =>
          o <- evaluate n' object env ;;
          match o with
          | VInstance i => instance_get i name
          | _ => throw name "Only instances have properties."
          end
      | Set_ object name value =>
          o <- evaluate n' object env ;;
          match o with
          | VInstance i =>
              v <- evaluate n' value env ;;
              set_field i (lexeme name) v ;;
              exec_ret v
          | _ => throw name "Only instances have fields."
          end
      | This keyword node => lookup_variable env keyword node
      | Super keyword method node =>
          st <- get_interpreter ;;
          match depth_of node (locals st) with
          | Some depth =>
              superclass <- env_get_at env depth "super" ;;
              object <- env_get_at env (depth - 1) "this" ;;
              match superclass with
              | VClass c =>
                  m <- class_find_method c (lexeme method) ;;
                  match m with
                  | Some f => bind_method f object
                  | None =>
                      throw method ("Undefined property '" ++ lexeme method ++ "'.")
                  end
              | _ => throw method ("Undefined property '" ++ lexeme method ++ "'.")
              end
          | None => throw method ("Undefined property '" ++ lexeme method ++ "'.")
          end
      end
  end

with execute (n : nat) (s : Stmt) (env : nat) {struct n} : Exec unit :=
  match n with
  | O => unfinished
  | S n' =>
      match s with
      | Expression e => evaluate n' e env ;; exec_ret tt
      | Print e =>
          v <- evaluate n' e env ;;
          st <- get_interpreter ;;
          write (stringify host_float_str st v ++ nl)
      | Var name initializer =>
          v <- (match initializer with
                | Some e => evaluate n' e env
                | None => exec_ret VNil
                end) ;;
          env_define env (lexeme name) v
      | Block statements =>
          frame <- new_environment env ;;
          visit_each (fun s' => execute n' s' frame) statements ;;
          exec_ret tt
      | If condition then_branch else_branch =>
          c <- evaluate n' condition env ;;
          if is_truthy c then execute n' then_branch env
          else
            match else_branch with
            | Some else_branch => execute n' else_branch env
            | None => exec_ret tt
            end
      | While condition body =>
          c <- evaluate n' condition env ;;
          if is_truthy c then
            execute n' body env ;;
            execute n' (While condition body) env
          else exec_ret tt
      | Function name params body =>
          f <- new_function (mkLoxFunction name params body env false) ;;
          env_define env (lexeme name) (VFunction f)
      | Return _ value =>
          v <- (match value with
                | Some e => evaluate n' e env
                | None => exec_ret VNil
                end) ;;
          returning v
      | Class name superclass methods =>
          parent <-
            (match superclass with
             | Some (super_name, node) =>
                 v <- lookup_variable env super_name node ;;
                 match v with
                 | VClass c => exec_ret (Some c)
                 | _ => throw super_name "Superclass must be a class."
                 end
             | None => exec_ret None
             end) ;;
          env_define env (lexeme name) VNil ;;
          frame <-
            (match parent with
             | Some c =>
                 frame <- new_environment env ;;
                 env_define frame "super" (VClass c) ;;
                 exec_ret frame
             | None => exec_ret env
             end) ;;
          table <-
            (fix declare_methods (ms : list Stmt) (table : list (string * nat))
               : Exec (list (string * nat)) :=
               match ms with
               | [] => exec_ret table
               | Function method_name params body :: rest =>
                   f <- new_function
                          (mkLoxFunction method_name params body frame
                                         (String.eqb (lexeme method_name) "init")) ;;
                   declare_methods rest (assoc_put (lexeme method_name) f table)
               | _ :: rest => declare_methods rest table
               end) methods [] ;;
          c <- new_class (mkLoxClass (lexeme name) parent table) ;;
          env_assign env name (VClass c)
      end
  end.

(** Modelled from the spec: [Interpreter()] of [plox.interpret]; the
    globals hold the native [clock]. *)
Definition Lox_interpreter_new : LoxInterpreter :=
  mkLoxInterpreter [mkEnvironment [("clock", VNative)] None] [] [] [] [] EmptyString 0.

(** Modelled from the spec: [Resolver(interpreter).resolve_list(statements)],
    which leaves the depths in the interpreter. *)
Definition Lox_resolve_list (statements : Program) (interpreter : LoxInterpreter)
  : LoxInterpreter * list Diagnostic :=
  let (found, reported) := resolve_program statements in
  (mkLoxInterpreter (environments interpreter) (functions interpreter)
                    (classes interpreter) (instances interpreter)
                    (found ++ locals interpreter) (output interpreter)
                    (clock_calls interpreter),
   reported).

(** Modelled from the spec: [interpreter.visit_statements(statements)],
    the statements in order, in the globals; a runtime error ends the run
    and goes to the sink. *)
Definition Lox_visit_statements (fuel : nat) (statements : Program)
    (interpreter : LoxInterpreter) : string * Ending :=
  match visit_each (fun s => execute fuel s 0) statements interpreter with
  | (Normal _, st) => (output st, Completed)
  | (Returning _, st) => (output st, Completed)
  | (Throw e, st) => (output st, Failed e)
  | (Unfinished, st) => (output st, Diverges)
  end.
End Evaluation.

(** ** The package at hand *)

(** Modelled from the spec: scanner, parser, resolver and interpreter as
    the specification describes them.  [token_str] stands for the
    [__str__] of [Token], [clock] for the readings of the native clock,
    and [fuel] bounds the steps of a Lox program in the model. *)
Definition Lox (token_str : Token -> string) (clock : nat -> double) (fuel : nat)
  : Package :=
  mkPackage token_str python_float_str
            Lox_scan_tokens Lox_parse
            LoxInterpreter Lox_interpreter_new
            Lox_resolve_list
            (Lox_visit_statements python_float_str clock fuel).

(** ** A package to run *)

(** Source text through the scanner and the parser: the program and the
    errors of both. *)
Definition parse_source (source : string) : option Program * list Diagnostic :=
  let (tokens, scan_errors) := Lox_scan_tokens source in
  let (result, parse_errors) := Lox_parse tokens in
  (result, (scan_errors ++ parse_errors)%list).

(** The rendering of [program] by the printer, read back as Lox source. *)
Definition reparse (token_str : Token -> string) (program : Program)
  : option Program * list Diagnostic :=
  parse_source (LispPrinter_print_program token_str python_float_str program).

(** The sources at hand and the specification do not say how a [Token]
    prints.  The programs run below have no unary operator, the one place
    where the printer asks, so any text does for them. *)
Definition unknown_token_str (t : Token) : string := "<Token>".

(** The package with the clock at the epoch and fuel for a thousand
    nested steps of the Lox program. *)
Definition plox : Package :=
  Lox unknown_token_str (fun _ => S754_zero false) 1000.

(** What the interpreter of [plox] writes for [source], when [source]
    parses without error. *)
Definition interpreter_output (source : string) : string :=
  match parse_source source with
  | (Some program, []) => execution_output (pkg := plox) program
  | _ => EmptyString
  end.

(** The program of the first end-to-end scenario, its tokens and its
    syntax tree. *)
Definition sum_source : string := "print 1 + 2 * 3;".

Definition sum_tokens : list Token := fst (Lox_scan_tokens sum_source).

Definition sum_program : Program :=
  match fst (Lox_parse sum_tokens) with
  | Some program => program
  | None => []
  end.

(** Three lines of input. *)
Definition var_line : string := "var a = 1;" ++ nl.
Definition read_line : string := "print a;" ++ nl.
Definition one_line : string := "print 1;" ++ nl.

(** A session of two lines, the second of which reads what the first
    defines, and the world after its first line. *)
Definition session : string := var_line ++ read_line.

(** The same two lines as the text of a file, scanned and parsed. *)
Definition session_tokens : list Token := fst (Lox_scan_tokens session).

Definition session_program : Program :=
  match fst (Lox_parse session_tokens) with
  | Some program => program
  | None => []
  end.

Definition after_first_line : World :=
  snd (repl_entries (pkg := plox) [var_line] (start [])).

(** A session whose first line ends in a runtime error, and the world
    after that line. *)
Definition failing_session : string := read_line ++ one_line.

Definition after_failing_line : World :=
  snd (repl_entries (pkg := plox) [read_line] (start [])).

(** ** Further notions about the printer and the prompt loop *)

(** A child of a node at indent [indent], as a list comprehension of the
    printer lays it out: rendered four columns deeper, behind as many
    spaces. *)
Definition laid_out {A} (accept : A -> Printer string) (indent : Z) (x : A) : string :=
  str_mul " " (indent + 4) ++ fst (accept x (indent + 4)).

(** A token reduced to its lexeme. *)
Definition lexeme_only (t : Token) : Token := mkToken EOF (lexeme t) None 0.

(** An expression with everything removed that is not text of its
    rendering: lines, kinds and literals of name and operator tokens,
    the parenthesis of a call, the keyword of [this], node numbers.  The
    operator of a [Unary] stays, since the printer asks for its string
    form. *)
Fixpoint strip_expr (e : Expr) : Expr :=
  match e with
  | Literal v => Literal v
  | Grouping e1 => Grouping (strip_expr e1)
  | Unary op r => Unary op (strip_expr r)
  | Binary op l r => Binary (lexeme_only op) (strip_expr l) (strip_expr r)
  | Logical op l r => Logical (lexeme_only op) (strip_expr l) (strip_expr r)
  | Variable_ n _ => Variable_ (lexeme_only n) 0
  | Assign n v _ => Assign (lexeme_only n) (strip_expr v) 0
  | Call c _ args => Call (strip_expr c) end_token (map strip_expr args)
  | Get o n => Get (strip_expr o) (lexeme_only n)
  | Set_ o n v => Set_ (strip_expr o) (lexeme_only n) (strip_expr v)
  | This _ _ => This end_token 0
  | Super k m _ => Super (lexeme_only k) (lexeme_only m) 0
  end.

(** The same for a statement; the keyword of [return] goes too. *)
Fixpoint strip_stmt (s : Stmt) : Stmt :=
  match s with
  | Expression e => Expression (strip_expr e)
  | Print e => Print (strip_expr e)
  | Var n i => Var (lexeme_only n) (option_map strip_expr i)
  | Block ss => Block (map strip_stmt ss)
  | If c t e => If (strip_expr c) (strip_stmt t) (option_map strip_stmt e)
  | While c b => While (strip_expr c) (strip_stmt b)
  | Function n ps b => Function (lexeme_only n) (map lexeme_only ps) (map strip_stmt b)
  | Return _ v => Return end_token (option_map strip_expr v)
  | Class n sc ms =>
      Class (lexeme_only n)
            (option_map (fun p => (lexeme_only (fst p), 0%nat)) sc)
            (map strip_stmt ms)
  end.

(** Expressions and statements without a [Unary] node. *)
Fixpoint unary_free_expr (e : Expr) : bool :=
  match e with
  | Literal _ | Variable_ _ _ | This _ _ | Super _ _ _ => true
  | Grouping e1 => unary_free_expr e1
  | Unary _ _ => false
  | Binary _ l r | Logical _ l r => unary_free_expr l && unary_free_expr r
  | Assign _ v _ => unary_free_expr v
  | Call c _ args => unary_free_expr c && forallb unary_free_expr args
  | Get o _ => unary_free_expr o
  | Set_ o _ v => unary_free_expr o && unary_free_expr v
  end.

Definition unary_free_option (e : option Expr) : bool :=
  match e with
  | Some e => unary_free_expr e
  | None => true
  end.

Fixpoint unary_free_stmt (s : Stmt) : bool :=
  match s with
  | Expression e | Print e => unary_free_expr e
  | Var _ i => unary_free_option i
  | Block ss => forallb unary_free_stmt ss
  | If c t e =>
      unary_free_expr c && unary_free_stmt t
      && match e with
         | Some e => unary_free_stmt e
         | None => true
         end
  | While c b => unary_free_expr c && unary_free_stmt b
  | Function _ _ b => forallb unary_free_stmt b
  | Return _ v => unary_free_option v
  | Class _ _ ms => forallb unary_free_stmt ms
  end.

(** The rendering as a function of the node and of the indent, which is
    passed down instead of kept in a field; the printer computes it, as
    [accept_expr_text] and [accept_stmt_text] show.  It serves the proofs
    about the layout. *)
Section Rendering.
Variable token_str : Token -> string.
Variable host_float_str : double -> string.

Definition literal_text (v : LitValue) : string :=
  match v with
  | LitNil => "nil"
  | LitBool true => "true"
  | LitBool false => "false"
  | LitStr s => dquote ++ s ++ dquote
  | LitNum d => host_float_str d
  end.

Fixpoint text_expr (e : Expr) (indent : Z) : string :=
  match e with
  | Literal v => literal_text v
  | Grouping e1 => "(grouping " ++ text_expr e1 indent ++ ")"
  | Unary op r => "(" ++ token_str op ++ " " ++ text_expr r indent ++ ")"
  | Binary op l r | Logical op l r =>
      "(" ++ lexeme op ++ " " ++ text_expr l indent ++ " " ++ text_expr r indent ++ ")"
  | Variable_ n _ => lexeme n
  | Assign n v _ => "(assign " ++ lexeme n ++ " " ++ text_expr v indent ++ ")"
  | Call c _ args =>
      "(call " ++ text_expr c indent
        ++ match args with
           | [] => ")"
           | _ :: _ =>
               nl ++ join nl (map (fun a => str_mul " " (indent + 4)
                                              ++ text_expr a (indent + 4)) args)
                  ++ ")"
           end
  | Get o n => "(get " ++ text_expr o indent ++ " " ++ lexeme n ++ ")"
  | Set_ o n v =>
      "(set " ++ text_expr o indent ++ " " ++ lexeme n ++ " " ++ text_expr v indent ++ ")"
  | This _ _ => "this"
  | Super k m _ => "(" ++ lexeme k ++ " " ++ lexeme m ++ ")"
  end.

Fixpoint text_stmt (s : Stmt) (indent : Z) : string :=
  let children (ss : list Stmt) :=
    nl ++ join nl (map (fun s' => str_mul " " (indent + 4) ++ text_stmt s' (indent + 4)) ss)
       ++ ")" in
  match s with
  | Expression e => text_expr e indent
  | Print e => "(print " ++ text_expr e indent ++ ")"
  | Var n (Some i) => "(var " ++ lexeme n ++ " " ++ text_expr i indent ++ ")"
  | Var n None => "(var " ++ lexeme n ++ ")"
  | Block [] => "(block)"
  | Block ss => "(block" ++ children ss
  | If c t e =>
      "(if " ++ text_expr c indent ++ nl
        ++ str_mul " " (indent + 4) ++ text_stmt t (indent + 4)
        ++ match e with
           | Some e => nl ++ str_mul " " indent ++ text_stmt e indent ++ ")"
           | None => ")"
           end
  | While c b =>
      "(while " ++ text_expr c indent ++ nl
        ++ str_mul " " (indent + 4) ++ text_stmt b (indent + 4) ++ ")"
  | Function n ps b =>
      "(func " ++ lexeme n ++ " (" ++ join " " (map lexeme ps) ++ ")" ++ children b
  | Return _ (Some v) => "(return " ++ text_expr v indent ++ ")"
  | Return _ None => "(return)"
  | Class n sc ms =>
      "(class " ++ lexeme n
        ++ match sc with
           | Some (super_name, _) => " (< " ++ lexeme super_name ++ ")"
           | None => EmptyString
           end
        ++ match ms with
           | [] => ")"
           | _ :: _ => children ms
           end
  end.

(** The texts a node contributes have no newline. *)
Fixpoint no_newline (s : string) : bool :=
  match s with
  | EmptyString => true
  | String c rest => negb (is_newline c) && no_newline rest
  end.

Fixpoint plain_expr (e : Expr) : bool :=
  match e with
  | Literal v => no_newline (literal_text v)
  | Grouping e1 => plain_expr e1
  | Unary op r => no_newline (token_str op) && plain_expr r
  | Binary op l r | Logical op l r =>
      no_newline (lexeme op) && plain_expr l && plain_expr r
  | Variable_ n _ => no_newline (lexeme n)
  | Assign n v _ => no_newline (lexeme n) && plain_expr v
  | Call c _ args => plain_expr c && forallb plain_expr args
  | Get o n => plain_expr o && no_newline (lexeme n)
  | Set_ o n v => plain_expr o && no_newline (lexeme n) && plain_expr v
  | This _ _ => true
  | Super k m _ => no_newline (lexeme k) && no_newline (lexeme m)
  end.

Fixpoint plain_stmt (s : Stmt) : bool :=
  match s with
  | Expression e | Print e => plain_expr e
  | Var n i =>
      no_newline (lexeme n)
      && match i with
         | Some i => plain_expr i
         | None => true
         end
  | Block ss => forallb plain_stmt ss
  | If c t e =>
      plain_expr c && plain_stmt t
      && match e with
         | Some e => plain_stmt e
         | None => true
         end
  | While c b => plain_expr c && plain_stmt b
  | Function n ps b =>
      no_newline (lexeme n) && no_newline (join " " (map lexeme ps))
      && negb (Nat.eqb (List.length b) 0) && forallb plain_stmt b
  | Return _ v =>
      match v with
      | Some v => plain_expr v
      | None => true
      end
  | Class n sc ms =>
      no_newline (lexeme n)
      && match sc with
         | Some (super_name, _) => no_newline (lexeme super_name)
         | None => true
         end
      && forallb plain_stmt ms
  end.
End Rendering.

(** [s] with [pad] put behind each of its newlines. *)
Fixpoint shift (pad s : string) : string :=
  match s with
  | EmptyString => EmptyString
  | String c rest =>
      if is_newline c then String c (pad ++ shift pad rest)
      else String c (shift pad rest)
  end.

(** ** What a run of the driver shows *)

(** The calls among events, in their order. *)
Definition calls (l : list Event) : list DriverCall :=
  flat_map (fun e => match e with
                     | Called c => [c]
                     | _ => []
                     end) l.

(** The calls of [run] on [source] when nothing stops it. *)
Definition pipeline (source : string) : list DriverCall :=
  [scan_tokens_call source; parse_call; print_program_call; resolve_list_call;
   visit_statements_call].

(** The sources handed to the scanner among events, in their order. *)
Definition scanned (l : list Event) : list string :=
  flat_map (fun e => match e with
                     | Called (scan_tokens_call source) => [source]
                     | _ => []
                     end) l.

(** The strings [ss] one after the other. *)
Definition flatten (ss : list string) : string := fold_right append EmptyString ss.

(** A line as [readline] returns it before the end of the input: not
    empty, and with no newline but at its end. *)
Fixpoint line_shaped (s : string) : bool :=
  match s with
  | EmptyString => false
  | String c rest =>
      if is_newline c then
        match rest with
        | EmptyString => true
        | String _ _ => false
        end
      else
        match rest with
        | EmptyString => true
        | String _ _ => line_shaped rest
        end
  end.

(** What [run] writes to standard output for [source] in a process that
    has written nothing and reported nothing yet. *)
Definition output_of_run {pkg : Package} (source : string) : string :=
  stdout (snd (run source (start []))).

(** ** A program with nested statements *)

Definition nested_source : string :=
  "fun f(a, b) { if (a) print b; else { print 1; } while (a) f(a, b); }".

Definition nested_statement : Stmt :=
  match parse_source nested_source with
  | (Some (s :: _), _) => s
  | _ => Block []
  end.

(** * Properties of the printer *)

Section PrinterFacts.
Variable Token_str : Token -> string.
Variable float_str : double -> string.

Local Notation "'accept_expr'" := (accept_expr Token_str float_str).
Local Notation "'accept_stmt'" := (accept_stmt Token_str float_str).

Lemma indented_lines_restores {A} (accept : A -> Printer string) (xs : list A) :
  list_all A (restores accept) xs ->
  forall indent, snd (indented_lines accept xs indent) = indent.
Proof.
  induction 1 as [|x Hx xs _ IH]; intro indent; simpl.
  - reflexivity.
  - unfold pbind, print_indent, pret.
    specialize (Hx indent).
    destruct (accept x indent) as [s i1]; simpl in Hx; subst i1.
    specialize (IH indent).
    destruct (indented_lines accept xs indent) as [ls i2]; simpl in IH; subst i2.
    reflexivity.
Qed.

Lemma accept_expr_restores (e : Expr) : restores accept_expr e.
Proof.
  induction e as
    [v | e IH | op r IHr | op l IHl r IHr | op l IHl r IHr | n k
    | n v IHv k | c IHc p args IHargs | o IHo n | o IHo n v IHv | k n | k m n];
    intro indent; simpl.
  - destruct v as [| [|] | d | s]; reflexivity.
  - unfold visit_grouping, pbind, pret.
    specialize (IH indent). destruct (accept_expr e indent); simpl in *; congruence.
  - unfold visit_unary, pbind, pret.
    specialize (IHr indent). destruct (accept_expr r indent); simpl in *; congruence.
  - unfold visit_binary, pbind, pret.
    specialize (IHl indent). destruct (accept_expr l indent) as [sl il]; simpl in IHl; subst il.
    specialize (IHr indent). destruct (accept_expr r indent); simpl in *; congruence.
  - unfold visit_logical, pbind, pret.
    specialize (IHl indent). destruct (accept_expr l indent) as [sl il]; simpl in IHl; subst il.
    specialize (IHr indent). destruct (accept_expr r indent); simpl in *; congruence.
  - reflexivity.
  - unfold visit_assign, pbind, pret.
    specialize (IHv indent). destruct (accept_expr v indent); simpl in *; congruence.
  - unfold visit_call, pbind.
    specialize (IHc indent). destruct (accept_expr c indent) as [sc ic]; simpl in IHc; subst ic.
    destruct args as [|a args]; [reflexivity|].
    unfold indent_add, pret.
    pose proof (indented_lines_restores accept_expr (a :: args) IHargs (indent + 4)) as H.
    destruct (indented_lines accept_expr (a :: args) (indent + 4)) as [ls i2].
    simpl in H; subst i2; simpl. lia.
  - unfold visit_get, pbind, pret.
    specialize (IHo indent). destruct (accept_expr o indent); simpl in *; congruence.
  - unfold visit_set, pbind, pret.
    specialize (IHo indent). destruct (accept_expr o indent) as [so io]; simpl in IHo; subst io.
    specialize (IHv indent). destruct (accept_expr v indent); simpl in *; congruence.
  - reflexivity.
  - reflexivity.
Qed.

(** Runs the visit that the induction hypothesis [IH] speaks about and
    replaces the indent it returns by the one it was given. *)
Ltac run_visit IH :=
  match type of IH with
  | restores ?f ?x =>
      match goal with
      | |- context [f x ?i] =>
          let s := fresh "s" in
          let j := fresh "j" in
          let E := fresh "E" in
          pose proof (IH i) as E;
          destruct (f x i) as [s j]; simpl in E; subst j
      end
  end.

Lemma accept_stmt_restores (s : Stmt) : restores accept_stmt s.
Proof.
  induction s as
    [e | e | n [i|] | ss IHss | c t IHt e IHe | c b IHb | n ps b IHb
    | k [v|] | n sc ms IHms];
    intro indent; simpl.
  - apply accept_expr_restores.
  - unfold visit_print, pbind, pret.
    run_visit (accept_expr_restores e). reflexivity.
  - unfold visit_var, pbind, pret.
    run_visit (accept_expr_restores i). reflexivity.
  - reflexivity.
  - unfold visit_block, pbind.
    destruct ss as [|s ss]; [reflexivity|].
    unfold indent_add, pret.
    pose proof (indented_lines_restores accept_stmt (s :: ss) IHss (indent + 4)) as H.
    destruct (indented_lines accept_stmt (s :: ss) (indent + 4)) as [ls j].
    simpl in H; subst j; simpl. lia.
  - unfold visit_if, pbind, indent_add, print_indent, pret.
    run_visit (accept_expr_restores c).
    run_visit IHt.
    replace (indent + 4 + -4) with indent by lia.
    destruct IHe as [e IHe|]; [|reflexivity].
    run_visit IHe. reflexivity.
  - unfold visit_while, pbind, indent_add, print_indent, pret.
    run_visit (accept_expr_restores c).
    run_visit IHb. simpl. lia.
  - unfold visit_function, pbind, indent_add, pret.
    pose proof (indented_lines_restores accept_stmt b IHb (indent + 4)) as H.
    destruct (indented_lines accept_stmt b (indent + 4)) as [ls j].
    simpl in H; subst j; simpl. lia.
  - unfold visit_return, pbind, pret.
    run_visit (accept_expr_restores v). reflexivity.
  - reflexivity.
  - unfold visit_class, pbind.
    destruct ms as [|m ms]; [reflexivity|].
    unfold indent_add, pret.
    pose proof (indented_lines_restores accept_stmt (m :: ms) IHms (indent + 4)) as H.
    destruct (indented_lines accept_stmt (m :: ms) (indent + 4)) as [ls j].
    simpl in H; subst j; simpl. lia.
Qed.

Lemma accept_all_at (program : Program) (indent : Z) :
  accept_all Token_str float_str program indent
  = (map (fun s => fst (accept_stmt s indent)) program, indent).
Proof.
  induction program as [|s program IH]; simpl.
  - reflexivity.
  - unfold pbind, pret.
    run_visit (accept_stmt_restores s).
    rewrite IH. reflexivity.
Qed.

(** C9: every visit of an expression node and of a statement node
    returns with [self.indent] equal to its value before the call, and
    [LispPrinter().print_program] is the newline-join of the statements'
    renderings, each of them produced at indent 0 and not indented. *)
Theorem indent_restored_by_every_visit :
  (forall (e : Expr) (indent : Z), snd (accept_expr e indent) = indent)
  /\ (forall (s : Stmt) (indent : Z), snd (accept_stmt s indent) = indent)
  /\ (forall program : Program,
        LispPrinter_print_program Token_str float_str program
        = join nl (map (fun s => fst (accept_stmt s 0)) program)
        /\ snd (print_program Token_str float_str program 0) = 0).
Proof.
  split; [exact accept_expr_restores|].
  split; [exact accept_stmt_restores|].
  intro program.
  unfold LispPrinter_print_program, print_program, pbind, pret.
  rewrite accept_all_at. split; reflexivity.
Qed.

(** C10: a [Unary] node is rendered as an opening parenthesis, the string
    form [str(operator)] of the operator Token object, a space, the
    rendering of the operand and a closing parenthesis, whereas [Binary]
    and [Logical] interpolate [operator.lexeme]. *)
Theorem unary_prints_the_token_object :
  forall (operator : Token) (right : Expr) (indent : Z),
    fst (accept_expr (Unary operator right) indent)
    = "(" ++ Token_str operator ++ " " ++ fst (accept_expr right indent) ++ ")"
    /\ (forall left : Expr,
          fst (accept_expr (Binary operator left right) indent)
          = "(" ++ lexeme operator ++ " " ++ fst (accept_expr left indent)
                ++ " " ++ fst (accept_expr right indent) ++ ")"
          /\ fst (accept_expr (Logical operator left right) indent)
             = "(" ++ lexeme operator ++ " " ++ fst (accept_expr left indent)
                   ++ " " ++ fst (accept_expr right indent) ++ ")").
Proof.
  intros operator right indent. split.
  - simpl. unfold visit_unary, pbind, pret.
    destruct (accept_expr right indent). reflexivity.
  - intro left. simpl. unfold visit_binary, visit_logical, pbind, pret.
    run_visit (accept_expr_restores left).
    destruct (accept_expr right indent). split; reflexivity.
Qed.
End PrinterFacts.

(** * Properties of the driver *)

Lemma append_assoc (a b c : string) : (a ++ b) ++ c = a ++ (b ++ c).
Proof. induction a as [|x a IH]; simpl; [reflexivity | now rewrite IH]. Qed.

Lemma append_nil_r (a : string) : a ++ EmptyString = a.
Proof. induction a as [|x a IH]; simpl; [reflexivity | now rewrite IH]. Qed.

Lemma append_inv_head (a b c : string) : a ++ b = a ++ c -> b = c.
Proof. induction a as [|x a IH]; simpl; intro H; [exact H | injection H; auto]. Qed.

Lemma skipn_length_app {A} (xs ys : list A) : skipn (length xs) (xs ++ ys)%list = ys.
Proof. induction xs as [|x xs IH]; simpl; [reflexivity | exact IH]. Qed.

Section DriverFacts.
Context {pkg : Package}.

Local Open Scope io_scope.

(** Unfolds the steps of the driver down to the world they produce. *)
Ltac io :=
  unfold run_file, run, repl_entry, scan_tokens, parse, LispPrinter_new_print_program,
    resolve_list, visit_statements, runtime_error, report, read_text,
    print, print_end, eprint, exit, log, get_globals, set_had_error,
    set_had_runtime_error, bind, ret in *.

Lemma report_all_eq (ds : list Diagnostic) (w : World) :
  report_all ds w = (Returned tt, reported ds w).
Proof.
  unfold reported. revert w.
  induction ds as [|d ds IH]; intro w; simpl.
  - reflexivity.
  - io. simpl. apply IH.
Qed.

Lemma reported_cons (d : Diagnostic) (ds : list Diagnostic) (w : World) :
  reported (d :: ds) w
  = reported ds (with_had_error true (eprinted (diagnostic_text d) (logged (Reported d) w))).
Proof. reflexivity. Qed.

Lemma reported_trace (ds : list Diagnostic) (w : World) :
  trace (reported ds w) = (trace w ++ map Reported ds)%list.
Proof.
  revert w. induction ds as [|d ds IH]; intro w.
  - simpl. now rewrite app_nil_r.
  - rewrite reported_cons, IH. simpl. now rewrite <- app_assoc.
Qed.

Lemma reported_stdout (ds : list Diagnostic) (w : World) :
  stdout (reported ds w) = stdout w.
Proof.
  revert w. induction ds as [|d ds IH]; intro w; [reflexivity|].
  rewrite reported_cons, IH. reflexivity.
Qed.

Lemma reported_stderr (ds : list Diagnostic) (w : World) :
  stderr (reported ds w) = stderr w ++ diagnostics_text ds.
Proof.
  revert w. induction ds as [|d ds IH]; intro w.
  - simpl. now rewrite append_nil_r.
  - rewrite reported_cons, IH. cbn [with_had_error eprinted logged stderr diagnostics_text].
    now rewrite !append_assoc.
Qed.

Lemma reported_files (ds : list Diagnostic) (w : World) :
  files (reported ds w) = files w.
Proof.
  revert w. induction ds as [|d ds IH]; intro w; [reflexivity|].
  rewrite reported_cons, IH. reflexivity.
Qed.

Lemma reported_had_error (ds : list Diagnostic) (w : World) :
  had_error (globals (reported ds w)) = had_error (globals w) || any_error ds.
Proof.
  revert w. induction ds as [|d ds IH]; intro w.
  - simpl. now rewrite orb_false_r.
  - rewrite reported_cons, IH. simpl. now rewrite orb_true_r.
Qed.

Lemma reported_had_runtime_error (ds : list Diagnostic) (w : World) :
  had_runtime_error (globals (reported ds w)) = had_runtime_error (globals w).
Proof.
  revert w. induction ds as [|d ds IH]; intro w; [reflexivity|].
  rewrite reported_cons, IH. reflexivity.
Qed.

Lemma reported_nil (w : World) : reported [] w = w.
Proof. reflexivity. Qed.

Lemma any_error_app (a b : list Diagnostic) :
  any_error (a ++ b) = any_error a || any_error b.
Proof. destruct a; reflexivity. Qed.

Lemma any_error_false (ds : list Diagnostic) : any_error ds = false <-> ds = [].
Proof. destruct ds; simpl; split; intro H; congruence. Qed.

Lemma any_error_true (ds : list Diagnostic) :
  any_error ds = true <-> exists d, In d ds.
Proof.
  destruct ds as [|d ds]; simpl; split; intro H.
  - discriminate.
  - destruct H as [_ []].
  - exists d. now left.
  - reflexivity.
Qed.

(** Projects the fields of a world built by the steps of the driver. *)
Ltac fields :=
  repeat first
    [ progress cbn [globals stdout stderr files trace had_error had_runtime_error
                    logged printed eprinted with_had_error with_had_runtime_error
                    any_error orb fst snd] in *
    | rewrite reported_trace in *
    | rewrite reported_stdout in *
    | rewrite reported_stderr in *
    | rewrite reported_files in *
    | rewrite reported_had_error in *
    | rewrite reported_had_runtime_error in * ].

(** [run], with its sequence of steps spelled out on the world. *)
Lemma run_unfold (source : string) (w : World) :
  run source w =
  let (tokens, scan_errors) := Scanner_scan_tokens source in
  let (result, parse_errors) := Parser_parse tokens in
  let w1 := reported parse_errors
              (logged (Called parse_call)
                 (reported scan_errors (logged (Called (scan_tokens_call source)) w))) in
  match result with
  | None => (Returned tt, w1)
  | Some program =>
      if had_error (globals w1) then (Returned tt, w1)
      else
        let w2 := printed (LispPrinter_print_program Token_str float_str program) nl
                          (logged (Called print_program_call) w1) in
        let (interpreter, resolve_errors) :=
          Resolver_resolve_list program Interpreter_new in
        let w3 := reported resolve_errors (logged (Called resolve_list_call) w2) in
        if had_error (globals w3) then (Returned tt, w3)
        else
          let (output, ending) := Interpreter_visit_statements program interpreter in
          let w4 := printed output EmptyString (logged (Called visit_statements_call) w3) in
          match ending with
          | Completed => (Returned tt, w4)
          | Failed e =>
              (Returned tt,
               with_had_runtime_error true
                 (eprinted (err_message e ++ nl ++ "[line "
                              ++ nat_str (line (err_token e)) ++ "]")
                           (logged (RuntimeReported e) w4)))
          | Diverges => (Hangs, w4)
          end
  end.
Proof.
  io.
  destruct (Scanner_scan_tokens source) as [tokens scan_errors].
  rewrite report_all_eq.
  destruct (Parser_parse tokens) as [result parse_errors].
  rewrite report_all_eq.
  destruct result as [program|]; [|reflexivity].
  cbv zeta.
  match goal with |- context [had_error (globals ?w1)] =>
    destruct (had_error (globals w1)); [reflexivity|] end.
  destruct (Resolver_resolve_list program Interpreter_new) as [interpreter resolve_errors].
  rewrite report_all_eq.
  match goal with |- context [had_error (globals ?w3)] =>
    destruct (had_error (globals w3)); [reflexivity|] end.
  destruct (Interpreter_visit_statements program interpreter) as [output [|e|]];
    reflexivity.
Qed.

(** The events of a run, once its trace is known as an extension of the
    trace it started from. *)
Ltac delta :=
  unfold events_during; fields; rewrite <- ?app_assoc; rewrite skipn_length_app;
  cbn [app map].

(** C8: when the scanner and the parser report nothing on [source] and
    the parser gives the program, which is how a program that parses
    without error is read here, since [run] looks at [had_error], which
    either of them sets, [run] writes to standard output the Lisp
    rendering of the whole program and a newline, and only then what the
    interpreter prints; the rendering is the renderings of the
    statements, each made at indent 0, joined by newlines; it is made
    before the resolver and the interpreter are called. *)
Theorem rendering_written_before_execution
    (source : string) (w : World) (tokens : list Token) (program : Program) :
  had_error (globals w) = false ->
  Scanner_scan_tokens source = (tokens, []) ->
  Parser_parse tokens = (Some program, []) ->
  stdout (snd (run source w))
  = stdout w
      ++ join nl (map (fun s => fst (accept_stmt Token_str float_str s 0)) program)
      ++ nl ++ execution_output program
  /\ LispPrinter_print_program Token_str float_str program
     = join nl (map (fun s => fst (accept_stmt Token_str float_str s 0)) program)
  /\ stdout (snd (run source w))
     = stdout w ++ LispPrinter_print_program Token_str float_str program ++ nl
         ++ execution_output program
  /\ exists later,
       events_during (run source) w
       = Called (scan_tokens_call source) :: Called parse_call
           :: Called print_program_call :: Called resolve_list_call :: later.
Proof.
  intros Hflag Hscan Hparse.
  assert (Hjoin : LispPrinter_print_program Token_str float_str program
                  = join nl (map (fun s => fst (accept_stmt Token_str float_str s 0))
                                 program)).
  { unfold LispPrinter_print_program, print_program, pbind, pret.
    now rewrite accept_all_at. }
  assert (Hrun : stdout (snd (run source w))
                 = stdout w ++ LispPrinter_print_program Token_str float_str program
                     ++ nl ++ execution_output program
                 /\ exists later,
                      events_during (run source) w
                      = Called (scan_tokens_call source) :: Called parse_call
                          :: Called print_program_call :: Called resolve_list_call
                          :: later).
  { unfold events_during, execution_output.
    rewrite run_unfold, Hscan, Hparse. cbv zeta.
    rewrite !reported_nil. fields. rewrite Hflag.
    destruct (Resolver_resolve_list program Interpreter_new)
      as [interpreter resolve_errors].
    fields. rewrite Hflag. cbn [orb].
    destruct (any_error resolve_errors).
    - fields. rewrite append_nil_r. split; [reflexivity|].
      rewrite <- ?app_assoc, skipn_length_app. cbn [app]. eauto.
    - destruct (Interpreter_visit_statements program interpreter) as [output [|e|]];
        fields; rewrite ?append_nil_r, ?append_assoc;
        (split; [reflexivity|]);
        rewrite <- ?app_assoc, skipn_length_app; cbn [app]; eauto. }
  destruct Hrun as [Hout Hevents].
  split; [rewrite Hout, Hjoin; reflexivity|].
  split; [exact Hjoin|]. split; [exact Hout | exact Hevents].
Qed.

(** C4: in the events of a run, the interpreter's [visit_statements] is
    not called when [had_error] was set on entry or a static error is
    reported during the run; and when [had_error] was set on entry or the
    scanner or the parser reports an error, neither the printer nor the
    resolver is called either. *)
Theorem static_error_skips_execution (source : string) (w : World) :
  (had_error (globals w) = true \/ (exists d, In (Reported d) (events_during (run source) w)) ->
   ~ In (Called visit_statements_call) (events_during (run source) w))
  /\ (had_error (globals w) = true \/ errors_before_resolution source <> [] ->
      ~ In (Called print_program_call) (events_during (run source) w)
      /\ ~ In (Called resolve_list_call) (events_during (run source) w)
      /\ ~ In (Called visit_statements_call) (events_during (run source) w)).
Proof.
  unfold events_during, errors_before_resolution.
  rewrite run_unfold.
  destruct (Scanner_scan_tokens source) as [tokens scan_errors].
  destruct (Parser_parse tokens) as [result parse_errors]. cbv zeta. cbn [snd].
  assert (Hno : forall (c : DriverCall) (ds : list Diagnostic),
             ~ In (Called c) (map Reported ds)).
  { intros c ds H. apply in_map_iff in H. destruct H as [d [H _]]. discriminate. }
  assert (early :
    ~ In (Called print_program_call)
         (Called (scan_tokens_call source) :: map Reported scan_errors
            ++ Called parse_call :: map Reported parse_errors)
    /\ ~ In (Called resolve_list_call)
         (Called (scan_tokens_call source) :: map Reported scan_errors
            ++ Called parse_call :: map Reported parse_errors)
    /\ ~ In (Called visit_statements_call)
         (Called (scan_tokens_call source) :: map Reported scan_errors
            ++ Called parse_call :: map Reported parse_errors)).
  { repeat split; intro H; cbn [In] in H; rewrite in_app_iff in H; cbn [In] in H;
      destruct H as [H | [H | [H | H]]]; try discriminate; eapply Hno; eassumption. }
  destruct result as [program|].
  2:{ fields. rewrite <- ?app_assoc, skipn_length_app. cbn [app].
      split; intros _; tauto. }
  fields.
  destruct (had_error (globals w) || any_error scan_errors || any_error parse_errors)
    eqn:Hstatic.
  { fields. rewrite <- ?app_assoc, skipn_length_app. cbn [app].
    split; intros _; tauto. }
  apply orb_false_iff in Hstatic. destruct Hstatic as [Hstatic Hparse].
  apply orb_false_iff in Hstatic. destruct Hstatic as [Hflag Hscan].
  apply any_error_false in Hscan, Hparse. subst scan_errors parse_errors.
  destruct (Resolver_resolve_list program Interpreter_new) as [interpreter resolve_errors].
  rewrite ?Hflag. fields. rewrite ?Hflag. fields.
  split.
  2:{ intros [H | H]; [congruence | now elim H]. }
  destruct (any_error resolve_errors) eqn:Hresolve.
  - intros _. fields. rewrite <- ?app_assoc, skipn_length_app. cbn [app map].
    intro H. cbn [In] in H.
    destruct H as [H | [H | [H | [H | H]]]]; try discriminate.
    eapply Hno; eassumption.
  - apply any_error_false in Hresolve. subst resolve_errors.
    intros [H | [d H]]; [congruence|]. exfalso. revert H.
    destruct (Interpreter_visit_statements program interpreter) as [output [|e|]];
      fields; rewrite <- ?app_assoc, skipn_length_app; cbn [app map In];
      intro H; repeat (destruct H as [H | H]; try discriminate); exact H.
Qed.

Lemma bind_assoc {A B C} (m : IO A) (k : A -> IO B) (h : B -> IO C) (w : World) :
  bind (bind m k) h w = bind m (fun a => bind (k a) h) w.
Proof.
  unfold bind. destruct (m w) as [[a| | |] w']; reflexivity.
Qed.

Lemma bind_ext {A B} (m : IO A) (k k' : A -> IO B) (w : World) :
  (forall a w', k a w' = k' a w') -> bind m k w = bind m k' w.
Proof.
  intro H. unfold bind. destruct (m w) as [[a| | |] w']; auto.
Qed.

Lemma readline_empty (input rest : string) :
  readline input = (EmptyString, rest) -> input = EmptyString.
Proof.
  destruct input as [|a input]; simpl; [reflexivity|].
  destruct (Ascii.eqb a (ascii_of_nat 10)); [discriminate|].
  destruct (readline input); discriminate.
Qed.

Lemma lines_of_readline (input : string) (c : ascii) (l rest : string) :
  readline input = (String c l, rest) ->
  lines_of input = String c l :: lines_of rest.
Proof.
  revert c l rest.
  induction input as [|a input IH]; intros c l rest H; simpl in H |- *.
  - discriminate.
  - destruct (Ascii.eqb a (ascii_of_nat 10)).
    + now injection H as <- <- <-.
    + destruct (readline input) as [l' rest'] eqn:E.
      injection H as <- <- <-.
      destruct l' as [|c' l'].
      * apply readline_empty in E as E'. subst input.
        simpl in E. injection E as <-. reflexivity.
      * now rewrite (IH _ _ _ eq_refl).
Qed.

(** The loop of [run_prompt] takes the lines of the input one by one and
    leaves when they are used up, after one more prompt. *)
Lemma run_prompt_lines (input : string) (w : World) :
  run_prompt input w
  = (repl_entries (lines_of input) ;; print_end "> " EmptyString) w.
Proof.
  revert w.
  apply (run_prompt_elim
           (fun input m =>
              forall w, m w = (repl_entries (lines_of input) ;;
                               print_end "> " EmptyString) w)).
  - intros input0 rest e _ w.
    apply readline_empty in e. subst input0. reflexivity.
  - intros input0 c l rest e IH _ w.
    rewrite (lines_of_readline _ _ _ _ e). cbn [repl_entries].
    unfold repl_entry.
    rewrite ?bind_assoc. apply bind_ext. intros _ w1.
    rewrite ?bind_assoc. apply bind_ext. intros _ w2.
    rewrite ?bind_assoc. apply bind_ext. intros _ w3.
    apply (IH tt tt tt w3).
Qed.

(** [run_file] on a file that can be read: the run, then the exit status
    its flags ask for. *)
Lemma run_file_result (f source : string) (w : World) :
  lookup_file f (files w) = Some source ->
  run_file f w
  = match run source w with
    | (Returned _, w') =>
        if had_error (globals w') then (SystemExit 65, w')
        else if had_runtime_error (globals w') then (SystemExit 70, w')
        else (Returned tt, w')
    | (SystemExit code, w') => (SystemExit code, w')
    | (Uncaught exc, w') => (Uncaught exc, w')
    | (Hangs, w') => (Hangs, w')
    end.
Proof.
  intro Hfile. unfold run_file, read_text. unfold bind at 1. rewrite Hfile.
  unfold bind at 1.
  destruct (run source w) as [[[]| | |] w']; try reflexivity.
  io. destruct (had_error (globals w')); [reflexivity|].
  destruct (had_runtime_error (globals w')); reflexivity.
Qed.

(** [run_file] on a file that cannot be read: the exception of
    [read_text] escapes before anything is run. *)
Lemma run_file_unreadable (f : string) (w : World) :
  lookup_file f (files w) = None ->
  run_file f w = (Uncaught "OSError", w).
Proof.
  intro Hfile. unfold run_file, read_text. unfold bind at 1. now rewrite Hfile.
Qed.

(** A run begins with the call of the scanner on its source. *)
Lemma run_starts_with_scan (source : string) (w : World) :
  exists later,
    events_during (run source) w = Called (scan_tokens_call source) :: later.
Proof.
  unfold events_during. rewrite run_unfold.
  destruct (Scanner_scan_tokens source) as [tokens scan_errors].
  destruct (Parser_parse tokens) as [result parse_errors]. cbv zeta.
  destruct result as [program|]; [|delta; eauto].
  match goal with |- context [if ?b then _ else _] => destruct b end; [delta; eauto|].
  destruct (Resolver_resolve_list program Interpreter_new) as [interpreter resolve_errors].
  match goal with |- context [if ?b then _ else _] => destruct b end; [delta; eauto|].
  destruct (Interpreter_visit_statements program interpreter) as [output [|e|]];
    delta; eauto.
Qed.

(** C6: with at most the program name in [sys.argv] the driver runs the
    prompt loop, which takes the lines of the standard input in order
    and returns once they are used up.  With one argument it runs that
    file: it reads the text of the file named by the argument, runs this
    text, beginning with the call of the scanner on it, and ends as the
    flags left by the run ask for, with status 65, 70 or by returning; a
    file that cannot be read ends the process with the exception,
    nothing run.  With more arguments it prints the usage line, calls
    nothing of the package and exits with status 64. *)
Theorem main_dispatches_on_arguments (argv : list string) (input : string) (w : World) :
  ((length argv <= 1)%nat ->
     main argv input w = run_prompt input w
     /\ run_prompt input w
        = (repl_entries (lines_of input) ;; print_end "> " EmptyString) w
     /\ run_prompt EmptyString w = (Returned tt, printed "> " EmptyString w))
  /\ (length argv = 2%nat ->
        main argv input w = run_file (nth 1 argv EmptyString) w
        /\ (forall source,
              lookup_file (nth 1 argv EmptyString) (files w) = Some source ->
              main argv input w
              = match run source w with
                | (Returned _, w') =>
                    if had_error (globals w') then (SystemExit 65, w')
                    else if had_runtime_error (globals w') then (SystemExit 70, w')
                    else (Returned tt, w')
                | (SystemExit code, w') => (SystemExit code, w')
                | (Uncaught exc, w') => (Uncaught exc, w')
                | (Hangs, w') => (Hangs, w')
                end
              /\ snd (main argv input w) = snd (run source w)
              /\ exists later,
                   events_during (main argv input) w
                   = Called (scan_tokens_call source) :: later)
        /\ (lookup_file (nth 1 argv EmptyString) (files w) = None ->
              main argv input w = (Uncaught "OSError", w)
              /\ events_during (main argv input) w = []))
  /\ ((2 < length argv)%nat ->
        main argv input w = (SystemExit 64, printed "Usage: plox [script]" nl w)
        /\ events_during (main argv input) w = []
        /\ exit_status (fst (main argv input w)) = Some 64).
Proof.
  unfold main.
  split; [|split].
  - intro H.
    destruct (Nat.ltb_spec 2 (length argv)); [lia|].
    destruct (Nat.eqb_spec (length argv) 2); [lia|].
    split; [reflexivity|]. split.
    + apply run_prompt_lines.
    + rewrite run_prompt_lines. reflexivity.
  - intro H.
    destruct (Nat.ltb_spec 2 (length argv)); [lia|].
    destruct (Nat.eqb_spec (length argv) 2); [|lia].
    split; [reflexivity|]. split.
    + intros source Hfile.
      pose proof (run_starts_with_scan source w) as [later Hscan].
      unfold events_during in *.
      rewrite (run_file_result _ _ _ Hfile).
      destruct (run source w) as [[[]| | |] w']; cbn [snd] in *;
        try (split; [reflexivity|]; split; [reflexivity|]; eauto).
      destruct (had_error (globals w')); [|destruct (had_runtime_error (globals w'))];
        (split; [reflexivity|]; split; [reflexivity|]; eauto).
    + intro Hfile. unfold events_during.
      rewrite (run_file_unreadable _ _ Hfile). split; [reflexivity|]. cbn [snd].
      rewrite <- (app_nil_r (trace w)) at 2. apply skipn_length_app.
  - intro H. unfold events_during.
    destruct (Nat.ltb_spec 2 (length argv)); [|lia].
    split; [reflexivity|]. split; [|reflexivity].
    io. fields. rewrite <- (app_nil_r (trace w)) at 2. apply skipn_length_app.
Qed.

Lemma static_report_iff (l : list Event) :
  (exists d, In (Reported d) l) <-> existsb is_static_report l = true.
Proof.
  rewrite existsb_exists. split.
  - intros [d H]. exists (Reported d). now split.
  - intros [[c|d|e] [H E]]; try discriminate. now exists d.
Qed.

Lemma runtime_report_iff (l : list Event) :
  (exists e, In (RuntimeReported e) l) <-> existsb is_runtime_report l = true.
Proof.
  rewrite existsb_exists. split.
  - intros [e H]. exists (RuntimeReported e). now split.
  - intros [[c|d|e] [H E]]; try discriminate. now exists e.
Qed.

Lemma static_reports_of_errors (ds : list Diagnostic) :
  existsb is_static_report (map Reported ds) = any_error ds.
Proof. destruct ds; reflexivity. Qed.

Lemma runtime_reports_of_errors (ds : list Diagnostic) :
  existsb is_runtime_report (map Reported ds) = false.
Proof. induction ds; simpl; auto. Qed.

(** Counts the reports in an explicit list of events. *)
Ltac reports :=
  repeat first
    [ rewrite existsb_app
    | rewrite static_reports_of_errors
    | rewrite runtime_reports_of_errors
    | progress cbn [existsb is_static_report is_runtime_report orb app map] ].

(** Brings a goal about the world after a case of [run] to the flags
    and the errors of that case, and closes it when they decide it. *)
Ltac settle :=
  fields; rewrite <- ?app_assoc, ?skipn_length_app; reports;
  repeat match goal with
         | H : _ = true |- _ => rewrite H
         | H : _ = false |- _ => rewrite H
         end;
  fields; rewrite ?orb_false_r, ?orb_true_r; auto 10.

(** What a run adds to the world: its events extend the trace, the files
    stay, each flag is set exactly by a report of its kind, and a run
    that does not return hangs in the interpreter, with nothing
    reported. *)
Lemma run_summary (source : string) (w : World) :
  trace (snd (run source w)) = (trace w ++ events_during (run source) w)%list
  /\ files (snd (run source w)) = files w
  /\ had_error (globals (snd (run source w)))
     = had_error (globals w) || existsb is_static_report (events_during (run source) w)
  /\ had_runtime_error (globals (snd (run source w)))
     = had_runtime_error (globals w)
       || existsb is_runtime_report (events_during (run source) w)
  /\ (fst (run source w) = Returned tt
      \/ (fst (run source w) = Hangs
          /\ had_error (globals w) = false
          /\ existsb is_static_report (events_during (run source) w) = false
          /\ existsb is_runtime_report (events_during (run source) w) = false)).
Proof.
  unfold events_during. rewrite run_unfold.
  destruct (Scanner_scan_tokens source) as [tokens scan_errors].
  destruct (Parser_parse tokens) as [result parse_errors]. cbv zeta.
  destruct result as [program|]; [|settle; rewrite orb_assoc; auto 10].
  fields.
  destruct (had_error (globals w)) eqn:Hflag; [settle|].
  destruct (any_error scan_errors) eqn:Hscan; [settle|].
  destruct (any_error parse_errors) eqn:Hparse; [settle|].
  fields.
  destruct (Resolver_resolve_list program Interpreter_new) as [interpreter resolve_errors].
  settle.
  destruct (any_error resolve_errors) eqn:Hresolve; [settle|].
  destruct (Interpreter_visit_statements program interpreter) as [output [|e|]];
    settle.
Qed.

(** C3: with more than one command-line argument the exit status is 64.
    Run on a file that can be read, the process exits with 65 when a
    static (scan, parse or resolve) error was reported, with 70 when a
    runtime error was reported and no static one, and with 0 when nothing
    was reported and the Lox program came to its end. *)
Theorem exit_codes (argv : list string) (input : string) (fs : list (string * string)) :
  ((2 < length argv)%nat ->
     exit_status (fst (main argv input (start fs))) = Some 64)
  /\ (forall prog f source,
        argv = [prog; f] ->
        lookup_file f fs = Some source ->
        ((exists d, In (Reported d) (trace (snd (main argv input (start fs))))) ->
           exit_status (fst (main argv input (start fs))) = Some 65)
        /\ ((forall d, ~ In (Reported d) (trace (snd (main argv input (start fs))))) ->
            (exists e, In (RuntimeReported e) (trace (snd (main argv input (start fs))))) ->
            exit_status (fst (main argv input (start fs))) = Some 70)
        /\ ((forall d, ~ In (Reported d) (trace (snd (main argv input (start fs))))) ->
            (forall e, ~ In (RuntimeReported e)
                            (trace (snd (main argv input (start fs))))) ->
            fst (main argv input (start fs)) <> Hangs ->
            exit_status (fst (main argv input (start fs))) = Some 0)).
Proof.
  split.
  - intro H. unfold main.
    destruct (Nat.ltb_spec 2 (length argv)); [reflexivity | lia].
  - intros prog f source -> Hfile.
    replace (main [prog; f] input (start fs)) with (run_file f (start fs))
      by reflexivity.
    rewrite (run_file_result f source (start fs) Hfile).
    pose proof (run_summary source (start fs)) as (Htrace & _ & Herr & Hrt & Hout).
    unfold events_during in *. cbn [trace start length skipn app] in *.
    cbn [globals start had_error had_runtime_error orb] in *.
    destruct (run source (start fs)) as [o w']. cbn [fst snd] in *.
    assert (Hno : forall l, (forall d, ~ In (Reported d) l) ->
                            existsb is_static_report l = false).
    { intros l H. destruct (existsb is_static_report l) eqn:E; [|reflexivity].
      apply static_report_iff in E. destruct E as [d E]. now elim (H d). }
    assert (Hnor : forall l, (forall e, ~ In (RuntimeReported e) l) ->
                             existsb is_runtime_report l = false).
    { intros l H. destruct (existsb is_runtime_report l) eqn:E; [|reflexivity].
      apply runtime_report_iff in E. destruct E as [e E]. now elim (H e). }
    destruct Hout as [-> | (-> & _ & Hs & Hr)].
    + destruct (had_error (globals w')) eqn:E1; cbn [fst snd];
        [|destruct (had_runtime_error (globals w')) eqn:E2; cbn [fst snd]];
        (split; [|split]).
      * reflexivity.
      * intros H _. rewrite (Hno _ H) in Herr. discriminate.
      * intros H _ _. rewrite (Hno _ H) in Herr. discriminate.
      * intro H. apply static_report_iff in H. congruence.
      * reflexivity.
      * intros _ H _. rewrite (Hnor _ H) in Hrt. discriminate.
      * intro H. apply static_report_iff in H. congruence.
      * intros _ H. apply runtime_report_iff in H. congruence.
      * reflexivity.
    + cbn [fst snd]. split; [|split].
      * intro H. apply static_report_iff in H. congruence.
      * intros _ H. apply runtime_report_iff in H. congruence.
      * congruence.
Qed.

Lemma repl_entry_eq (inp : string) (w : World) :
  repl_entry inp w
  = match run inp (printed "> " EmptyString w) with
    | (Returned _, w') => (Returned tt, with_had_error false w')
    | (SystemExit code, w') => (SystemExit code, w')
    | (Uncaught exc, w') => (Uncaught exc, w')
    | (Hangs, w') => (Hangs, w')
    end.
Proof.
  unfold repl_entry, print_end, set_had_error. unfold bind at 1 2.
  destruct (run inp (printed "> " EmptyString w)) as [[[]| | |] w']; reflexivity.
Qed.

(** One turn of the prompt loop: its events are those of the run, it
    returns unless the interpreter hangs, and when it returns [had_error]
    is false and [had_runtime_error] is set exactly by a runtime report. *)
Lemma repl_entry_summary (inp : string) (w : World) :
  trace (snd (repl_entry inp w)) = (trace w ++ events_during (repl_entry inp) w)%list
  /\ (fst (repl_entry inp w) = Returned tt \/ fst (repl_entry inp w) = Hangs)
  /\ (fst (repl_entry inp w) = Returned tt ->
      had_error (globals (snd (repl_entry inp w))) = false
      /\ had_runtime_error (globals (snd (repl_entry inp w)))
         = had_runtime_error (globals w)
           || existsb is_runtime_report (events_during (repl_entry inp) w)).
Proof.
  pose proof (run_summary inp (printed "> " EmptyString w))
    as (Htrace & _ & _ & Hrt & Hout).
  unfold events_during in *. rewrite repl_entry_eq.
  cbn [trace printed globals] in Htrace, Hrt, Hout.
  destruct (run inp (printed "> " EmptyString w)) as [o w1]. cbn [fst snd] in *.
  destruct Hout as [-> | (-> & _)].
  - fields.
    split; [exact Htrace|]. split; [now left|]. intros _. split; [reflexivity|exact Hrt].
  - cbn [fst snd]. split; [exact Htrace|]. split; [now right | discriminate].
Qed.

Lemma repl_entries_summary (lines : list string) (w : World) :
  trace (snd (repl_entries lines w))
  = (trace w ++ events_during (repl_entries lines) w)%list
  /\ (fst (repl_entries lines w) = Returned tt ->
      (lines <> [] -> had_error (globals (snd (repl_entries lines w))) = false)
      /\ had_runtime_error (globals (snd (repl_entries lines w)))
         = had_runtime_error (globals w)
           || existsb is_runtime_report (events_during (repl_entries lines) w)).
Proof.
  revert w. induction lines as [|inp lines IH]; intro w.
  - unfold events_during. cbn [repl_entries ret fst snd].
    replace (skipn (length (trace w)) (trace w)) with (@nil Event)
      by (rewrite <- (app_nil_r (trace w)) at 2; now rewrite skipn_length_app).
    cbn [existsb]. rewrite orb_false_r, app_nil_r. split; [reflexivity|].
    intros _. split; [congruence | reflexivity].
  - pose proof (repl_entry_summary inp w) as (Htrace & Hout & Hflags).
    specialize (IH (snd (repl_entry inp w))). destruct IH as [IHtrace IHflags].
    unfold events_during in *. cbn [repl_entries]. unfold bind.
    destruct (repl_entry inp w) as [o w1]. cbn [fst snd] in *.
    set (ev1 := skipn (length (trace w)) (trace w1)) in *. clearbody ev1.
    destruct Hout as [-> | ->]; cbn [fst snd].
    + destruct (Hflags eq_refl) as [Herr Hrt].
      set (ev2 := skipn (length (trace w1)) (trace (snd (repl_entries lines w1)))) in *.
      clearbody ev2.
      rewrite IHtrace, Htrace, <- app_assoc, skipn_length_app.
      split; [reflexivity|]. intro Hret.
      destruct (IHflags Hret) as [IHerr IHrt]. split.
      * intros _. destruct lines as [|inp' lines'].
        -- cbn [repl_entries ret snd]. exact Herr.
        -- apply IHerr. discriminate.
      * rewrite IHrt, Hrt, existsb_app, orb_assoc. reflexivity.
    + rewrite Htrace, skipn_length_app. split; [reflexivity | discriminate].
Qed.

Lemma repl_entries_app (first rest : list string) (w : World) :
  repl_entries (first ++ rest) w = (repl_entries first ;; repl_entries rest) w.
Proof.
  revert w. induction first as [|inp first IH]; intro w.
  - reflexivity.
  - cbn [app repl_entries]. rewrite bind_assoc. apply bind_ext. intros _ w'. apply IH.
Qed.

(** C5, as amended: [w1] being the world at the start of the processing
    of the line that follows the lines [first] of the input, [had_error]
    is false in [w1], whereas [had_runtime_error] is not reset: it is
    true in [w1] exactly when it was true before or one of the lines
    [first] ended in a reported runtime error. *)
Theorem prompt_resets_had_error_only
    (input : string) (first rest : list string) (w w1 : World) :
  lines_of input = (first ++ rest)%list ->
  first <> [] ->
  repl_entries first w = (Returned tt, w1) ->
  run_prompt input w = (repl_entries rest ;; print_end "> " EmptyString) w1
  /\ had_error (globals w1) = false
  /\ (had_runtime_error (globals w1) = true
      <-> had_runtime_error (globals w) = true
          \/ exists e, In (RuntimeReported e) (events_during (repl_entries first) w)).
Proof.
  intros Hlines Hfirst Hrun.
  split.
  - rewrite run_prompt_lines, Hlines.
    unfold bind at 1. rewrite repl_entries_app. unfold bind at 1. rewrite Hrun.
    reflexivity.
  - pose proof (repl_entries_summary first w) as [_ Hflags].
    rewrite Hrun in Hflags. cbn [fst snd] in Hflags.
    destruct (Hflags eq_refl) as [Herr Hrt].
    split; [now apply Herr|].
    rewrite Hrt, orb_true_iff, runtime_report_iff. reflexivity.
Qed.

(** C2, as amended: a turn of the prompt loop that starts with
    [had_error] false, as every turn does, returns unless the Lox program
    hangs, a runtime error included, and it ends and writes exactly as
    the same line does as the first line of a new process: [run] gives
    each line a new interpreter, so nothing a former line defined is
    there. *)
Theorem entry_runs_in_a_new_interpreter (inp : string) (w : World) :
  had_error (globals w) = false ->
  (fst (repl_entry inp w) = Returned tt \/ fst (repl_entry inp w) = Hangs)
  /\ fst (repl_entry inp w) = fst (repl_entry inp (start []))
  /\ stdout (snd (repl_entry inp w))
     = stdout w ++ stdout (snd (repl_entry inp (start [])))
  /\ stderr (snd (repl_entry inp w))
     = stderr w ++ stderr (snd (repl_entry inp (start [])))
  /\ events_during (repl_entry inp) w = trace (snd (repl_entry inp (start []))).
Proof.
  intro Hflag.
  split; [apply repl_entry_summary|].
  unfold events_during. rewrite !repl_entry_eq, !run_unfold.
  destruct (Scanner_scan_tokens inp) as [tokens scan_errors].
  destruct (Parser_parse tokens) as [result parse_errors]. cbv zeta.
  assert (Hnil : forall x : string, EmptyString ++ x = x) by reflexivity.
  destruct result as [program|];
    [|fields; rewrite <- ?app_assoc, ?skipn_length_app, ?append_assoc; auto].
  fields. rewrite Hflag. cbn [start globals had_error orb].
  destruct (any_error scan_errors || any_error parse_errors);
    [fields; rewrite <- ?app_assoc, ?skipn_length_app, ?append_assoc; auto|].
  destruct (Resolver_resolve_list program Interpreter_new) as [interpreter resolve_errors].
  fields. rewrite Hflag. cbn [start globals had_error orb].
  destruct (any_error scan_errors || any_error parse_errors || any_error resolve_errors);
    [fields; rewrite <- ?app_assoc, ?skipn_length_app, ?append_assoc; auto|].
  destruct (Interpreter_visit_statements program interpreter) as [output [|e|]];
    fields; rewrite <- ?app_assoc, ?skipn_length_app, ?append_assoc; auto.
Qed.

End DriverFacts.

(** * Properties of the parser *)

Section ParserFacts.
Local Open Scope parser_scope.

Lemma grow_same {A} (m : Parser A) :
  (forall st, errors (snd (m st)) = errors st) -> error_growing m.
Proof. intros H st. exists []. now rewrite app_nil_r. Qed.

Lemma grow_ret {A} (a : A) : error_growing (parser_ret a).
Proof. now apply grow_same. Qed.

Lemma grow_exhausted {A} : error_growing (@exhausted A).
Proof. now apply grow_same. Qed.

Lemma grow_raise {A} : error_growing (@raise_parse_error A).
Proof. now apply grow_same. Qed.

Lemma grow_bind {A B} (m : Parser A) (k : A -> Parser B) :
  error_growing m -> (forall a, error_growing (k a)) -> error_growing (parser_bind m k).
Proof.
  intros Hm Hk st. unfold parser_bind.
  destruct (Hm st) as [e1 H1].
  destruct (m st) as [[a| |] st1]; cbn [snd] in *; try (now exists e1).
  destruct (Hk a st1) as [e2 H2]. exists (e1 ++ e2)%list.
  now rewrite H2, H1, app_assoc.
Qed.

Lemma grow_peek : error_growing peek.
Proof. now apply grow_same. Qed.

Lemma grow_get_previous : error_growing get_previous.
Proof. now apply grow_same. Qed.

Lemma grow_advance : error_growing advance.
Proof.
  apply grow_same. intro st. unfold advance.
  destruct (tokens_left st) as [|t rest]; [reflexivity|].
  destruct (TokenType_beq (kind t) EOF); reflexivity.
Qed.

Lemma grow_new_node : error_growing new_node.
Proof. now apply grow_same. Qed.

Lemma grow_parse_error (t : Token) (message : string) :
  error_growing (parse_error t message).
Proof. intro st. eexists. reflexivity. Qed.

Lemma grow_is_at_end : error_growing is_at_end.
Proof. now apply grow_same. Qed.

Lemma grow_check (k : TokenType) : error_growing (check k).
Proof. now apply grow_same. Qed.

Lemma grow_match_any (kinds : list TokenType) : error_growing (match_any kinds).
Proof.
  unfold match_any. apply grow_bind; [apply grow_peek|]. intro t.
  destruct (negb (TokenType_beq (kind t) EOF) && kind_in kinds t).
  - apply grow_bind; [apply grow_advance | intro; apply grow_ret].
  - apply grow_ret.
Qed.

Lemma grow_consume (k : TokenType) (message : string) : error_growing (consume k message).
Proof.
  unfold consume. apply grow_bind; [apply grow_check|]. intros [|].
  - apply grow_advance.
  - apply grow_bind; [apply grow_peek|]. intro t.
    apply grow_bind; [apply grow_parse_error | intro; apply grow_raise].
Qed.

Lemma grow_synchronize : error_growing synchronize.
Proof.
  unfold synchronize. apply grow_bind; [apply grow_advance|]. intros _.
  apply grow_same. intro st.
  destruct (skip_to_boundary (previous st) (tokens_left st)). reflexivity.
Qed.

Lemma grow_recovering {A} (m : Parser A) : error_growing m -> error_growing (recovering m).
Proof.
  intros Hm st. unfold recovering.
  destruct (Hm st) as [e1 H1].
  destruct (m st) as [[a| |] st1]; cbn [snd] in *; try (now exists e1).
  destruct (grow_bind synchronize (fun _ => parser_ret (@None A)) grow_synchronize
              (fun _ => grow_ret (@None A)) st1) as [e2 H2].
  exists (e1 ++ e2)%list. now rewrite H2, H1, app_assoc.
Qed.

(** Splits a parsing method into its steps and settles those that are
    steps of the token level. *)
Ltac grow :=
  repeat first
    [ assumption
    | apply grow_ret
    | apply grow_exhausted
    | apply grow_raise
    | apply grow_peek
    | apply grow_get_previous
    | apply grow_advance
    | apply grow_new_node
    | apply grow_parse_error
    | apply grow_is_at_end
    | apply grow_check
    | apply grow_match_any
    | apply grow_consume
    | apply grow_bind; [|intro]
    | match goal with
      | |- error_growing (if ?b then _ else _) => destruct b
      | |- error_growing (match ?x with _ => _ end) => destruct x
      end ].

Lemma grow_left_assoc (operand : Parser Expr) (kinds : list TokenType)
    (make : Token -> Expr -> Expr -> Expr) (n : nat) (expr : Expr) :
  error_growing operand -> error_growing (left_assoc operand kinds make n expr).
Proof.
  intro H. revert expr. induction n as [|n IH]; intro expr; cbn [left_assoc]; grow.
  apply IH.
Qed.

Lemma grow_arguments_loop (operand : Parser Expr) (n : nat) (arguments : list Expr) :
  error_growing operand -> error_growing (arguments_loop operand n arguments).
Proof.
  intro H. revert arguments.
  induction n as [|n IH]; intro arguments; cbn [arguments_loop]; grow.
  apply IH.
Qed.

Lemma grow_call_loop (operand : Parser Expr) (n : nat) (expr : Expr) :
  error_growing operand -> error_growing (call_loop operand n expr).
Proof.
  intro H. revert expr. induction n as [|n IH]; intro expr; cbn [call_loop]; grow.
  - unfold finish_call. grow. apply grow_arguments_loop, H.
  - apply IH.
  - apply IH.
Qed.

Lemma grow_parse_expr (n : nat) (level : Level) : error_growing (parse_expr n level).
Proof.
  revert level. induction n as [|n IH]; intro level; cbn [parse_expr]; [grow|].
  destruct level; grow;
    try apply IH; try (apply grow_left_assoc, IH); try (apply grow_call_loop, IH).
Qed.

Lemma grow_parameters_loop (n : nat) (params : list Token) :
  error_growing (parameters_loop n params).
Proof.
  revert params. induction n as [|n IH]; intro params; cbn [parameters_loop]; grow.
  apply IH.
Qed.

Lemma grow_var_declaration (expression : Parser Expr) :
  error_growing expression -> error_growing (var_declaration expression).
Proof. intro H. unfold var_declaration. grow. Qed.

Lemma grow_expression_statement (expression : Parser Expr) :
  error_growing expression -> error_growing (expression_statement expression).
Proof. intro H. unfold expression_statement. grow. Qed.

Lemma grow_print_statement (expression : Parser Expr) :
  error_growing expression -> error_growing (print_statement expression).
Proof. intro H. unfold print_statement. grow. Qed.

Lemma grow_return_statement (expression : Parser Expr) :
  error_growing expression -> error_growing (return_statement expression).
Proof. intro H. unfold return_statement. grow. Qed.

Lemma grow_statements (n : nat) : statements_grow n.
Proof.
  induction n as [|n (Hd & Hs & Hb & Hf & Hm & Hc)].
  - repeat split; intros; apply grow_exhausted.
  - pose proof (grow_parse_expr n assignment) as He.
    pose proof (grow_var_declaration _ He) as Hv.
    pose proof (grow_expression_statement _ He) as Hx.
    pose proof (grow_print_statement _ He) as Hp.
    pose proof (grow_return_statement _ He) as Hr.
    repeat split; intros.
    + cbn [declaration]. apply grow_recovering. grow. apply Hf.
    + cbn [statement]. cbv zeta.
      apply grow_bind; [apply grow_peek|]. intro t.
      destruct (kind t); grow.
    + cbn [block]. grow.
    + cbn [function]. grow. apply grow_parameters_loop.
    + cbn [methods_loop]. grow. apply Hf.
    + cbn [class_declaration]. grow.
Qed.

Lemma grow_program_loop (n : nat) : error_growing (program_loop n).
Proof.
  induction n as [|n IH]; cbn [program_loop]; grow.
  apply grow_statements.
Qed.

(** The first declaration of a token list that opens with a parenthesis
    and the keyword [print]: the expression statement raises at the
    keyword. *)
Lemma statement_raises_at_print (n : nat) (l1 l2 : string) (x1 x2 : option LitValue)
    (n1 n2 : nat) (rest : list Token) (prev : Token) (errs : list Diagnostic)
    (node : nat) :
  (b <- match_any [CLASS] ;;
   if b then class_declaration (22 + n)
   else
     b <- match_any [FUN] ;;
     if b then function (22 + n) "function"
     else
       b <- match_any [VAR] ;;
       if b then var_declaration (parse_expr (22 + n) assignment)
       else statement (22 + n))
    (mkParserState (mkToken LEFT_PAREN l1 x1 n1 :: mkToken PRINT l2 x2 n2 :: rest)
                   prev errs node)
  = (Raised,
     mkParserState (mkToken PRINT l2 x2 n2 :: rest) (mkToken LEFT_PAREN l1 x1 n1)
                   (errs ++ [expect_expression (mkToken PRINT l2 x2 n2)]) node).
Proof. vm_compute. reflexivity. Qed.

Lemma synchronize_keeps_errors (st : ParserState) :
  exists st', (synchronize ;; parser_ret (@None Stmt)) st = (Ok None, st')
              /\ errors st' = errors st.
Proof.
  unfold synchronize, parser_bind, parser_ret.
  assert (H : exists t st1, advance st = (Ok t, st1) /\ errors st1 = errors st).
  { unfold advance. destruct (tokens_left st) as [|t rest]; [now exists (previous st), st|].
    destruct (TokenType_beq (kind t) EOF); [now exists (previous st), st|].
    do 2 eexists. split; reflexivity. }
  destruct H as (t & st1 & -> & H1).
  destruct (skip_to_boundary (previous st1) (tokens_left st1)) as [prev toks].
  eexists. split; [reflexivity|]. exact H1.
Qed.

Lemma program_loop_step (k : nat) :
  program_loop (S k)
  = (b <- is_at_end ;;
     if b then parser_ret []
     else d <- declaration k ;;
          rest <- program_loop k ;;
          parser_ret (cons_some d rest)).
Proof. reflexivity. Qed.

Lemma declaration_step (k : nat) :
  declaration (S k)
  = recovering
      (b <- match_any [CLASS] ;;
       if b then class_declaration k
       else
         b <- match_any [FUN] ;;
         if b then function k "function"
         else
           b <- match_any [VAR] ;;
           if b then var_declaration (parse_expr k assignment)
           else statement k).
Proof. reflexivity. Qed.

(** A token list that opens with a parenthesis and the keyword [print]
    does not parse without error: the first error the parser reports is
    that no expression starts at the keyword. *)
Lemma parse_reports_at_paren_print (l1 l2 : string) (x1 x2 : option LitValue)
    (n1 n2 : nat) (rest : list Token) :
  exists later,
    snd (Lox_parse (mkToken LEFT_PAREN l1 x1 n1 :: mkToken PRINT l2 x2 n2 :: rest))
    = expect_expression (mkToken PRINT l2 x2 n2) :: later.
Proof.
  unfold Lox_parse.
  assert (Hfuel : exists n,
             parser_fuel (mkToken LEFT_PAREN l1 x1 n1 :: mkToken PRINT l2 x2 n2 :: rest)
             = S (S (22 + n))).
  { eexists. unfold parser_fuel. reflexivity. }
  destruct Hfuel as [n ->].
  assert (H : exists st, errors st = [expect_expression (mkToken PRINT l2 x2 n2)]
                /\ program_loop (S (S (22 + n)))
                     (mkParserState
                        (mkToken LEFT_PAREN l1 x1 n1 :: mkToken PRINT l2 x2 n2 :: rest)
                        end_token [] 0)
                   = (rest' <- program_loop (S (22 + n)) ;;
                      parser_ret (cons_some None rest')) st).
  { rewrite program_loop_step. unfold parser_bind at 1.
    unfold is_at_end at 1. unfold parser_bind at 1. unfold peek at 1, parser_ret at 1.
    cbn [tokens_left hd kind TokenType_beq]. cbv iota beta.
    unfold parser_bind at 1.
    rewrite declaration_step.
    unfold recovering.
    rewrite statement_raises_at_print.
    match goal with |- context [(synchronize ;; parser_ret None) ?st1] =>
      destruct (synchronize_keeps_errors st1) as (st2 & -> & H2) end.
    exists st2. split; [|reflexivity].
    rewrite H2. reflexivity. }
  destruct H as (st & Herr & ->).
  assert (G : error_growing (rest' <- program_loop (S (22 + n)) ;;
                             parser_ret (cons_some None rest'))).
  { apply grow_bind; [apply grow_program_loop | intro; apply grow_ret]. }
  destruct (G st) as [extra E]. exists extra.
  destruct ((rest' <- program_loop (S (22 + n)) ;; parser_ret (cons_some None rest')) st)
    as [[p| |] st']; cbn [snd] in *; rewrite E, Herr; reflexivity.
Qed.

End ParserFacts.

(** * The printer against the parser *)

Local Open Scope string_scope.

(** The scan of a text that opens with [(print ]: a parenthesis, the
    keyword, and the scan of what follows. *)
Lemma scan_paren_print (fuel : nat) (text : string) (ln : nat) :
  scan (S (S fuel)) ("(print " ++ text) ln
  = emit (mkToken LEFT_PAREN "(" None ln)
         (emit (mkToken PRINT "print" None ln) (scan fuel (" " ++ text) ln)).
Proof. reflexivity. Qed.

(** The rendering of a program whose first statement is a [print]. *)
Lemma rendering_opens_with_print (token_str : Token -> string)
    (host_float_str : double -> string) (e : Expr) (rest : Program) :
  exists text,
    LispPrinter_print_program token_str host_float_str (Print e :: rest)
    = "(print " ++ text.
Proof.
  unfold LispPrinter_print_program, print_program, pbind.
  rewrite accept_all_at. cbn [pret fst map accept_stmt].
  unfold visit_print, pbind, pret.
  destruct (accept_expr token_str host_float_str e 0) as [v i]. cbn [fst].
  destruct (map (fun s => fst (accept_stmt token_str host_float_str s 0)) rest)
    as [|s ss]; cbn [join].
  - eexists. reflexivity.
  - exists (v ++ ")" ++ nl ++ join nl (s :: ss)).
    change ("(print " ++ v ++ ")") with ("(print " ++ (v ++ ")")).
    now rewrite !append_assoc.
Qed.

(** C7, as amended: the rendering is Lisp-style text and not Lox source.
    The empty program is the one that reads back as itself; the rendering
    of any program that starts with a [print] statement, read back by the
    scanner and the parser, reports the syntax error [Expect expression.]
    at [print] on line 1, which is the first error of the parser. *)
Theorem rendering_does_not_read_back (token_str : Token -> string) :
  reparse token_str [] = (Some [], [])
  /\ forall (e : Expr) (rest : Program),
       In (mkDiagnostic 1 " at 'print'" "Expect expression.")
          (snd (reparse token_str (Print e :: rest)))
       /\ exists scan_errors later,
            snd (reparse token_str (Print e :: rest))
            = (scan_errors
                 ++ mkDiagnostic 1 " at 'print'" "Expect expression." :: later)%list
            /\ scan_errors
               = snd (Lox_scan_tokens
                        (LispPrinter_print_program token_str python_float_str
                           (Print e :: rest))).
Proof.
  split; [reflexivity|].
  intros e rest.
  assert (H : exists scan_errors later,
            snd (reparse token_str (Print e :: rest))
            = (scan_errors
                 ++ mkDiagnostic 1 " at 'print'" "Expect expression." :: later)%list
            /\ scan_errors
               = snd (Lox_scan_tokens
                        (LispPrinter_print_program token_str python_float_str
                           (Print e :: rest)))).
  { unfold reparse, parse_source.
    destruct (rendering_opens_with_print token_str python_float_str e rest)
      as [text ->].
    unfold Lox_scan_tokens.
    change (String.length ("(print " ++ text))
      with (S (6 + String.length text)).
    rewrite scan_paren_print.
    destruct (scan (6 + String.length text) (" " ++ text) 1) as [tokens scan_errors].
    unfold emit. cbn [fst snd].
    destruct (parse_reports_at_paren_print "(" "print" None None 1 1 tokens)
      as [later H].
    destruct (Lox_parse _) as [result parse_errors]. cbn [snd] in *.
    exists scan_errors, later. split; [|reflexivity].
    rewrite H. reflexivity. }
  split; [|exact H].
  destruct H as (scan_errors & later & -> & _).
  apply in_or_app. right. now left.
Qed.

(** * The package at work *)

Local Open Scope string_scope.

(** The end-to-end scenarios of the specification, as far as the
    interpreter goes. *)
Example scenario_sum : interpreter_output sum_source = "7" ++ nl.
Proof. vm_compute. reflexivity. Qed.

Example scenario_strings :
  interpreter_output
    ("var a = " ++ dquote ++ "hi" ++ dquote ++ "; var b = a + " ++ dquote ++ " there"
       ++ dquote ++ "; print b;")
  = "hi there" ++ nl.
Proof. vm_compute. reflexivity. Qed.

Example scenario_counter :
  interpreter_output
    ("fun makeCounter() { var i = 0; fun c() { i = i + 1; return i; } return c; } "
       ++ "var c = makeCounter(); print c(); print c(); print c();")
  = "1" ++ nl ++ "2" ++ nl ++ "3" ++ nl.
Proof. vm_compute. reflexivity. Qed.

Example scenario_fib :
  interpreter_output
    "fun fib(n){ if(n<2) return n; return fib(n-1)+fib(n-2);} print fib(10);"
  = "55" ++ nl.
Proof. vm_compute. reflexivity. Qed.

Example scenario_super :
  interpreter_output
    ("class A { greet() { print " ++ dquote ++ "A" ++ dquote ++ "; } } "
       ++ "class B < A { greet() { super.greet(); print " ++ dquote ++ "B" ++ dquote
       ++ "; } } B().greet();")
  = "A" ++ nl ++ "B" ++ nl.
Proof. vm_compute. reflexivity. Qed.

Example scenario_initializer :
  interpreter_output "class P { init(x) { this.x = x; } } var p = P(7); print p.x;"
  = "7" ++ nl.
Proof. vm_compute. reflexivity. Qed.

(** Renderings of doubles, as Python gives them. *)
Example float_renderings :
  map python_float_str
      [double_of_decimal "1" EmptyString; double_of_decimal "0" "1";
       double_of_decimal "10000000000000000" EmptyString;
       double_of_decimal "0" "00001";
       double_div (double_of_decimal "1" EmptyString) (double_of_decimal "3" EmptyString);
       double_add (double_of_decimal "0" "1") (double_of_decimal "0" "2")]
  = ["1.0"; "0.1"; "1e+16"; "1e-05"; "0.3333333333333333"; "0.30000000000000004"].
Proof. vm_compute. reflexivity. Qed.

(** C1, refuted as stated: the standard output of a run of
    [print 1 + 2 * 3;] is neither [7] nor [7] and a newline. *)
Lemma print_sum_output_is_not_seven_alone :
  stdout (snd (run (pkg := plox) "print 1 + 2 * 3;" (start []))) <> "7"
  /\ stdout (snd (run (pkg := plox) "print 1 + 2 * 3;" (start []))) <> "7" ++ nl.
Proof. split; vm_compute; discriminate. Qed.

(** C1, as amended: a run of [print 1 + 2 * 3;] returns, writes nothing
    to standard error, and writes to standard output the Lisp rendering
    of the program on a line of its own and then the line [7]. *)
Theorem print_sum_output :
  fst (run (pkg := plox) "print 1 + 2 * 3;" (start [])) = Returned tt
  /\ stderr (snd (run (pkg := plox) "print 1 + 2 * 3;" (start []))) = EmptyString
  /\ stdout (snd (run (pkg := plox) "print 1 + 2 * 3;" (start [])))
     = "(print (+ 1.0 (* 2.0 3.0)))" ++ nl ++ "7" ++ nl.
Proof. repeat split; vm_compute; reflexivity. Qed.

(** C2, refuted as stated: in the session [var a = 1;] then [print a;],
    the second line does not print [1]; it ends in the runtime error of
    an undefined variable. *)
Lemma global_of_an_earlier_line_is_gone :
  fst (run_prompt (pkg := plox) session (start []))
  = Returned tt
  /\ stdout (snd (run_prompt (pkg := plox)
                    session (start [])))
     = "> (var a 1.0)" ++ nl ++ "> (print a)" ++ nl ++ "> "
  /\ stderr (snd (run_prompt (pkg := plox)
                    session (start [])))
     = "Undefined variable 'a'." ++ nl ++ "[line 1]" ++ nl.
Proof. repeat split; vm_compute; reflexivity. Qed.

(** C5, refuted as stated: after the line [print a;], which ends in a
    runtime error, the next turn of the loop starts with
    [had_runtime_error] true. *)
Lemma runtime_flag_is_not_reset :
  fst (repl_entries (pkg := plox) [read_line] (start [])) = Returned tt
  /\ had_runtime_error
       (globals (snd (repl_entries (pkg := plox) [read_line] (start []))))
     = true.
Proof. split; vm_compute; reflexivity. Qed.

(** C7, refuted as stated: [print 1 + 2 * 3;] parses without error to one
    statement; the rendering of that program, read back, gives a syntax
    error and no statement. *)
Lemma rendering_of_print_does_not_parse_back :
  parse_source sum_source = (Some sum_program, [])
  /\ length sum_program = 1%nat
  /\ reparse unknown_token_str sum_program
     = (Some [], [mkDiagnostic 1 " at 'print'" "Expect expression."]).
Proof. split; [|split]; vm_compute; reflexivity. Qed.

(** * The theorems at concrete inputs *)

Lemma rendering_written_before_execution_witness :
  had_error (globals (start [])) = false
  /\ Scanner_scan_tokens (Package := plox) session = (session_tokens, [])
  /\ Parser_parse (Package := plox) session_tokens = (Some session_program, [])
  /\ length session_program = 2%nat
  /\ stdout (snd (run (pkg := plox) session (start [])))
     = stdout (start [])
         ++ join nl (map (fun s => fst (accept_stmt (Token_str (Package := plox))
                                                    (float_str (Package := plox)) s 0))
                         session_program)
         ++ nl ++ execution_output (pkg := plox) session_program
  /\ LispPrinter_print_program (Token_str (Package := plox))
       (float_str (Package := plox)) session_program
     = join nl (map (fun s => fst (accept_stmt (Token_str (Package := plox))
                                                (float_str (Package := plox)) s 0))
                     session_program)
  /\ stdout (snd (run (pkg := plox) session (start [])))
     = stdout (start [])
         ++ LispPrinter_print_program (Token_str (Package := plox))
              (float_str (Package := plox)) session_program
         ++ nl ++ execution_output (pkg := plox) session_program
  /\ exists later,
       events_during (run (pkg := plox) session) (start [])
       = Called (scan_tokens_call session) :: Called parse_call
           :: Called print_program_call :: Called resolve_list_call :: later.
Proof.
  assert (H1 : had_error (globals (start [])) = false) by reflexivity.
  assert (H2 : Scanner_scan_tokens (Package := plox) session = (session_tokens, []))
    by (vm_compute; reflexivity).
  assert (H3 : Parser_parse (Package := plox) session_tokens
               = (Some session_program, []))
    by (vm_compute; reflexivity).
  split; [exact H1|]. split; [exact H2|]. split; [exact H3|].
  split; [vm_compute; reflexivity|].
  exact (@rendering_written_before_execution plox session (start [])
           session_tokens session_program H1 H2 H3).
Defined.

Lemma static_error_skips_execution_witness :
  (exists d, In (Reported d) (events_during (run (pkg := plox) "print 1 +;") (start [])))
  /\ ~ In (Called visit_statements_call)
          (events_during (run (pkg := plox) "print 1 +;") (start []))
  /\ errors_before_resolution (pkg := plox) "print 1 +;" <> []
  /\ ~ In (Called resolve_list_call)
          (events_during (run (pkg := plox) "print 1 +;") (start []))
  /\ (exists d, In (Reported d) (events_during (run (pkg := plox) "return 1;") (start [])))
  /\ In (Called resolve_list_call)
        (events_during (run (pkg := plox) "return 1;") (start []))
  /\ ~ In (Called visit_statements_call)
          (events_during (run (pkg := plox) "return 1;") (start [])).
Proof.
  assert (H1 : exists d, In (Reported d)
                 (events_during (run (pkg := plox) "print 1 +;") (start []))).
  { exists (mkDiagnostic 1 " at ';'" "Expect expression.").
    vm_compute. right. right. left. reflexivity. }
  assert (H2 : errors_before_resolution (pkg := plox) "print 1 +;" <> [])
    by (vm_compute; discriminate).
  assert (H3 : exists d, In (Reported d)
                 (events_during (run (pkg := plox) "return 1;") (start []))).
  { exists (mkDiagnostic 1 " at 'return'" "Can't return from top-level code.").
    vm_compute. do 4 right. left. reflexivity. }
  split; [exact H1|].
  split; [exact (proj1 (@static_error_skips_execution plox "print 1 +;" (start []))
                   (or_intror H1))|].
  split; [exact H2|].
  split; [exact (proj1 (proj2 (proj2 (@static_error_skips_execution plox "print 1 +;"
                                        (start [])) (or_intror H2))))|].
  split; [exact H3|].
  split; [vm_compute; do 3 right; left; reflexivity|].
  exact (proj1 (@static_error_skips_execution plox "return 1;" (start []))
           (or_intror H3)).
Defined.

Lemma main_dispatches_on_arguments_witness :
  (2 < length ["plox"; "a.lox"; "b.lox"])%nat
  /\ main (pkg := plox) ["plox"; "a.lox"; "b.lox"] EmptyString (start [])
     = (SystemExit 64, printed "Usage: plox [script]" nl (start []))
  /\ (length ["plox"] <= 1)%nat
  /\ main (pkg := plox) ["plox"] session (start [])
     = run_prompt (pkg := plox) session (start [])
  /\ length ["plox"; "sum.lox"] = 2%nat
  /\ lookup_file (nth 1 ["plox"; "sum.lox"] EmptyString)
       (files (start [("sum.lox", sum_source)])) = Some sum_source
  /\ snd (main (pkg := plox) ["plox"; "sum.lox"] EmptyString
             (start [("sum.lox", sum_source)]))
     = snd (run (pkg := plox) sum_source (start [("sum.lox", sum_source)]))
  /\ (exists later,
        events_during (main (pkg := plox) ["plox"; "sum.lox"] EmptyString)
                      (start [("sum.lox", sum_source)])
        = Called (scan_tokens_call sum_source) :: later)
  /\ lookup_file (nth 1 ["plox"; "none.lox"] EmptyString)
       (files (start [("sum.lox", sum_source)])) = None
  /\ main (pkg := plox) ["plox"; "none.lox"] EmptyString
          (start [("sum.lox", sum_source)])
     = (Uncaught "OSError", start [("sum.lox", sum_source)]).
Proof.
  assert (H1 : (2 < length ["plox"; "a.lox"; "b.lox"])%nat) by (simpl; lia).
  assert (H2 : (length ["plox"] <= 1)%nat) by (simpl; lia).
  assert (H3 : length ["plox"; "sum.lox"] = 2%nat) by reflexivity.
  assert (H4 : lookup_file (nth 1 ["plox"; "sum.lox"] EmptyString)
                 (files (start [("sum.lox", sum_source)])) = Some sum_source)
    by reflexivity.
  assert (H5 : length ["plox"; "none.lox"] = 2%nat) by reflexivity.
  assert (H6 : lookup_file (nth 1 ["plox"; "none.lox"] EmptyString)
                 (files (start [("sum.lox", sum_source)])) = None)
    by reflexivity.
  split; [exact H1|].
  split; [exact (proj1 (proj2 (proj2 (@main_dispatches_on_arguments plox
                                        ["plox"; "a.lox"; "b.lox"] EmptyString
                                        (start []))) H1))|].
  split; [exact H2|].
  split; [exact (proj1 (proj1 (@main_dispatches_on_arguments plox ["plox"] session
                                 (start [])) H2))|].
  split; [exact H3|]. split; [exact H4|].
  pose proof (proj1 (proj2 (proj1 (proj2 (@main_dispatches_on_arguments plox
                                            ["plox"; "sum.lox"] EmptyString
                                            (start [("sum.lox", sum_source)]))) H3))
                sum_source H4) as (_ & Hworld & Hscan).
  split; [exact Hworld|]. split; [exact Hscan|].
  split; [exact H6|].
  exact (proj1 (proj2 (proj2 (proj1 (proj2 (@main_dispatches_on_arguments plox
                                              ["plox"; "none.lox"] EmptyString
                                              (start [("sum.lox", sum_source)]))) H5))
                  H6)).
Defined.

Lemma exit_codes_witness :
  lookup_file "bad.lox" [("bad.lox", "print 1 +;")] = Some "print 1 +;"
  /\ exit_status (fst (main (pkg := plox) ["plox"; "bad.lox"] EmptyString
                         (start [("bad.lox", "print 1 +;")]))) = Some 65
  /\ lookup_file "fail.lox" [("fail.lox", "print a;")] = Some "print a;"
  /\ exit_status (fst (main (pkg := plox) ["plox"; "fail.lox"] EmptyString
                         (start [("fail.lox", "print a;")]))) = Some 70
  /\ lookup_file "sum.lox" [("sum.lox", sum_source)] = Some sum_source
  /\ exit_status (fst (main (pkg := plox) ["plox"; "sum.lox"] EmptyString
                         (start [("sum.lox", sum_source)]))) = Some 0
  /\ exit_status (fst (main (pkg := plox) ["plox"; "a.lox"; "b.lox"] EmptyString
                         (start []))) = Some 64.
Proof.
  assert (F1 : lookup_file "bad.lox" [("bad.lox", "print 1 +;")] = Some "print 1 +;")
    by reflexivity.
  assert (F2 : lookup_file "fail.lox" [("fail.lox", "print a;")] = Some "print a;")
    by reflexivity.
  assert (F3 : lookup_file "sum.lox" [("sum.lox", sum_source)] = Some sum_source)
    by reflexivity.
  split; [exact F1|]. split.
  { apply (proj1 (proj2 (@exit_codes plox ["plox"; "bad.lox"] EmptyString
                           [("bad.lox", "print 1 +;")])
                    "plox" "bad.lox" "print 1 +;" eq_refl F1)).
    exists (mkDiagnostic 1 " at ';'" "Expect expression.").
    vm_compute. right. right. left. reflexivity. }
  split; [exact F2|]. split.
  { apply (proj1 (proj2 (proj2 (@exit_codes plox ["plox"; "fail.lox"] EmptyString
                                  [("fail.lox", "print a;")])
                           "plox" "fail.lox" "print a;" eq_refl F2))).
    - intros d H. vm_compute in H.
      repeat (destruct H as [H | H]; [discriminate|]). exact H.
    - exists (mkRuntimeError (mkToken IDENTIFIER "a" None 1) "Undefined variable 'a'.").
      vm_compute. do 5 right. left. reflexivity. }
  split; [exact F3|]. split.
  { apply (proj2 (proj2 (proj2 (@exit_codes plox ["plox"; "sum.lox"] EmptyString
                                  [("sum.lox", sum_source)])
                           "plox" "sum.lox" sum_source eq_refl F3))).
    - intros d H. vm_compute in H.
      repeat (destruct H as [H | H]; [discriminate|]). exact H.
    - intros e H. vm_compute in H.
      repeat (destruct H as [H | H]; [discriminate|]). exact H.
    - vm_compute. discriminate. }
  apply (proj1 (@exit_codes plox ["plox"; "a.lox"; "b.lox"] EmptyString [])).
  simpl. lia.
Defined.

Lemma prompt_resets_had_error_only_witness :
  lines_of failing_session = ([read_line] ++ [one_line])%list
  /\ [read_line] <> []
  /\ repl_entries (pkg := plox) [read_line] (start [])
     = (Returned tt, after_failing_line)
  /\ run_prompt (pkg := plox) failing_session (start [])
     = bind (repl_entries (pkg := plox) [one_line]) (fun _ => print_end "> " EmptyString)
            after_failing_line
  /\ had_error (globals after_failing_line) = false
  /\ (had_runtime_error (globals after_failing_line) = true
      <-> had_runtime_error (globals (start [])) = true
          \/ exists e, In (RuntimeReported e)
                          (events_during (repl_entries (pkg := plox) [read_line])
                                         (start []))).
Proof.
  assert (H1 : lines_of failing_session
               = ([read_line] ++ [one_line])%list) by reflexivity.
  assert (H2 : [read_line] <> []) by discriminate.
  assert (H3 : repl_entries (pkg := plox) [read_line] (start [])
               = (Returned tt, after_failing_line)) by (vm_compute; reflexivity).
  split; [exact H1|]. split; [exact H2|]. split; [exact H3|].
  exact (@prompt_resets_had_error_only plox failing_session [read_line]
           [one_line] (start []) after_failing_line H1 H2 H3).
Defined.

Lemma entry_runs_in_a_new_interpreter_witness :
  had_error (globals after_first_line) = false
  /\ (fst (repl_entry (pkg := plox) read_line after_first_line) = Returned tt
      \/ fst (repl_entry (pkg := plox) read_line after_first_line) = Hangs)
  /\ fst (repl_entry (pkg := plox) read_line after_first_line)
     = fst (repl_entry (pkg := plox) read_line (start []))
  /\ stdout (snd (repl_entry (pkg := plox) read_line after_first_line))
     = stdout after_first_line
         ++ stdout (snd (repl_entry (pkg := plox) read_line (start [])))
  /\ stderr (snd (repl_entry (pkg := plox) read_line after_first_line))
     = stderr after_first_line
         ++ stderr (snd (repl_entry (pkg := plox) read_line (start [])))
  /\ events_during (repl_entry (pkg := plox) read_line) after_first_line
     = trace (snd (repl_entry (pkg := plox) read_line (start []))).
Proof.
  assert (H : had_error (globals after_first_line) = false) by (vm_compute; reflexivity).
  split; [exact H|].
  exact (@entry_runs_in_a_new_interpreter plox read_line after_first_line H).
Defined.

(** * More about the printer *)

(** Runs two visits that the hypotheses equate, step by step. *)
Ltac same_visits :=
  repeat first
    [ reflexivity
    | match goal with
      | H : forall i : Z, _ = _ |- _ => rewrite H
      end
    | match goal with
      | |- context [let (_, _) := ?m in _] => destruct m
      end ].

Section PrinterLayout.
Variable token_str : Token -> string.
Variable host_float_str : double -> string.

Local Open Scope printer_scope.

Local Notation "'accept_e'" := (accept_expr token_str host_float_str).
Local Notation "'accept_s'" := (accept_stmt token_str host_float_str).

(** The list comprehension of the printer over children that restore the
    indent: each child is rendered at the current indent, behind that
    many spaces. *)
Lemma indented_lines_at {A} (accept : A -> Printer string) (xs : list A) (indent : Z) :
  (forall x, restores accept x) ->
  indented_lines accept xs indent
  = (map (fun x => str_mul " " indent ++ fst (accept x indent)) xs, indent).
Proof.
  intro H. induction xs as [|x xs IH]; [reflexivity|].
  cbn [indented_lines map]. unfold pbind, print_indent, pret in *.
  pose proof (H x indent) as E.
  destruct (accept x indent) as [s j]. cbn [fst snd] in *. subst j.
  rewrite IH. reflexivity.
Qed.

Lemma comprehension_at {A} (accept : A -> Printer string) (xs : list A) (indent : Z)
    (head : string) :
  (forall x, restores accept x) ->
  fst ((indent_add 4 ;;
        ls <- indented_lines accept xs ;;
        indent_add (-4) ;;
        pret ((head ++ nl ++ join nl ls) ++ ")")) indent)
  = head ++ nl ++ join nl (map (laid_out accept indent) xs) ++ ")".
Proof.
  intro H. unfold pbind at 1. unfold indent_add at 1. unfold pbind at 1.
  rewrite (indented_lines_at accept xs (indent + 4) H).
  unfold pbind, indent_add, pret. cbn [fst]. now rewrite !append_assoc.
Qed.

(** X1: the children of a block, of a call, of a function and of a
    class are each rendered four columns deeper than the node and put on
    a line of their own behind that many spaces.  A block, a call and a
    class without children stay on one line; a function has the line
    break after its header even when its body is empty. *)
Theorem children_are_laid_out_four_deeper (indent : Z) :
  (forall statements,
     fst (accept_s (Block statements) indent)
     = match statements with
       | [] => "(block)"
       | _ :: _ => "(block" ++ nl ++ join nl (map (laid_out accept_s indent) statements)
                     ++ ")"
       end)
  /\ (forall callee paren arguments,
        fst (accept_e (Call callee paren arguments) indent)
        = match arguments with
          | [] => "(call " ++ fst (accept_e callee indent) ++ ")"
          | _ :: _ => "(call " ++ fst (accept_e callee indent) ++ nl
                        ++ join nl (map (laid_out accept_e indent) arguments) ++ ")"
          end)
  /\ (forall name params body,
        fst (accept_s (Function name params body) indent)
        = "(func " ++ lexeme name ++ " (" ++ join " " (map lexeme params) ++ ")" ++ nl
            ++ join nl (map (laid_out accept_s indent) body) ++ ")")
  /\ (forall name superclass methods,
        fst (accept_s (Class name superclass methods) indent)
        = "(class " ++ lexeme name
            ++ match superclass with
               | Some (super_name, _) => " (< " ++ lexeme super_name ++ ")"
               | None => EmptyString
               end
            ++ match methods with
               | [] => ")"
               | _ :: _ => nl ++ join nl (map (laid_out accept_s indent) methods) ++ ")"
               end).
Proof.
  pose proof (accept_expr_restores token_str host_float_str) as He.
  pose proof (accept_stmt_restores token_str host_float_str) as Hs.
  split; [|split; [|split]].
  - intros [|s ss]; [reflexivity|].
    exact (comprehension_at accept_s (s :: ss) indent "(block" Hs).
  - intros callee paren arguments. cbn [accept_expr]. unfold visit_call.
    unfold pbind at 1. pose proof (He callee indent) as Ec.
    destruct (accept_expr token_str host_float_str callee indent) as [c j].
    cbn [fst snd] in *. subst j.
    destruct arguments as [|a args]; [reflexivity|].
    rewrite (comprehension_at accept_e (a :: args) indent ("(call " ++ c) He).
    now rewrite !append_assoc.
  - intros name params body.
    etransitivity;
      [exact (comprehension_at accept_s body indent
                ("(func " ++ lexeme name ++ " (" ++ join " " (map lexeme params) ++ ")")
                Hs)|].
    now rewrite !append_assoc.
  - intros name superclass [|m ms].
    + destruct superclass as [[super_name node]|]; cbn [accept_stmt visit_class pret fst];
        now rewrite ?append_assoc.
    + etransitivity;
        [exact (comprehension_at accept_s (m :: ms) indent
                  (match superclass with
                   | Some (super_name, _) =>
                       "(class " ++ lexeme name ++ " (< " ++ lexeme super_name ++ ")"
                   | None => "(class " ++ lexeme name
                   end) Hs)|].
      destruct superclass as [[super_name node]|]; now rewrite ?append_assoc.
Qed.

(** X2: in an [if], the condition is rendered at the indent of the node,
    the then-branch four columns deeper behind that many spaces, but the
    else-branch at the indent of the node itself, behind only that many
    spaces: it is printed after the indent was taken back.  The body of a
    [while] is laid out like a then-branch. *)
Theorem else_branch_is_not_indented (indent : Z) (condition : Expr) (body : Stmt) :
  fst (accept_s (If condition body None) indent)
  = "(if " ++ fst (accept_e condition indent) ++ nl
      ++ laid_out accept_s indent body ++ ")"
  /\ (forall else_branch,
        fst (accept_s (If condition body (Some else_branch)) indent)
        = "(if " ++ fst (accept_e condition indent) ++ nl
            ++ laid_out accept_s indent body ++ nl
            ++ str_mul " " indent ++ fst (accept_s else_branch indent) ++ ")")
  /\ fst (accept_s (While condition body) indent)
     = "(while " ++ fst (accept_e condition indent) ++ nl
         ++ laid_out accept_s indent body ++ ")".
Proof.
  pose proof (accept_expr_restores token_str host_float_str condition indent) as Ec.
  pose proof (accept_stmt_restores token_str host_float_str body (indent + 4)) as Eb.
  unfold laid_out.
  cbn [accept_stmt]. unfold visit_if, visit_while, pbind, indent_add, print_indent, pret.
  destruct (accept_expr token_str host_float_str condition indent) as [c j].
  cbn [fst snd] in *. subst j.
  destruct (accept_stmt token_str host_float_str body (indent + 4)) as [b j].
  cbn [fst snd] in *. subst j.
  replace (indent + 4 + -4) with indent by lia.
  split; [|split].
  - cbn [fst]. now rewrite !append_assoc.
  - intro else_branch.
    pose proof (accept_stmt_restores token_str host_float_str else_branch indent) as Ee.
    destruct (accept_stmt token_str host_float_str else_branch indent) as [e j].
    cbn [fst snd] in *. subst j. now rewrite !append_assoc.
  - cbn [fst]. now rewrite !append_assoc.
Qed.

Lemma join_app (sep : string) (xs ys : list string) :
  join sep (xs ++ ys)%list
  = match xs, ys with
    | [], _ => join sep ys
    | _, [] => join sep xs
    | _ :: _, _ :: _ => join sep xs ++ sep ++ join sep ys
    end.
Proof.
  induction xs as [|x xs IH].
  - reflexivity.
  - destruct ys as [|y ys]; [now rewrite app_nil_r|].
    cbn [app]. destruct xs as [|x' xs].
    + reflexivity.
    + change (join sep (x :: (x' :: xs) ++ y :: ys)%list)
        with (x ++ sep ++ join sep ((x' :: xs) ++ y :: ys)%list).
      rewrite IH.
      change (join sep (x :: x' :: xs)) with (x ++ sep ++ join sep (x' :: xs)).
      now rewrite !append_assoc.
Qed.

(** X4: the rendering of two programs put one after the other is the
    rendering of the first, a newline, and the rendering of the second;
    when one of them is empty, it is the rendering of the other alone. *)
Theorem print_program_of_concatenation (first second : Program) :
  LispPrinter_print_program token_str host_float_str (first ++ second)%list
  = match first, second with
    | [], _ => LispPrinter_print_program token_str host_float_str second
    | _, [] => LispPrinter_print_program token_str host_float_str first
    | _ :: _, _ :: _ =>
        LispPrinter_print_program token_str host_float_str first ++ nl
          ++ LispPrinter_print_program token_str host_float_str second
    end.
Proof.
  unfold LispPrinter_print_program, print_program, pbind, pret.
  rewrite !accept_all_at. cbn [fst]. rewrite map_app, join_app.
  destruct first, second; reflexivity.
Qed.

Lemma indented_lines_map {A} (accept : A -> Printer string) (f : A -> A) (xs : list A) :
  list_all A (fun x => forall i, accept (f x) i = accept x i) xs ->
  forall i, indented_lines accept (map f xs) i = indented_lines accept xs i.
Proof.
  induction 1 as [|x Hx xs _ IH]; intro i; [reflexivity|].
  cbn [map indented_lines]. unfold pbind. rewrite Hx.
  destruct (accept x i) as [s j]. unfold print_indent, pret. now rewrite IH.
Qed.

Lemma strip_expr_renders_alike (e : Expr) :
  forall i, accept_e (strip_expr e) i = accept_e e i.
Proof.
  induction e as
    [v | e IH | op r IHr | op l IHl r IHr | op l IHl r IHr | n k
    | n v IHv k | c IHc p args IHargs | o IHo n | o IHo n v IHv | k n | k m n];
    intro i; cbn [strip_expr accept_expr];
    unfold visit_grouping, visit_unary, visit_binary, visit_logical, visit_variable,
      visit_assign, visit_call, visit_get, visit_set, visit_this, visit_super, pbind;
    cbn [lexeme_only lexeme]; try solve [same_visits].
  rewrite IHc. destruct (accept_e c i) as [sc j].
  destruct args as [|a args]; [reflexivity|].
  cbn [map]. cbv beta.
  change (strip_expr a :: map strip_expr args) with (map strip_expr (a :: args)).
  unfold indent_add.
  rewrite (indented_lines_map accept_e strip_expr (a :: args) IHargs). reflexivity.
Qed.

(** X5: the printer reads of a syntax tree only the lexemes of its
    tokens, the literal values and the operator tokens of [Unary] nodes:
    two trees that differ in source lines, in the kinds and literals of
    tokens, in node identities, in the parenthesis of a call or in the
    keyword of [this] and [return] have the same rendering and leave the
    same indent. *)
Theorem rendering_reads_lexemes_only (s : Stmt) (indent : Z) :
  accept_s (strip_stmt s) indent = accept_s s indent.
Proof.
  revert indent.
  induction s as
    [e | e | n [i|] | ss IHss | c t IHt e IHe | c b IHb | n ps b IHb
    | k [v|] | n sc ms IHms];
    intro indent; cbn [strip_stmt accept_stmt option_map];
    unfold visit_expression, visit_print, visit_var, visit_block, visit_if, visit_while,
      visit_function, visit_return, visit_class, pbind;
    cbn [lexeme_only lexeme]; rewrite ?strip_expr_renders_alike;
    try solve [same_visits].
  - destruct ss as [|s ss]; [reflexivity|].
    cbn [map]. cbv beta.
    change (strip_stmt s :: map strip_stmt ss) with (map strip_stmt (s :: ss)).
    unfold indent_add.
    rewrite (indented_lines_map accept_s strip_stmt (s :: ss) IHss). reflexivity.
  - destruct (accept_e c indent) as [sc j]. unfold indent_add.
    rewrite IHt. destruct (accept_s t (j + 4)) as [st j'].
    unfold print_indent.
    destruct IHe as [e IHe|]; cbn [option_map]; [|reflexivity].
    now rewrite IHe.
  - unfold indent_add.
    rewrite (indented_lines_map accept_s strip_stmt b IHb).
    now rewrite map_map.
  - unfold indent_add.
    destruct sc as [[super_name node]|]; cbn [option_map fst lexeme_only lexeme];
      (destruct ms as [|m ms]; [reflexivity|]);
      cbn [map]; cbv beta;
      change (strip_stmt m :: map strip_stmt ms) with (map strip_stmt (m :: ms));
      unfold indent_add;
      rewrite (indented_lines_map accept_s strip_stmt (m :: ms) IHms); reflexivity.
Qed.

End PrinterLayout.

Section TokenStr.
Variable token_str other_token_str : Token -> string.
Variable host_float_str : double -> string.

Local Open Scope printer_scope.

Local Notation "'accept_e'" := (accept_expr token_str host_float_str).
Local Notation "'accept_s'" := (accept_stmt token_str host_float_str).
Local Notation "'accept_e''" := (accept_expr other_token_str host_float_str).
Local Notation "'accept_s''" := (accept_stmt other_token_str host_float_str).

Lemma indented_lines_alike {A} (accept accept' : A -> Printer string)
    (free : A -> bool) (xs : list A) :
  list_all A (fun x => free x = true -> forall i, accept x i = accept' x i) xs ->
  forallb free xs = true ->
  forall i, indented_lines accept xs i = indented_lines accept' xs i.
Proof.
  induction 1 as [|x Hx xs _ IH]; intros Hfree i; [reflexivity|].
  cbn [forallb] in Hfree. apply andb_true_iff in Hfree. destruct Hfree as [Hx' Hxs].
  cbn [indented_lines]. unfold pbind. rewrite (Hx Hx').
  destruct (accept' x i) as [s j]. unfold print_indent, pret. now rewrite (IH Hxs).
Qed.

(** Splits the hypothesis that a node is free of [Unary] into those of
    its parts. *)
Ltac split_free :=
  repeat match goal with
         | H : _ && _ = true |- _ => apply andb_true_iff in H; destruct H
         end.

Lemma unary_free_expr_renders_alike (e : Expr) :
  unary_free_expr e = true -> forall i, accept_e e i = accept_e' e i.
Proof.
  induction e as
    [v | e IH | op r IHr | op l IHl r IHr | op l IHl r IHr | n k
    | n v IHv k | c IHc p args IHargs | o IHo n | o IHo n v IHv | k n | k m n];
    cbn [unary_free_expr]; intros Hfree i; try discriminate; split_free;
    cbn [accept_expr];
    unfold visit_grouping, visit_binary, visit_logical, visit_variable,
      visit_assign, visit_call, visit_get, visit_set, visit_this, visit_super, pbind;
    repeat match goal with
           | IH : ?P = true -> _, H : ?P = true |- _ => specialize (IH H)
           end;
    try solve [same_visits].
  rewrite IHc. destruct (accept_e' c i) as [sc j].
  destruct args as [|a args]; [reflexivity|].
  unfold indent_add.
  rewrite (indented_lines_alike accept_e accept_e' unary_free_expr (a :: args) IHargs)
    by assumption.
  reflexivity.
Qed.

(** X6: the string form of a token is asked for at [Unary] nodes only.
    A statement without a [Unary] node has the same rendering, and leaves
    the same indent, whatever [str] of a token gives. *)
Theorem token_str_matters_for_unary_only (s : Stmt) :
  unary_free_stmt s = true ->
  forall indent, accept_s s indent = accept_s' s indent.
Proof.
  induction s as
    [e | e | n [i|] | ss IHss | c t IHt e IHe | c b IHb | n ps b IHb
    | k [v|] | n sc ms IHms];
    cbn [unary_free_stmt unary_free_option]; intros Hfree indent; split_free;
    cbn [accept_stmt];
    unfold visit_expression, visit_print, visit_var, visit_block, visit_if, visit_while,
      visit_function, visit_return, visit_class, pbind;
    repeat match goal with
           | H : unary_free_expr ?e = true |- _ =>
               rewrite (unary_free_expr_renders_alike e H); clear H
           end;
    repeat match goal with
           | IH : ?P = true -> _, H : ?P = true |- _ => specialize (IH H)
           end;
    try solve [same_visits].
  - destruct ss as [|s ss]; [reflexivity|].
    unfold indent_add.
    rewrite (indented_lines_alike accept_s accept_s' unary_free_stmt (s :: ss) IHss)
      by assumption.
    reflexivity.
  - destruct (accept_e' c indent) as [sc j]. unfold indent_add.
    rewrite IHt. destruct (accept_s' t (j + 4)) as [st j'].
    unfold print_indent.
    destruct IHe as [e IHe|]; [|reflexivity].
    now rewrite (IHe ltac:(assumption)).
  - unfold indent_add.
    rewrite (indented_lines_alike accept_s accept_s' unary_free_stmt b IHb)
      by assumption.
    reflexivity.
  - destruct ms as [|m ms]; [reflexivity|].
    unfold indent_add.
    rewrite (indented_lines_alike accept_s accept_s' unary_free_stmt (m :: ms) IHms)
      by assumption.
    reflexivity.
Qed.

End TokenStr.

Section PureRendering.
Variable token_str : Token -> string.
Variable host_float_str : double -> string.

Local Open Scope printer_scope.

Local Notation "'accept_e'" := (accept_expr token_str host_float_str).
Local Notation "'accept_s'" := (accept_stmt token_str host_float_str).
Local Notation "'text_e'" := (text_expr token_str host_float_str).
Local Notation "'text_s'" := (text_stmt token_str host_float_str).

Lemma indented_lines_text {A} (accept : A -> Printer string) (text : A -> Z -> string)
    (xs : list A) :
  list_all A (fun x => forall i, accept x i = (text x i, i)) xs ->
  forall i, indented_lines accept xs i
            = (map (fun x => str_mul " " i ++ text x i) xs, i).
Proof.
  induction 1 as [|x Hx xs _ IH]; intro i; [reflexivity|].
  cbn [indented_lines map]. unfold pbind. rewrite Hx.
  unfold print_indent, pret. now rewrite IH.
Qed.

(** Closes an equation between two results of the printer. *)
Ltac settle_pair :=
  unfold pret; f_equal; first [lia | now rewrite ?append_assoc].

(** Runs the visits whose result the hypotheses give. *)
Ltac by_text :=
  repeat match goal with
         | H : forall i : Z, _ = (_, i) |- _ => rewrite H
         end;
  unfold pret; rewrite ?append_assoc; try reflexivity.

Lemma accept_expr_text (e : Expr) :
  forall i, accept_e e i = (text_e e i, i).
Proof.
  induction e as
    [v | e IH | op r IHr | op l IHl r IHr | op l IHl r IHr | n k
    | n v IHv k | c IHc p args IHargs | o IHo n | o IHo n v IHv | k n | k m n];
    intro i; cbn [accept_expr text_expr];
    unfold visit_grouping, visit_unary, visit_binary, visit_logical, visit_variable,
      visit_assign, visit_call, visit_get, visit_set, visit_this, visit_super, pbind;
    try solve [by_text].
  - destruct v as [| [|] | d | s]; reflexivity.
  - rewrite IHc.
    destruct args as [|a args]; [by_text|].
    unfold indent_add.
    rewrite (indented_lines_text accept_e text_e (a :: args) IHargs).
    settle_pair.
Qed.

Lemma accept_stmt_text (s : Stmt) :
  forall i, accept_s s i = (text_s s i, i).
Proof.
  induction s as
    [e | e | n [v|] | ss IHss | c t IHt e IHe | c b IHb | n ps b IHb
    | k [v|] | n sc ms IHms];
    intro i; cbn [accept_stmt text_stmt];
    unfold visit_expression, visit_print, visit_var, visit_block, visit_if, visit_while,
      visit_function, visit_return, visit_class, pbind;
    rewrite ?accept_expr_text; try solve [by_text].
  - destruct ss as [|s ss]; [reflexivity|].
    unfold indent_add.
    rewrite (indented_lines_text accept_s text_s (s :: ss) IHss).
    settle_pair.
  - unfold indent_add, print_indent. rewrite IHt.
    replace (i + 4 + -4) with i by lia.
    destruct IHe as [e IHe|].
    + rewrite IHe. settle_pair.
    + settle_pair.
  - unfold indent_add, print_indent. rewrite IHb.
    settle_pair.
  - unfold indent_add.
    rewrite (indented_lines_text accept_s text_s b IHb).
    settle_pair.
  - destruct ms as [|m ms].
    + destruct sc as [[super_name node]|]; settle_pair.
    + unfold indent_add.
      rewrite (indented_lines_text accept_s text_s (m :: ms) IHms).
      destruct sc as [[super_name node]|]; settle_pair.
Qed.

(** *** Rendering at a deeper indent *)

Lemma shift_app (pad a b : string) :
  shift pad (a ++ b) = shift pad a ++ shift pad b.
Proof.
  induction a as [|c a IH]; [reflexivity|].
  cbn [append shift]. destruct (is_newline c); cbn [append]; rewrite IH.
  - now rewrite append_assoc.
  - reflexivity.
Qed.

Lemma shift_no_newline (pad s : string) :
  no_newline s = true -> shift pad s = s.
Proof.
  induction s as [|c s IH]; [reflexivity|].
  cbn [no_newline shift]. intro H. apply andb_prop in H as [Hc Hs].
  destruct (is_newline c); [discriminate|]. now rewrite IH.
Qed.

Lemma shift_nl (pad : string) : shift pad nl = nl ++ pad.
Proof. unfold nl. cbn. now rewrite append_nil_r. Qed.

Lemma no_newline_spaces (n : Z) : no_newline (str_mul " " n) = true.
Proof.
  unfold str_mul. induction (Z.to_nat n) as [|m IH]; [reflexivity|exact IH].
Qed.

Lemma repeat_string_add (s : string) (a b : nat) :
  repeat_string s (a + b) = repeat_string s a ++ repeat_string s b.
Proof.
  induction a as [|a IH]; [reflexivity|].
  cbn [Nat.add repeat_string]. now rewrite IH, append_assoc.
Qed.

Lemma spaces_add (i k : Z) :
  0 <= i -> 0 <= k -> str_mul " " (i + k) = str_mul " " k ++ str_mul " " i.
Proof.
  intros Hi Hk. unfold str_mul.
  replace (Z.to_nat (i + k)) with (Z.to_nat k + Z.to_nat i)%nat by lia.
  apply repeat_string_add.
Qed.

(** A line that begins at the indent, [k] columns deeper. *)
Lemma shift_line (rest' rest : string) (i k : Z) :
  0 <= i -> 0 <= k ->
  rest' = shift (str_mul " " k) rest ->
  nl ++ str_mul " " (i + k) ++ rest'
  = shift (str_mul " " k) (nl ++ str_mul " " i ++ rest).
Proof.
  intros Hi Hk H.
  rewrite !shift_app, shift_nl, (shift_no_newline _ _ (no_newline_spaces i)).
  rewrite spaces_add, H by assumption. now rewrite !append_assoc.
Qed.

Lemma shift_children {A} (text : A -> Z -> string) (plain : A -> bool)
    (xs : list A) (i k : Z) :
  0 <= i -> 0 <= k ->
  list_all A (fun x => forall i, 0 <= i -> plain x = true ->
                                 text x (i + k) = shift (str_mul " " k) (text x i)) xs ->
  forallb plain xs = true ->
  xs <> [] ->
  nl ++ join nl (map (fun x => str_mul " " (i + k) ++ text x (i + k)) xs)
  = shift (str_mul " " k) (nl ++ join nl (map (fun x => str_mul " " i ++ text x i) xs)).
Proof.
  intros Hi Hk Hall. induction Hall as [|x Hx xs Hxs IH]; intros Hplain Hne.
  - now destruct Hne.
  - clear Hne. cbn [forallb] in Hplain. apply andb_prop in Hplain as [Hp Hps].
    destruct xs as [|y ys].
    + cbn [map join].
      exact (shift_line _ _ i k Hi Hk (Hx i Hi Hp)).
    + change (join nl (map ?f (x :: y :: ys)))
        with (f x ++ nl ++ join nl (map f (y :: ys))).
      cbv beta.
      pose proof (shift_line _ _ i k Hi Hk (Hx i Hi Hp)) as Hline.
      specialize (IH Hps ltac:(discriminate)).
      set (rest' := join nl (map _ (y :: ys))) in IH |- *.
      set (rest := join nl (map _ (y :: ys))) in IH |- *.
      transitivity ((nl ++ str_mul " " (i + k) ++ text x (i + k)) ++ nl ++ rest').
      { now rewrite !append_assoc. }
      rewrite Hline, IH, <- shift_app. now rewrite !append_assoc.
Qed.

Section Deeper.
Variable k : Z.
Hypothesis k_nonneg : 0 <= k.

Ltac split_plain :=
  repeat match goal with
         | H : _ && _ = true |- _ => apply andb_prop in H; destruct H
         end.

(** Splits an equation between a text and the shifted text into its
    pieces: the constant ones have no newline, the others are visits. *)
Ltac pieces :=
  rewrite ?shift_app;
  repeat (apply (f_equal2 append));
  try solve [symmetry; apply shift_no_newline; (reflexivity || assumption)];
  auto.

(** One piece, when it has no newline or is a visit of the hypotheses. *)
Ltac piece :=
  rewrite shift_app; apply (f_equal2 append);
  [first [ solve [symmetry; apply shift_no_newline; (reflexivity || assumption)]
         | solve [auto]
         | solve [match goal with
                  | IH : forall i : Z, 0 <= i -> _ |- _ => apply IH; [lia | assumption]
                  end] ]|].

Lemma text_expr_shift (e : Expr) :
  forall i, 0 <= i -> plain_expr token_str host_float_str e = true ->
            text_e e (i + k) = shift (str_mul " " k) (text_e e i).
Proof.
  induction e as
    [v | e IH | op r IHr | op l IHl r IHr | op l IHl r IHr | n kd
    | n v IHv kd | c IHc p args IHargs | o IHo n | o IHo n v IHv | kw n | kw m n];
    intros i Hi Hplain; cbn [text_expr plain_expr] in *; split_plain;
    try solve [pieces].
  destruct args as [|a args]; [pieces|].
  rewrite <- (append_assoc nl _ ")"), <- (append_assoc nl _ ")").
  replace (i + k + 4) with (i + 4 + k) by lia.
  rewrite (shift_children text_e (plain_expr token_str host_float_str)
             (a :: args) (i + 4) k) by (assumption || lia || discriminate).
  pieces.
Qed.

Lemma text_stmt_shift (s : Stmt) :
  forall i, 0 <= i -> plain_stmt token_str host_float_str s = true ->
            text_s s (i + k) = shift (str_mul " " k) (text_s s i).
Proof.
  pose proof text_expr_shift as Hexpr.
  induction s as
    [e | e | n [v|] | ss IHss | c t IHt e IHe | c b IHb | n ps b IHb
    | kw [v|] | n sc ms IHms];
    intros i Hi Hplain; cbn [text_stmt plain_stmt] in *; split_plain;
    try solve [pieces].
  - destruct ss as [|s ss]; [reflexivity|].
    rewrite <- (append_assoc nl _ ")"), <- (append_assoc nl _ ")").
    replace (i + k + 4) with (i + 4 + k) by lia.
    rewrite (shift_children text_s (plain_stmt token_str host_float_str)
               (s :: ss) (i + 4) k) by (assumption || lia || discriminate).
    pieces.
  - replace (i + k + 4) with (i + 4 + k) by lia.
    piece. piece. apply shift_line; [lia | assumption |].
    piece.
    destruct IHe as [e IHe|].
    + apply shift_line; [assumption | assumption |]. pieces.
    + pieces.
  - replace (i + k + 4) with (i + 4 + k) by lia.
    piece. piece. apply shift_line; [lia | assumption |].
    pieces. apply IHb; [lia | assumption].
  - destruct b as [|s b]; [discriminate|].
    piece. piece. piece. piece.
    rewrite <- (append_assoc nl _ ")"), <- (append_assoc nl _ ")").
    replace (i + k + 4) with (i + 4 + k) by lia.
    rewrite (shift_children text_s (plain_stmt token_str host_float_str)
               (s :: b) (i + 4) k) by (assumption || lia || discriminate).
    pieces.
  - piece. piece. rewrite shift_app. apply (f_equal2 append).
    { destruct sc as [[super_name node]|]; [pieces | reflexivity]. }
    destruct ms as [|m ms]; [reflexivity|].
    rewrite <- (append_assoc nl _ ")"), <- (append_assoc nl _ ")").
    replace (i + k + 4) with (i + 4 + k) by lia.
    rewrite (shift_children text_s (plain_stmt token_str host_float_str)
               (m :: ms) (i + 4) k) by (assumption || lia || discriminate).
    pieces.
Qed.

End Deeper.

(** X3: a statement visited [k] columns deeper gives the same text with
    [k] spaces put behind each of its newlines, so a nested node is laid
    out as at the top level and moved as a whole.  This needs a starting
    indent that is not negative, lexemes, literals and token strings
    without a newline (a string literal may span lines), and function
    bodies that are not empty: after the header of a function without
    statements the closing parenthesis starts its line at any indent. *)
Theorem deeper_indent_shifts_the_rendering (s : Stmt) (indent k : Z) :
  0 <= indent -> 0 <= k ->
  plain_stmt token_str host_float_str s = true ->
  fst (accept_s s (indent + k)) = shift (str_mul " " k) (fst (accept_s s indent)).
Proof.
  intros Hi Hk Hplain. rewrite !accept_stmt_text. cbn [fst].
  now apply text_stmt_shift.
Qed.

End PureRendering.
(** * More on the driver *)

Section DriverMore.
Context {pkg : Package}.

Local Open Scope io_scope.

Lemma calls_app (a b : list Event) : calls (a ++ b) = (calls a ++ calls b)%list.
Proof. apply flat_map_app. Qed.

Lemma calls_of_reports (ds : list Diagnostic) : calls (map Reported ds) = [].
Proof. induction ds; simpl; auto. Qed.

Lemma scanned_app (a b : list Event) : scanned (a ++ b) = (scanned a ++ scanned b)%list.
Proof. apply flat_map_app. Qed.

Lemma scanned_of_reports (ds : list Diagnostic) : scanned (map Reported ds) = [].
Proof. induction ds; simpl; auto. Qed.

(** Projects the fields of a world built by the steps of the driver. *)
Ltac fields :=
  repeat first
    [ progress cbn [globals stdout stderr files trace had_error had_runtime_error
                    logged printed eprinted with_had_error with_had_runtime_error
                    any_error orb fst snd] in *
    | rewrite reported_trace in *
    | rewrite reported_stdout in *
    | rewrite reported_stderr in *
    | rewrite reported_files in *
    | rewrite reported_had_error in *
    | rewrite reported_had_runtime_error in * ].

(** The calls in an explicit list of events. *)
Ltac count_calls :=
  repeat first
    [ rewrite calls_app
    | rewrite calls_of_reports
    | rewrite scanned_app
    | rewrite scanned_of_reports
    | progress cbn [calls scanned flat_map app map] ].

(** Brings a goal about the world after a case of [run] to the flags
    and the errors of that case. *)
Ltac in_case :=
  unfold events_during; fields; rewrite <- ?app_assoc, ?skipn_length_app; count_calls;
  repeat match goal with
         | H : _ = true |- _ => rewrite H
         | H : _ = false |- _ => rewrite H
         end;
  fields.

(** X7: whatever the source and the flags, [run] calls the scanner on
    the source, then the parser, and after them the printer, the resolver
    and the interpreter in this order, each at most once and none after
    one that was left out. *)
Theorem run_calls_a_prefix_of_the_pipeline (source : string) (w : World) :
  exists n, (2 <= n <= 5)%nat
            /\ calls (events_during (run source) w) = firstn n (pipeline source).
Proof.
  unfold events_during. rewrite run_unfold.
  destruct (Scanner_scan_tokens source) as [tokens scan_errors].
  destruct (Parser_parse tokens) as [result parse_errors]. cbv zeta.
  destruct result as [program|]; [|exists 2%nat; in_case; split; [lia | reflexivity]].
  match goal with |- context [if ?b then _ else _] => destruct b end;
    [exists 2%nat; in_case; split; [lia | reflexivity]|].
  destruct (Resolver_resolve_list program Interpreter_new) as [interpreter resolve_errors].
  match goal with |- context [if ?b then _ else _] => destruct b end;
    [exists 4%nat; in_case; split; [lia | reflexivity]|].
  destruct (Interpreter_visit_statements program interpreter) as [output [|e|]];
    exists 5%nat; in_case; (split; [lia | reflexivity]).
Qed.

(** X8: when [had_error] is set on entry, or the scanner or the parser
    reports an error, or the parser gives no program, [run] returns
    having written nothing to standard output, the rendering included,
    and having called the scanner and the parser only. *)
Theorem failed_scan_or_parse_writes_nothing_out (source : string) (w : World) :
  had_error (globals w) = true
  \/ errors_before_resolution source <> []
  \/ fst (Parser_parse (fst (Scanner_scan_tokens source))) = None ->
  fst (run source w) = Returned tt
  /\ stdout (snd (run source w)) = stdout w
  /\ calls (events_during (run source) w) = [scan_tokens_call source; parse_call].
Proof.
  unfold events_during, errors_before_resolution. rewrite run_unfold.
  destruct (Scanner_scan_tokens source) as [tokens scan_errors]. cbn [fst].
  destruct (Parser_parse tokens) as [result parse_errors]. cbv zeta.
  cbn [fst snd]. intro H.
  destruct result as [program|]; [|in_case; auto].
  fields.
  destruct (had_error (globals w)) eqn:Hflag; [in_case; auto|].
  destruct H as [H | [H | H]]; [discriminate | | discriminate].
  rewrite <- orb_assoc, <- any_error_app.
  destruct (scan_errors ++ parse_errors)%list as [|d ds]; [now destruct H|].
  in_case. auto.
Qed.

(** ** The prompt loop as a whole *)

(** A run that starts with [had_error] false ends as in a new process
    and adds to standard output what it writes there. *)
Lemma run_out (source : string) (w : World) :
  had_error (globals w) = false ->
  fst (run source w) = fst (run source (start []))
  /\ stdout (snd (run source w)) = stdout w ++ output_of_run source.
Proof.
  intro Hflag. unfold output_of_run, start. rewrite !run_unfold.
  destruct (Scanner_scan_tokens source) as [tokens scan_errors].
  destruct (Parser_parse tokens) as [result parse_errors]. cbv zeta.
  destruct result as [program|]; [|in_case; now rewrite append_nil_r].
  fields. rewrite Hflag. cbn [orb].
  destruct (any_error scan_errors) eqn:Hscan;
    [in_case; now rewrite append_nil_r|].
  destruct (any_error parse_errors) eqn:Hparse;
    [in_case; now rewrite append_nil_r|].
  cbn [orb].
  destruct (Resolver_resolve_list program Interpreter_new) as [interpreter resolve_errors].
  in_case. cbn [orb].
  destruct (any_error resolve_errors); [in_case; now rewrite ?append_assoc|].
  destruct (Interpreter_visit_statements program interpreter) as [output [|e|]];
    in_case; now rewrite ?append_assoc.
Qed.

(** A run hands its source to the scanner, once. *)
Lemma run_scans (source : string) (w : World) :
  scanned (events_during (run source) w) = [source].
Proof.
  unfold events_during. rewrite run_unfold.
  destruct (Scanner_scan_tokens source) as [tokens scan_errors].
  destruct (Parser_parse tokens) as [result parse_errors]. cbv zeta.
  destruct result as [program|]; [|in_case; reflexivity].
  match goal with |- context [if ?b then _ else _] => destruct b end;
    [in_case; reflexivity|].
  destruct (Resolver_resolve_list program Interpreter_new) as [interpreter resolve_errors].
  match goal with |- context [if ?b then _ else _] => destruct b end;
    [in_case; reflexivity|].
  destruct (Interpreter_visit_statements program interpreter) as [output [|e|]];
    in_case; reflexivity.
Qed.

Lemma repl_entry_out (inp : string) (w : World) :
  had_error (globals w) = false ->
  fst (repl_entry inp w) = Returned tt ->
  stdout (snd (repl_entry inp w)) = stdout w ++ "> " ++ output_of_run inp.
Proof.
  intros Hflag.
  pose proof (run_out inp (printed "> " EmptyString w) Hflag) as [_ Hout].
  rewrite repl_entry_eq.
  destruct (run inp (printed "> " EmptyString w)) as [[[]| | |] w1];
    cbn [fst snd] in *; try discriminate.
  intros _. fields. rewrite Hout. now rewrite !append_assoc.
Qed.

Lemma repl_entry_scans (inp : string) (w : World) :
  scanned (events_during (repl_entry inp) w) = [inp].
Proof.
  pose proof (run_scans inp (printed "> " EmptyString w)) as H.
  unfold events_during in *. rewrite repl_entry_eq.
  destruct (run inp (printed "> " EmptyString w)) as [[[]| | |] w1]; exact H.
Qed.

Lemma repl_entries_out (lines : list string) (w : World) :
  had_error (globals w) = false ->
  fst (repl_entries lines w) = Returned tt ->
  stdout (snd (repl_entries lines w))
  = stdout w ++ flatten (map (fun inp => "> " ++ output_of_run inp) lines).
Proof.
  revert w. induction lines as [|inp lines IH]; intros w Hflag.
  - intros _. cbn. now rewrite append_nil_r.
  - pose proof (repl_entry_out inp w Hflag) as Hout.
    pose proof (repl_entry_summary inp w) as (_ & _ & Hflags).
    cbn [repl_entries]. unfold bind.
    destruct (repl_entry inp w) as [[[]| | |] w1]; cbn [fst snd] in *;
      try discriminate.
    intro Hret. destruct (Hflags eq_refl) as [Herr _].
    rewrite (IH w1 Herr Hret), (Hout eq_refl).
    cbn [map flatten fold_right]. now rewrite !append_assoc.
Qed.

Lemma repl_entries_scans (lines : list string) (w : World) :
  fst (repl_entries lines w) = Returned tt ->
  scanned (events_during (repl_entries lines) w) = lines.
Proof.
  revert w. induction lines as [|inp lines IH]; intro w.
  - intros _. unfold events_during. cbn [repl_entries ret snd].
    replace (skipn (length (trace w)) (trace w)) with (@nil Event)
      by (rewrite <- (app_nil_r (trace w)) at 2; now rewrite skipn_length_app).
    reflexivity.
  - pose proof (repl_entry_scans inp w) as Hscan.
    pose proof (repl_entry_summary inp w) as (Htrace & _ & _).
    pose proof (repl_entries_summary lines (snd (repl_entry inp w))) as (Hrest & _).
    specialize (IH (snd (repl_entry inp w))).
    unfold events_during in *. cbn [repl_entries]. unfold bind.
    destruct (repl_entry inp w) as [[[]| | |] w1]; cbn [fst snd] in *;
      try discriminate.
    intro Hret. specialize (IH Hret).
    set (ev1 := skipn (length (trace w)) (trace w1)) in *. clearbody ev1.
    set (ev2 := skipn (length (trace w1)) (trace (snd (repl_entries lines w1)))) in *.
    clearbody ev2.
    rewrite Hrest, Htrace, <- app_assoc, skipn_length_app, scanned_app, Hscan, IH.
    reflexivity.
Qed.

Lemma repl_entries_end (lines : list string) (w : World) :
  fst (repl_entries lines w) = Returned tt \/ fst (repl_entries lines w) = Hangs.
Proof.
  revert w. induction lines as [|inp lines IH]; intro w.
  - now left.
  - pose proof (repl_entry_summary inp w) as (_ & Hout & _).
    cbn [repl_entries]. unfold bind.
    destruct (repl_entry inp w) as [o w1]. cbn [fst] in Hout.
    destruct Hout as [-> | ->]; [apply IH | now right].
Qed.

Lemma flatten_lines_of (input : string) : flatten (lines_of input) = input.
Proof.
  induction input as [|c rest IH]; [reflexivity|].
  cbn [lines_of]. destruct (Ascii.eqb c (ascii_of_nat 10)).
  - cbn. unfold flatten in IH. now rewrite IH.
  - destruct (lines_of rest) as [|l ls].
    + cbn in IH. subst rest. reflexivity.
    + cbn in *. now rewrite IH.
Qed.

Lemma lines_of_shaped (input : string) : forallb line_shaped (lines_of input) = true.
Proof.
  induction input as [|c rest IH]; [reflexivity|].
  cbn [lines_of]. destruct (Ascii.eqb c (ascii_of_nat 10)) eqn:E.
  - cbn [forallb line_shaped]. unfold is_newline. now rewrite E.
  - destruct (lines_of rest) as [|l ls].
    + cbn [forallb line_shaped]. unfold is_newline. now rewrite E.
    + cbn [forallb] in *. apply andb_prop in IH as [Hl Hls].
      cbn [line_shaped]. unfold is_newline. rewrite E.
      destruct l as [|c' l']; [discriminate|]. now rewrite Hl.
Qed.

(** X9: when [had_error] is false at its start and no line hangs, the
    prompt loop writes to standard output, for each line of the input in
    turn, the prompt and what [run] writes for this line alone in a new
    process, and then a last prompt. *)
Theorem prompt_output_is_line_by_line (input : string) (w : World) :
  had_error (globals w) = false ->
  fst (run_prompt input w) = Returned tt ->
  stdout (snd (run_prompt input w))
  = stdout w
      ++ flatten (map (fun inp => "> " ++ output_of_run inp) (lines_of input))
      ++ "> ".
Proof.
  intros Hflag. rewrite run_prompt_lines.
  pose proof (repl_entries_out (lines_of input) w Hflag) as Hout.
  unfold bind, print_end.
  destruct (repl_entries (lines_of input) w) as [[[]| | |] w1]; cbn [fst snd] in *;
    try discriminate.
  intros _. fields. rewrite (Hout eq_refl). now rewrite append_nil_r, !append_assoc.
Qed.

(** X10: the prompt loop hands the standard input to the scanner piece
    by piece: when no line hangs, the sources of its calls of the
    scanner, put one after the other, are the input, and each of them is
    a line, not empty and with no newline but at its end. *)
Theorem prompt_scans_the_input_line_by_line (input : string) (w : World) :
  fst (run_prompt input w) = Returned tt ->
  flatten (scanned (events_during (run_prompt input) w)) = input
  /\ forallb line_shaped (scanned (events_during (run_prompt input) w)) = true.
Proof.
  unfold events_during. rewrite run_prompt_lines.
  pose proof (repl_entries_scans (lines_of input) w) as Hscan.
  unfold events_during in Hscan.
  unfold bind, print_end.
  destruct (repl_entries (lines_of input) w) as [[[]| | |] w1]; cbn [fst snd] in *;
    try discriminate.
  intros _. fields. rewrite (Hscan eq_refl).
  split; [apply flatten_lines_of | apply lines_of_shaped].
Qed.

(** X11: started without a script, the process never exits with a
    status of its own choice: whatever the lines report, static or
    runtime errors, it returns, and so ends with status 0, unless a line
    hangs. *)
Theorem prompt_mode_ends_with_status_zero
    (argv : list string) (input : string) (w : World) :
  (length argv <= 1)%nat ->
  fst (main argv input w) = Hangs
  \/ (fst (main argv input w) = Returned tt
      /\ exit_status (fst (main argv input w)) = Some 0).
Proof.
  intro Hargv. unfold main.
  destruct (Nat.ltb_spec 2 (length argv)); [lia|].
  destruct (Nat.eqb_spec (length argv) 2); [lia|].
  rewrite run_prompt_lines.
  pose proof (repl_entries_end (lines_of input) w) as Hend.
  unfold bind, print_end.
  destruct (repl_entries (lines_of input) w) as [o w1]. cbn [fst] in Hend.
  destruct Hend as [-> | ->]; [right; split; reflexivity | now left].
Qed.

End DriverMore.
(** * The further theorems at concrete inputs *)

Lemma deeper_indent_shifts_the_rendering_witness :
  0 <= 0
  /\ 0 <= 4
  /\ plain_stmt unknown_token_str python_float_str nested_statement = true
  /\ fst (accept_stmt unknown_token_str python_float_str nested_statement (0 + 4))
     = shift (str_mul " " 4)
         (fst (accept_stmt unknown_token_str python_float_str nested_statement 0)).
Proof.
  assert (H1 : 0 <= 0) by lia.
  assert (H2 : 0 <= 4) by lia.
  assert (H3 : plain_stmt unknown_token_str python_float_str nested_statement = true)
    by (vm_compute; reflexivity).
  split; [exact H1|]. split; [exact H2|]. split; [exact H3|].
  exact (deeper_indent_shifts_the_rendering unknown_token_str python_float_str
           nested_statement 0 4 H1 H2 H3).
Defined.

Lemma token_str_matters_for_unary_only_witness :
  unary_free_stmt nested_statement = true
  /\ accept_stmt unknown_token_str python_float_str nested_statement 0
     = accept_stmt lexeme python_float_str nested_statement 0.
Proof.
  assert (H : unary_free_stmt nested_statement = true) by (vm_compute; reflexivity).
  split; [exact H|].
  exact (token_str_matters_for_unary_only unknown_token_str lexeme python_float_str
           nested_statement H 0).
Defined.

Lemma failed_scan_or_parse_writes_nothing_out_witness :
  errors_before_resolution (pkg := plox) "print 1 +;" <> []
  /\ fst (run (pkg := plox) "print 1 +;" (start [])) = Returned tt
  /\ stdout (snd (run (pkg := plox) "print 1 +;" (start []))) = stdout (start [])
  /\ calls (events_during (run (pkg := plox) "print 1 +;") (start []))
     = [scan_tokens_call "print 1 +;"; parse_call].
Proof.
  assert (H : errors_before_resolution (pkg := plox) "print 1 +;" <> [])
    by (vm_compute; discriminate).
  split; [exact H|].
  exact (@failed_scan_or_parse_writes_nothing_out plox "print 1 +;" (start [])
           (or_intror (or_introl H))).
Defined.

Lemma prompt_output_is_line_by_line_witness :
  had_error (globals (start [])) = false
  /\ fst (run_prompt (pkg := plox) session (start [])) = Returned tt
  /\ stdout (snd (run_prompt (pkg := plox) session (start [])))
     = stdout (start [])
         ++ flatten (map (fun inp => "> " ++ output_of_run (pkg := plox) inp)
                         (lines_of session))
         ++ "> ".
Proof.
  assert (H1 : had_error (globals (start [])) = false) by reflexivity.
  assert (H2 : fst (run_prompt (pkg := plox) session (start [])) = Returned tt)
    by (vm_compute; reflexivity).
  split; [exact H1|]. split; [exact H2|].
  exact (@prompt_output_is_line_by_line plox session (start []) H1 H2).
Defined.

Lemma prompt_scans_the_input_line_by_line_witness :
  fst (run_prompt (pkg := plox) failing_session (start [])) = Returned tt
  /\ flatten (scanned (events_during (run_prompt (pkg := plox) failing_session)
                                     (start [])))
     = failing_session
  /\ forallb line_shaped
       (scanned (events_during (run_prompt (pkg := plox) failing_session) (start [])))
     = true.
Proof.
  assert (H : fst (run_prompt (pkg := plox) failing_session (start [])) = Returned tt)
    by (vm_compute; reflexivity).
  split; [exact H|].
  exact (@prompt_scans_the_input_line_by_line plox failing_session (start []) H).
Defined.

Lemma prompt_mode_ends_with_status_zero_witness :
  (length ["plox"] <= 1)%nat
  /\ (fst (main (pkg := plox) ["plox"] failing_session (start [])) = Hangs
      \/ (fst (main (pkg := plox) ["plox"] failing_session (start [])) = Returned tt
          /\ exit_status (fst (main (pkg := plox) ["plox"] failing_session (start [])))
             = Some 0)).
Proof.
  assert (H : (length ["plox"] <= 1)%nat) by (simpl; lia).
  split; [exact H|].
  exact (@prompt_mode_ends_with_status_zero plox ["plox"] failing_session (start []) H).
Defined.
